(** * View-lineage resolver of the data utility dashboard

    Shallow embedding of [data_lineage.py]: the dependency extractor
    ([extract_dependencies]), the recursive lineage builder
    ([build_full_lineage]) with its catalog fetchers
    ([fetch_view_definition], [fetch_table_metadata]) and the ordered
    report produced by [run_data_lineage_ui].

    Conventions of the embedding.
    - Python [str] values are [string]s.  The character classes of the
      regular expression, its case folding and [str.strip] are those
      of Python on ASCII text; on other text Python also knows
      letters, spaces and case pairs of Unicode.  The statements about
      the extractor and about [strip] therefore carry the hypothesis
      [ascii_text]; the statements about the traversal hold for any
      extractor and do not need it.
    - A Python [dict] is an association list kept in insertion order
      (assignment to an existing key keeps its position); the [visited]
      set is a [gset string]; the [networkx.DiGraph] is a pair of finite
      sets (nodes, edges), as a DiGraph stores at most one edge per
      ordered pair.
    - The catalog (Teradata behind [get_teradata_connection]) is a pair
      of oracles that say, per query, whether the connection could not
      be opened, the query raised, or rows came back.
    - Streamlit's [st.error] appends to an event log; [st.stop] halts
      the script: it raises a script-control exception that is not an
      [Exception], so the fetchers' [except Exception] does not catch it.
    - Python's recursion is modelled with fuel; [None] means the fuel
      ran out, never a result of the program.  The interpreter's
      recursion limit is not modelled. *)

From Stdlib Require Import Ascii.
From stdpp Require Import base list strings gmap sets.

(** ** Characters and the regular expression of [extract_dependencies] *)

Module Re.

(** [\w] on ASCII text: letters, digits and the underscore. *)
Definition is_word_char (c : ascii) : bool :=
  let n := nat_of_ascii c in
  (((48 <=? n) && (n <=? 57)) || ((65 <=? n) && (n <=? 90))
   || ((97 <=? n) && (n <=? 122)) || (n =? 95))%nat.

(** [\s] on ASCII text: tab, newline, vertical tab, form feed,
    carriage return, the four separators 28..31 and the space. *)
Definition is_space_char (c : ascii) : bool :=
  let n := nat_of_ascii c in
  (((9 <=? n) && (n <=? 13)) || ((28 <=? n) && (n <=? 32)))%nat.

(** The class [[\w\.]]. *)
Definition is_ident_char (c : ascii) : bool :=
  is_word_char c || (nat_of_ascii c =? 46)%nat.

(** Case folding used by [re.IGNORECASE] on ASCII text. *)
Definition lower (c : ascii) : ascii :=
  let n := nat_of_ascii c in
  if ((65 <=? n) && (n <=? 90))%nat then ascii_of_nat (n + 32) else c.

(** Longest prefix of [s] made of characters satisfying [p], and the
    rest: what a greedy [p+] consumes. *)
Fixpoint take_while (p : ascii → bool) (s : string) : string * string :=
  match s with
  | EmptyString => (EmptyString, EmptyString)
  | String c r =>
      if p c then let '(run, rest) := take_while p r in (String c run, rest)
      else (EmptyString, s)
  end.

(** Case-insensitive match of the literal [lit] at the head of [s];
    returns what follows. *)
Fixpoint match_literal (lit s : string) : option string :=
  match lit, s with
  | EmptyString, _ => Some s
  | String a lit', String c s' =>
      if decide (lower a = lower c) then match_literal lit' s' else None
  | String _ _, EmptyString => None
  end.

(** [\b] between the previous character ([None] at the start of the
    text) and the head of [s]. *)
Definition word_boundary (prev : option ascii) (s : string) : bool :=
  let before := match prev with Some c => is_word_char c | None => false end in
  let after := match s with String c _ => is_word_char c | EmptyString => false end in
  xorb before after.

(** One alternative, [\bKW\s+([\w\.]+)], tried at the head of [s]:
    the captured identifier and the text after the match. *)
Definition match_clause (kw : string) (prev : option ascii) (s : string)
  : option (string * string) :=
  if word_boundary prev s then
    match match_literal kw s with
    | Some r1 =>
        let '(ws, r2) := take_while is_space_char r1 in
        if decide (ws = "") then None
        else
          let '(ident, r3) := take_while is_ident_char r2 in
          if decide (ident = "") then None else Some (ident, r3)
    | None => None
    end
  else None.

(** The whole pattern [\bFROM\s+([\w\.]+)|\bJOIN\s+([\w\.]+)] at the head
    of [s]: the two groups (the one of the alternative that did not take
    part is empty) and the text after the match. *)
Definition match_pattern (prev : option ascii) (s : string)
  : option (string * string * string) :=
  match match_clause "FROM" prev s with
  | Some (g1, rest) => Some (g1, "", rest)
  | None =>
      match match_clause "JOIN" prev s with
      | Some (g2, rest) => Some ("", g2, rest)
      | None => None
      end
  end.

(** [re.findall]: leftmost, non-overlapping matches.  [skip] counts the
    characters of the last match still to be stepped over. *)
Fixpoint findall_from (prev : option ascii) (skip : nat) (s : string)
  : list (string * string) :=
  match s with
  | EmptyString => []
  | String c r =>
      match skip with
      | S k => findall_from (Some c) k r
      | O =>
          match match_pattern prev s with
          | Some (g1, g2, rest) =>
              (g1, g2)
                :: findall_from (Some c) (String.length s - String.length rest - 1) r
          | None => findall_from (Some c) 0 r
          end
      end
  end.

Definition findall (s : string) : list (string * string) :=
  findall_from None 0 s.

End Re.

(** ** String helpers of the builder *)

(** [str.strip()] on ASCII text: whitespace removed at both ends. *)
Fixpoint lstrip (s : string) : string :=
  match s with
  | String c r => if Re.is_space_char c then lstrip r else s
  | EmptyString => EmptyString
  end.

Definition strip (s : string) : string :=
  String.rev (lstrip (String.rev (lstrip s))).

(** ['.' in view_name]. *)
Fixpoint has_dot (s : string) : bool :=
  match s with
  | EmptyString => false
  | String c r => if decide (c = "."%char) then true else has_dot r
  end.

(** [view_name.split('.', 1)] when a dot is present: the text before the
    first dot and everything after it. *)
Fixpoint split_first_dot (s : string) : string * string :=
  match s with
  | EmptyString => (EmptyString, EmptyString)
  | String c r =>
      if decide (c = "."%char) then (EmptyString, r)
      else let '(a, b) := split_first_dot r in (String c a, b)
  end.

(** The [if '.' in view_name: ... else: ...] of the table branch. *)
Definition split_name (view_name : string) : string * string :=
  if has_dot view_name then split_first_dot view_name
  else ("dbc", view_name).

(** ** The extractor's contract, in the words of the specification *)

Fixpoint string_forall (p : ascii → bool) (s : string) : bool :=
  match s with
  | EmptyString => true
  | String c r => p c && string_forall p r
  end.

Fixpoint lower_string (s : string) : string :=
  match s with
  | EmptyString => EmptyString
  | String c r => String (Re.lower c) (lower_string r)
  end.

(** A text of ASCII characters only (codes 0..127). *)
Definition is_ascii_char (c : ascii) : bool := (nat_of_ascii c <? 128)%nat.

Definition ascii_text (s : string) : Prop :=
  string_forall is_ascii_char s = true.

(** The last character of [s], or [prev] when [s] is empty. *)
Fixpoint string_last (prev : option ascii) (s : string) : option ascii :=
  match s with
  | EmptyString => prev
  | String c r => string_last (Some c) r
  end.




(** ** Data model *)

(** A Python [dict] with string keys, in insertion order. *)
Abbreviation dict V := (list (string * V)).

(** [d[k] = v]: an existing key keeps its place, a new key goes last. *)
Fixpoint dict_set {V} (k : string) (v : V) (d : dict V) : dict V :=
  match d with
  | [] => [(k, v)]
  | (k', v') :: r =>
      if decide (k' = k) then (k, v) :: r else (k', v') :: dict_set k v r
  end.

Fixpoint dict_get {V} (k : string) (d : dict V) : option V :=
  match d with
  | [] => None
  | (k', v) :: r => if decide (k' = k) then Some v else dict_get k r
  end.

(** [list(d.keys())]. *)
Definition dict_keys {V} (d : dict V) : list string := d.*1.

(** One row of the [DBC.Columns] query. *)
Record ColumnMeta := {
  ColumnName : string;
  ColumnFormat : string;
  ColumnType : string;
  ColumnLength : Z;
  Nullable : string;
  CompressValueList : string
}.

(** The [pd.DataFrame(rows, columns=...)] of [fetch_table_metadata]:
    six fixed columns, so only its rows matter. *)
Abbreviation DataFrame := (list ColumnMeta).

(** [metadata.empty]. *)
Definition df_empty (df : DataFrame) : bool :=
  match df with [] => true | _ => false end.

(** What one round trip to the catalog can do. *)
Inductive QueryOutcome (A : Type) : Type :=
| NoConnection (e : string)
    (** [get_teradata_connection] caught [e] and returned [None] *)
| QueryRaises (e : string)
    (** the cursor raised [e] *)
| QueryRows (rows : A).
Arguments NoConnection {A} e.
Arguments QueryRaises {A} e.
Arguments QueryRows {A} rows.

(** The catalog collaborator.  [view_query n] is [cursor.fetchone()] of
    the [DBC.TablesV] query for [n] ([RequestText] of the row found, or
    no row); [columns_query db t] is [cursor.fetchall()] of the
    [DBC.Columns] query. *)
Record Catalog := {
  view_query : string → QueryOutcome (option string);
  columns_query : string → string → QueryOutcome DataFrame
}.

(** [networkx.DiGraph]. *)
Record DiGraph := {
  nodes : gset string;
  edges : gset (string * string)
}.

(** [graph.add_edge(u, v)]: both endpoints become nodes. *)
Definition add_edge (u v : string) (g : DiGraph) : DiGraph :=
  {| nodes := nodes g ∪ {[u]} ∪ {[v]}; edges := edges g ∪ {[(u, v)]} |}.

(** What the run shows or asks, in order. *)
Inductive Event :=
| CallFetchView (view_name : string)
| CallFetchTable (database_name table_name : string)
| StError (msg : string).

(** The objects threaded through [build_full_lineage], and the log. *)
Record Session := {
  graph : DiGraph;
  visited : gset string;
  ddl_dict : dict string;
  table_metadata_dict : dict DataFrame;
  log : list Event
}.

(** Lines 115-118: fresh objects for one request. *)
Definition fresh : Session :=
  {| graph := {| nodes := ∅; edges := ∅ |}; visited := ∅;
     ddl_dict := []; table_metadata_dict := []; log := [] |}.

Definition emit (e : Event) (s : Session) : Session :=
  {| graph := graph s; visited := visited s; ddl_dict := ddl_dict s;
     table_metadata_dict := table_metadata_dict s; log := log s ++ [e] |}.

Definition st_error (msg : string) : Session → Session := emit (StError msg).

(** [visited.add(view_name)]. *)
Definition visit (view_name : string) (s : Session) : Session :=
  {| graph := graph s; visited := {[view_name]} ∪ visited s;
     ddl_dict := ddl_dict s; table_metadata_dict := table_metadata_dict s;
     log := log s |}.

(** [ddl_dict[view_name] = view_sql]. *)
Definition set_ddl (view_name view_sql : string) (s : Session) : Session :=
  {| graph := graph s; visited := visited s;
     ddl_dict := dict_set view_name view_sql (ddl_dict s);
     table_metadata_dict := table_metadata_dict s; log := log s |}.

(** [table_metadata_dict[view_name] = metadata]. *)
Definition set_table_metadata (view_name : string) (metadata : DataFrame)
    (s : Session) : Session :=
  {| graph := graph s; visited := visited s; ddl_dict := ddl_dict s;
     table_metadata_dict := dict_set view_name metadata (table_metadata_dict s);
     log := log s |}.

(** [graph.add_edge(dep, view_name)]. *)
Definition graph_add_edge (dep view_name : string) (s : Session) : Session :=
  {| graph := add_edge dep view_name (graph s); visited := visited s;
     ddl_dict := ddl_dict s; table_metadata_dict := table_metadata_dict s;
     log := log s |}.

(** A call either returns a value or stops the script ([st.stop()]). *)
Inductive Run (A : Type) : Type :=
| Returns (a : A) (s : Session)
| Halts (s : Session).
Arguments Returns {A} a s.
Arguments Halts {A} s.

Definition run_state {A} (r : Run A) : Session :=
  match r with Returns _ s => s | Halts s => s end.

Definition halted {A} (r : Run A) : bool :=
  match r with Returns _ _ => false | Halts _ => true end.

(** Python's [for x in items: body(x)], where a body that stops the
    script (or runs out of fuel) ends the loop. *)
Fixpoint for_each (body : string → Session → option (Run unit))
    (items : list string) (s : Session) : option (Run unit) :=
  match items with
  | [] => Some (Returns tt s)
  | x :: rest =>
      match body x s with
      | Some (Returns _ s') => for_each body rest s'
      | other => other
      end
  end.

(** ** Sample catalogs *)

Definition sample_columns (names : list string) : DataFrame :=
  (λ n, {| ColumnName := n; ColumnFormat := "X(20)"; ColumnType := "CV";
           ColumnLength := 20; Nullable := "Y"; CompressValueList := "" |})
    <$> names.

(** A catalog with the given view texts and table columns (keyed by
    [schema.table]); the connection cannot be opened for the names of
    [offline], and the queries about the names of [failing] raise. *)
Definition sample_catalog (views : dict string) (tables : dict DataFrame)
    (offline failing : list string) : Catalog :=
  {| view_query n :=
       if decide (n ∈ offline) then NoConnection "connection timed out"
       else if decide (n ∈ failing) then QueryRaises "syntax error"
       else QueryRows (dict_get n views);
     columns_query db t :=
       if decide (db +:+ "." +:+ t ∈ failing) then QueryRaises "syntax error"
       else QueryRows (default [] (dict_get (db +:+ "." +:+ t) tables)) |}.

Definition chain_views : dict string :=
  [("A", "SELECT * FROM B");
   ("B", "SELECT * FROM C");
   ("C", "SELECT o.id FROM sales.orders o JOIN customers c ON o.cid = c.id JOIN ghost g ON 1 = 1")].

Definition chain_tables : dict DataFrame :=
  [("sales.orders", sample_columns ["id"; "cid"; "total"]);
   ("dbc.customers", sample_columns ["id"])].

Definition chain_catalog : Catalog := sample_catalog chain_views chain_tables [] [].

Definition cycle_catalog : Catalog :=
  sample_catalog [("A", "SELECT * FROM B"); ("B", "select * from A")] [] [] [].

Definition diamond_views : dict string :=
  [("A", "SELECT * FROM B JOIN C ON B.k = C.k");
   ("B", "SELECT * FROM D");
   ("C", "SELECT * FROM D")].

Definition diamond_catalog : Catalog :=
  sample_catalog diamond_views [("dbc.D", sample_columns ["k"])] [] [].

(** The diamond when the connection is lost at [B], and when the query
    about [B] raises. *)
Definition offline_catalog : Catalog :=
  sample_catalog diamond_views [("dbc.D", sample_columns ["k"])] ["B"] [].

Definition failing_catalog : Catalog :=
  sample_catalog diamond_views [("dbc.D", sample_columns ["k"])] [] ["B"].

(** A view that names the same table twice, bare and qualified by the
    fallback schema, and a name that is in no catalog table. *)
Definition alias_catalog : Catalog :=
  sample_catalog
    [("A", "SELECT * FROM customers c JOIN dbc.customers d ON c.id = d.id")]
    [("dbc.customers", sample_columns ["id"])] [] [].

(** ** Script generator ([script_generator.py]) *)

Module ScriptGenerator.

Definition teradata_to_azure : dict string :=
  [("CF", "VARCHAR"); ("CV", "VARCHAR"); ("D", "DECIMAL(18,4)"); ("I", "INT");
   ("DA", "DATE"); ("TS", "DATETIME"); ("I8", "BIGINT"); ("I1", "TINYINT")].

(** The comprehension [{v: k for k, v in d.items()}]: entries are
    assigned in the order of [d], so a later key replaces an earlier one
    with the same value. *)
Definition invert (d : dict string) : dict string :=
  foldl (λ acc '(k, v), dict_set v k acc) [] d.

Definition azure_to_teradata : dict string := invert teradata_to_azure.

Definition teradata_to_databricks : dict string :=
  [("CF", "STRING"); ("CV", "STRING"); ("D", "DECIMAL(18,4)"); ("I", "INT");
   ("DA", "DATE"); ("TS", "TIMESTAMP"); ("I8", "BIGINT"); ("I1", "BYTE")].

Definition databricks_to_teradata : dict string := invert teradata_to_databricks.

Definition azure_to_databricks : dict string :=
  [("VARCHAR", "STRING"); ("DECIMAL(18,4)", "DECIMAL(18,4)"); ("INT", "INT");
   ("DATE", "DATE"); ("DATETIME", "TIMESTAMP"); ("BIGINT", "BIGINT");
   ("TINYINT", "BYTE")].

Definition databricks_to_azure : dict string := invert azure_to_databricks.

(** Lines 46-60. *)
Definition get_mapping (source target : string) : dict string :=
  if decide (source = "Teradata" ∧ target = "Azure SQL DB") then teradata_to_azure
  else if decide (source = "Azure SQL DB" ∧ target = "Teradata")
  then azure_to_teradata
  else if decide (source = "Teradata" ∧ target = "Databricks")
  then teradata_to_databricks
  else if decide (source = "Databricks" ∧ target = "Teradata")
  then databricks_to_teradata
  else if decide (source = "Azure SQL DB" ∧ target = "Databricks")
  then azure_to_databricks
  else if decide (source = "Databricks" ∧ target = "Azure SQL DB")
  then databricks_to_azure
  else [].

(** Lines 62-63: [mapping_dict.get(column_type.strip(), column_type)]. *)
Definition map_column_type (column_type : string) (mapping_dict : dict string)
  : string :=
  default column_type (dict_get (strip column_type) mapping_dict).

(** A row of the metadata frame of [run_script_generator_ui]: the four
    columns of the [DBC.ColumnsV] query and the added
    ['Mapped DataType']. *)
Record MetadataRow := {
  ColumnName : string;
  ColumnType : string;
  ColumnLength : Z;
  Nullable : string;
  MappedDataType : string
}.

(** Line 145: the ['Mapped DataType'] column. *)
Definition add_mapped_type (mapping_dict : dict string)
    (row : string * string * Z * string) : MetadataRow :=
  let '(name, type, len, nullable) := row in
  {| ColumnName := name; ColumnType := type; ColumnLength := len;
     Nullable := nullable;
     MappedDataType := map_column_type type mapping_dict |}.

Definition newline : string := String "010"%char EmptyString.

(** [s.lstrip(chars)] and [s.rstrip(chars)] for a set of characters. *)
Fixpoint lstrip_of (p : ascii → bool) (s : string) : string :=
  match s with
  | String c r => if p c then lstrip_of p r else s
  | EmptyString => EmptyString
  end.

Definition rstrip_of (p : ascii → bool) (s : string) : string :=
  String.rev (lstrip_of p (String.rev s)).

Definition is_comma (c : ascii) : bool := bool_decide (c = ","%char).

(** Line 70. *)
Definition nullable_clause (row : MetadataRow) : string :=
  if decide (Nullable row = "Y") then "NULL" else "NOT NULL".

(** Line 71: [f"  {col_name} {col_type} {nullable},"]. *)
Definition column_line (row : MetadataRow) : string :=
  "  " +:+ ColumnName row +:+ " " +:+ MappedDataType row +:+ " "
  +:+ nullable_clause row +:+ ",".

(** Lines 65-74.  The list of lines starts with the header, so its last
    element always exists. *)
Definition generate_ddl_script (metadata_df : list MetadataRow)
    (target_schema target_table : string) : string :=
  let ddl_lines :=
    ("CREATE TABLE " +:+ target_schema +:+ "." +:+ target_table +:+ " (")
      :: (column_line <$> metadata_df) in
  let i := length ddl_lines - 1 in
  let ddl_lines :=
    <[i := rstrip_of is_comma (default "" (ddl_lines !! i))]> ddl_lines in
  let ddl_lines := ddl_lines ++ [");"] in
  String.concat newline ddl_lines.

(** The column line without its separator, and the script as the
    header, the column texts separated by a comma and a line break, and
    the closing line. *)
Definition column_text (row : MetadataRow) : string :=
  "  " +:+ ColumnName row +:+ " " +:+ MappedDataType row +:+ " "
  +:+ nullable_clause row.

Definition ddl_layout (metadata_df : list MetadataRow)
    (target_schema target_table : string) : string :=
  "CREATE TABLE " +:+ target_schema +:+ "." +:+ target_table +:+ " ("
  +:+ newline +:+ String.concat ("," +:+ newline) (column_text <$> metadata_df)
  +:+ newline +:+ ");".

(** The entry of [d] that decides [invert d] at [v]: the last one whose
    value is [v]. *)
Definition last_key_of (v : string) (d : dict string) : option string :=
  fst <$> last (filter (λ kv, kv.2 = v) d).

End ScriptGenerator.

(** ** Credential store ([connector.py])

    [st.session_state] is a finite map from strings.  The connector
    writes two kinds of values into it: credential tokens (strings) and,
    per source type, the list of saved connection names; the keys of the
    rest of the application have other shapes and are left out.  The
    Fernet primitive is a parameter: [encrypt] stands for the token
    [fernet.encrypt] produces for a message, and [decrypt] is [None]
    where [fernet.decrypt] raises. *)

Module Connector.

Inductive SessionValue :=
| Token (t : string)
| Names (l : list string).

Record Cipher := {
  encrypt : string → string;
  decrypt : string → option string
}.

(** Lines 27-28. *)
Definition encrypt_credential (fernet : Cipher) (credential : string) : string :=
  encrypt fernet credential.

(** Lines 30-34: any exception gives the empty string; a value that is
    not a string has no [encode] and raises. *)
Definition decrypt_credential (fernet : Cipher) (encrypted : SessionValue)
  : string :=
  match encrypted with
  | Token t => default "" (decrypt fernet t)
  | Names _ => ""
  end.

(** [f"{source_type}_{conn_name}_{key}"] and [f"{source_type}_connections"]. *)
Definition credential_key (source_type conn_name key : string) : string :=
  source_type +:+ "_" +:+ conn_name +:+ "_" +:+ key.

Definition conn_list_key (source_type : string) : string :=
  source_type +:+ "_connections".

(** [needle in hay] on strings. *)
Definition contains (needle hay : string) : bool :=
  match String.index 0 needle hay with Some _ => true | None => false end.

(** Lines 37-44.  [None]: the call raises, which happens when the value
    under the list key is a string that does not contain [conn_name]
    (a string has no [append]). *)
Definition store_credentials (fernet : Cipher) (source_type conn_name : string)
    (kwargs : list (string * string)) (st : gmap string SessionValue)
  : option (gmap string SessionValue) :=
  let st :=
    foldl (λ st '(key, value),
             <[credential_key source_type conn_name key
               := Token (encrypt_credential fernet value)]> st)
          st kwargs in
  let st :=
    match st !! conn_list_key source_type with
    | None => <[conn_list_key source_type := Names []]> st
    | Some _ => st
    end in
  match st !! conn_list_key source_type with
  | Some (Names l) =>
      if decide (conn_name ∈ l) then Some st
      else Some (<[conn_list_key source_type := Names (l ++ [conn_name])]> st)
  | Some (Token t) => if contains conn_name t then Some st else None
  | None => None
  end.

(** Lines 47-51. *)
Definition get_credentials (fernet : Cipher) (source_type conn_name : string)
    (keys : list string) (st : gmap string SessionValue) : dict string :=
  foldl (λ acc key,
           dict_set key
             (decrypt_credential fernet
                (default (Token "")
                   (st !! credential_key source_type conn_name key)))
             acc)
        [] keys.

(** Lines 54-55. *)
Definition get_saved_connections (source_type : string)
    (st : gmap string SessionValue) : SessionValue :=
  default (Names []) (st !! conn_list_key source_type).

(** Lines 130-135 of [run_connector_ui]: the save button for Teradata;
    the second component is the message shown. *)
Definition save_teradata (fernet : Cipher) (conn_name host user password : string)
    (st : gmap string SessionValue)
  : option (gmap string SessionValue * string) :=
  if decide (host ≠ "" ∧ user ≠ "" ∧ password ≠ "" ∧ conn_name ≠ "") then
    match store_credentials fernet "teradata" conn_name
            [("host", host); ("user", user); ("password", password)] st with
    | Some st' =>
        Some (st', "Teradata credentials saved/updated as '" +:+ conn_name +:+ "'.")
    | None => None
    end
  else Some (st, "Please fill in all fields.").

(** A string without underscore. *)
Definition no_underscore (s : string) : Prop :=
  string_forall (λ c, negb (bool_decide (c = "_"%char))) s = true.

(** The value under the list key of [source_type] is a list of distinct
    names, or is not there yet. *)
Definition well_formed (source_type : string) (st : gmap string SessionValue)
  : Prop :=
  match st !! conn_list_key source_type with
  | Some (Names l) => NoDup l
  | Some (Token _) => False
  | None => True
  end.

(** A cipher for the examples: the token is the message behind a tag. *)
Definition sample_cipher : Cipher :=
  {| encrypt m := "gAAAA" +:+ m;
     decrypt t :=
       match t with
       | String "g" (String "A" (String "A" (String "A" (String "A" m)))) => Some m
       | _ => None
       end |}.

End Connector.

(** ** The resolver *)

Section Resolver.

(** Iteration order of the Python [set] built by adding the given
    distinct strings in that order: some rearrangement of them, fixed by
    the interpreter's string hashing. *)
Variable set_order : list string → list string.

Variable catalog : Catalog.

(** [dependencies.add(item)] on the insertion sequence of the set. *)
Definition set_add (item : string) (dependencies : list string) : list string :=
  if decide (item ∈ dependencies) then dependencies else dependencies ++ [item].

(** Lines 63-71. *)
Definition extract_dependencies (view_sql : string) : list string :=
  let matches := Re.findall view_sql in
  let dependencies :=
    foldl (λ deps '(g1, g2),
             foldl (λ deps item,
                      if decide (item = "") then deps
                      else set_add (strip item) deps)
                   deps [g1; g2])
          [] matches in
  set_order dependencies.

(** Lines 24-40. *)
Definition fetch_view_definition (view_name : string) (s : Session)
  : Run (option string) :=
  let s := emit (CallFetchView view_name) s in
  match view_query catalog view_name with
  | NoConnection e => Halts (st_error ("Failed to connect to Teradata: " +:+ e) s)
  | QueryRaises e =>
      Returns None (st_error ("Error fetching view definition: " +:+ e) s)
  | QueryRows (Some request_text) => Returns (Some request_text) s
  | QueryRows None => Returns None s
  end.

(** Lines 43-60. *)
Definition fetch_table_metadata (database_name table_name : string)
    (s : Session) : Run (option DataFrame) :=
  let s := emit (CallFetchTable database_name table_name) s in
  match columns_query catalog database_name table_name with
  | NoConnection e => Halts (st_error ("Failed to connect to Teradata: " +:+ e) s)
  | QueryRaises e =>
      Returns None
        (st_error ("Error fetching metadata for table " +:+ database_name
                   +:+ "." +:+ table_name +:+ ": " +:+ e) s)
  | QueryRows [] => Returns None s
  | QueryRows rows => Returns (Some rows) s
  end.

(** Lines 86-95: the [else] branch of [build_full_lineage]. *)
Definition resolve_as_table (view_name : string) (s : Session) : Run unit :=
  let '(db_name, tbl_name) := split_name view_name in
  match fetch_table_metadata db_name tbl_name s with
  | Halts s' => Halts s'
  | Returns metadata s' =>
      match metadata with
      | Some df =>
          if df_empty df then Returns tt s'
          else Returns tt (set_table_metadata view_name df s')
      | None => Returns tt s'
      end
  end.

(** Lines 74-95.  [None]: out of fuel. *)
Fixpoint build_full_lineage (fuel : nat) (view_name : string) (s : Session)
  : option (Run unit) :=
  match fuel with
  | O => None
  | S fuel' =>
      if decide (view_name ∈ visited s) then Some (Returns tt s)
      else
        match fetch_view_definition view_name (visit view_name s) with
        | Halts s' => Some (Halts s')
        | Returns view_sql s' =>
            match view_sql with
            | Some sql =>
                if decide (sql = "") then Some (resolve_as_table view_name s')
                else
                  for_each
                    (λ dep s, build_full_lineage fuel' dep
                                (graph_add_edge dep view_name s))
                    (extract_dependencies sql)
                    (set_ddl view_name sql s')
            | None => Some (resolve_as_table view_name s')
            end
        end
  end.

(** What [run_data_lineage_ui] shows after the build (lines 122-138). *)
Inductive Report :=
| Sections (view_definitions : list (string * string))
           (table_metadata : list (string * DataFrame))
| NoDefinitionsWarning.

Definition report (s : Session) : Report :=
  match ddl_dict s, table_metadata_dict s with
  | [], [] => NoDefinitionsWarning
  | _, _ =>
      Sections
        ((λ name, (name, default "" (dict_get name (ddl_dict s))))
           <$> reverse (dict_keys (ddl_dict s)))
        (table_metadata_dict s)
  end.

(** Lines 114-138.  The request is served when the button was pressed
    and [view_name] is not empty; otherwise nothing is built and nothing
    is rendered ([None] as the report). *)
Definition generate_lineage (fuel : nat) (generate_btn : bool)
    (view_name : string) : option (Run (option Report)) :=
  if generate_btn && bool_decide (view_name ≠ "") then
    match build_full_lineage fuel view_name fresh with
    | Some (Returns _ s) => Some (Returns (Some (report s)) s)
    | Some (Halts s) => Some (Halts s)
    | None => None
    end
  else Some (Returns None fresh).


(** ** Reading a run: classification of names and the big-step relation *)

(** What the two fetches of [build_full_lineage] say about a name, read
    off the catalog's answers. *)
Inductive Resolution :=
| AsView (view_sql : string)
| AsTable (metadata : DataFrame)
| Dangling
| Stops.

Definition table_resolution (view_name : string) : Resolution :=
  let '(db_name, tbl_name) := split_name view_name in
  match columns_query catalog db_name tbl_name with
  | NoConnection _ => Stops
  | QueryRaises _ => Dangling
  | QueryRows [] => Dangling
  | QueryRows rows => AsTable rows
  end.

Definition resolution (view_name : string) : Resolution :=
  match view_query catalog view_name with
  | NoConnection _ => Stops
  | QueryRaises _ => table_resolution view_name
  | QueryRows None => table_resolution view_name
  | QueryRows (Some sql) =>
      if decide (sql = "") then table_resolution view_name else AsView sql
  end.

(** The names in the order [fetch_view_definition] was called on them:
    the discovery order. *)
Definition fetched_views (l : list Event) : list string :=
  omap (λ e, match e with CallFetchView n => Some n | _ => None end) l.

Definition discovery (s : Session) : list string := fetched_views (log s).

Definition fetched_tables (l : list Event) : list (string * string) :=
  omap (λ e, match e with CallFetchTable d t => Some (d, t) | _ => None end) l.

Definition view_record (n : string) : option (string * string) :=
  match resolution n with AsView sql => Some (n, sql) | _ => None end.

Definition table_record (n : string) : option (string * DataFrame) :=
  match resolution n with AsTable df => Some (n, df) | _ => None end.

(** [d] is referenced by the definition of the view [n]. *)
Definition references (n d : string) : Prop :=
  ∃ sql, resolution n = AsView sql ∧ d ∈ extract_dependencies sql.

(** A set of names closed under [references]: what a finite catalog
    gives, see [finite_catalog_closed]. *)
Definition closed (U : gset string) : Prop :=
  ∀ n d, n ∈ U → references n d → d ∈ U.

(** The names of a finite catalog reachable in one step from its views
    [vs], with the root. *)
Definition universe (root : string) (vs : list string) : gset string :=
  list_to_set
    (root :: vs ++
       mjoin ((λ n, match resolution n with
                    | AsView sql => extract_dependencies sql
                    | _ => []
                    end) <$> vs)).

(** The names with an edge in the graph. *)
Definition endpoint (g : DiGraph) (n : string) : Prop :=
  ∃ m, (n, m) ∈ edges g ∨ (m, n) ∈ edges g.

(** Big-step reading of [build_full_lineage] and of its [for] loop. *)
Inductive resolve : string → Session → Run unit → Prop :=
| resolve_seen n s :
    n ∈ visited s → resolve n s (Returns tt s)
| resolve_stop n s s' :
    n ∉ visited s →
    fetch_view_definition n (visit n s) = Halts s' →
    resolve n s (Halts s')
| resolve_view n s s' sql r :
    n ∉ visited s →
    fetch_view_definition n (visit n s) = Returns (Some sql) s' →
    sql ≠ "" →
    resolve_deps n (extract_dependencies sql) (set_ddl n sql s') r →
    resolve n s r
| resolve_table n s s' view_sql :
    n ∉ visited s →
    fetch_view_definition n (visit n s) = Returns view_sql s' →
    view_sql = None ∨ view_sql = Some "" →
    resolve n s (resolve_as_table n s')
with resolve_deps : string → list string → Session → Run unit → Prop :=
| deps_done n s : resolve_deps n [] s (Returns tt s)
| deps_next n d ds s s' r :
    resolve d (graph_add_edge d n s) (Returns tt s') →
    resolve_deps n ds s' r →
    resolve_deps n (d :: ds) s r
| deps_stop n d ds s s' :
    resolve d (graph_add_edge d n s) (Halts s') →
    resolve_deps n (d :: ds) s (Halts s').

Scheme resolve_mut := Minimality for resolve Sort Prop
  with resolve_deps_mut := Minimality for resolve_deps Sort Prop.
Combined Scheme resolve_mutind from resolve_mut, resolve_deps_mut.

(** The events the resolution of one name emits by itself (those of its
    dependencies apart). *)
Definition table_events (n : string) : list Event :=
  let '(db_name, tbl_name) := split_name n in
  CallFetchTable db_name tbl_name ::
    match columns_query catalog db_name tbl_name with
    | NoConnection e => [StError ("Failed to connect to Teradata: " +:+ e)]
    | QueryRaises e =>
        [StError ("Error fetching metadata for table " +:+ db_name
                  +:+ "." +:+ tbl_name +:+ ": " +:+ e)]
    | QueryRows _ => []
    end.

Definition events_of (n : string) : list Event :=
  CallFetchView n ::
    match view_query catalog n with
    | NoConnection e => [StError ("Failed to connect to Teradata: " +:+ e)]
    | QueryRaises e =>
        StError ("Error fetching view definition: " +:+ e) :: table_events n
    | QueryRows None => table_events n
    | QueryRows (Some sql) => if decide (sql = "") then table_events n else []
    end.

(** The invariant of the session between two calls. *)
Record Inv (s : Session) : Prop := {
  inv_nodup : NoDup (discovery s);
  inv_log : log s = discovery s ≫= events_of;
  inv_visited : ∀ n, n ∈ visited s ↔ n ∈ discovery s;
  inv_ddl : ddl_dict s = omap view_record (discovery s);
  inv_tables : table_metadata_dict s = omap table_record (discovery s);
  inv_edges : ∀ d n, (d, n) ∈ edges (graph s) → n ∈ visited s ∧ references n d;
  inv_nodes : ∀ n, n ∈ nodes (graph s) ↔ endpoint (graph s) n
}.

(** A visited name has been dealt with in full: a view has its record,
    its dependencies are visited and their edges are in the graph. *)
Definition processed (s : Session) (n : string) : Prop :=
  ∀ d, references n d → d ∈ visited s ∧ (d, n) ∈ edges (graph s).

(** What a call leaves behind when the name is not resolved as a view:
    the name is visited, its own events are logged, and at most its
    table record is added. *)
Definition leaf_post (n : string) (s : Session) (r : Run unit) : Prop :=
  graph (run_state r) = graph s
  ∧ visited (run_state r) = {[n]} ∪ visited s
  ∧ ddl_dict (run_state r) = ddl_dict s
  ∧ table_metadata_dict (run_state r)
    = match resolution n with
      | AsTable df => dict_set n df (table_metadata_dict s)
      | _ => table_metadata_dict s
      end
  ∧ log (run_state r) = log s ++ events_of n
  ∧ view_record n = None
  ∧ (halted r = true ↔ resolution n = Stops).

(** A call keeps the invariant and only adds to the session. *)
Definition extends (s s' : Session) : Prop :=
  visited s ⊆ visited s'
  ∧ edges (graph s) ⊆ edges (graph s')
  ∧ ∃ ext, log s' = log s ++ ext.


(** Names reachable from [root] through references. *)
Definition reachable (root : string) : string → Prop := rtc references root.

(** The connection is available for every name of [U]. *)
Definition no_stops (U : gset string) : Prop :=
  ∀ m, m ∈ U → resolution m ≠ Stops.

(** Executable checks of [closed] and [no_stops]. *)
Definition closed_check (U : gset string) : bool :=
  forallb (λ n, match resolution n with
                | AsView sql =>
                    forallb (λ d, bool_decide (d ∈ U)) (extract_dependencies sql)
                | _ => true
                end) (elements U).

Definition no_stops_check (U : gset string) : bool :=
  forallb (λ n, match resolution n with Stops => false | _ => true end)
    (elements U).

(** [fetch_view_definition] gives nothing usable for [n]: [None], or an
    empty text. *)
Definition view_absent (n : string) : Prop :=
  ∀ s, ∃ v s', fetch_view_definition n s = Returns v s' ∧ (v = None ∨ v = Some "").

(** [fetch_table_metadata], called on the split of [n], returns [m]. *)
Definition table_returns (n : string) (m : option DataFrame) : Prop :=
  ∀ s, ∃ s',
    fetch_table_metadata (split_name n).1 (split_name n).2 s = Returns m s'.

(** The view query for [n] answered without a text, so that
    [build_full_lineage] goes on to the table lookup (line 86). *)
Definition falls_to_table (n : string) : bool :=
  match view_query catalog n with
  | NoConnection _ => false
  | QueryRaises _ => true
  | QueryRows None => true
  | QueryRows (Some sql) => bool_decide (sql = "")
  end.

(** The names listed by the two sections of the report. *)
Definition view_section (rep : Report) : list string :=
  match rep with
  | Sections views _ => views.*1
  | NoDefinitionsWarning => []
  end.

Definition table_section (rep : Report) : list string :=
  match rep with
  | Sections _ tables => tables.*1
  | NoDefinitionsWarning => []
  end.

(** ** From the function to the relation; fuel *)

Lemma for_each_resolve_deps fuel n ds s r :
  (∀ d s r, build_full_lineage fuel d s = Some r → resolve d s r) →
  for_each (λ dep s, build_full_lineage fuel dep (graph_add_edge dep n s)) ds s
    = Some r →
  resolve_deps n ds s r.
Proof.
  intros IH. revert s. induction ds as [|d ds IHds]; intros s H; simpl in H.
  - injection H as <-. constructor.
  - destruct (build_full_lineage fuel d (graph_add_edge d n s)) as [[[] s'|s']|]
      eqn:E; [|injection H as <-|discriminate].
    + eapply deps_next; eauto.
    + eapply deps_stop; eauto.
Qed.

Lemma build_resolve fuel n s r :
  build_full_lineage fuel n s = Some r → resolve n s r.
Proof.
  revert n s r. induction fuel as [|fuel IH]; intros n s r H; [discriminate|].
  simpl in H. destruct (decide (n ∈ visited s)) as [Hin|Hin].
  { injection H as <-. by constructor. }
  destruct (fetch_view_definition n (visit n s)) as [[sql|] s'|s'] eqn:E.
  - destruct (decide (sql = "")) as [->|Hne].
    + injection H as <-. eapply resolve_table; eauto.
    + eapply resolve_view; eauto. eapply for_each_resolve_deps; eauto.
  - injection H as <-. eapply resolve_table; eauto.
  - injection H as <-. by eapply resolve_stop.
Qed.

Lemma for_each_ext f g ds s r :
  (∀ d s r, f d s = Some r → g d s = Some r) →
  for_each f ds s = Some r → for_each g ds s = Some r.
Proof.
  intros Hfg. revert s. induction ds as [|d ds IH]; intros s H; simpl in *; [done|].
  destruct (f d s) as [[[] s'|s']|] eqn:E; [|injection H as <-|discriminate].
  - rewrite (Hfg _ _ _ E). auto.
  - by rewrite (Hfg _ _ _ E).
Qed.

Lemma build_fuel_mono fuel fuel' n s r :
  fuel ≤ fuel' →
  build_full_lineage fuel n s = Some r →
  build_full_lineage fuel' n s = Some r.
Proof.
  revert fuel' n s r. induction fuel as [|fuel IH]; intros fuel' n s r Hle H;
    [discriminate|].
  destruct fuel' as [|fuel']; [lia|]. simpl in *.
  destruct (decide (n ∈ visited s)); [done|].
  destruct (fetch_view_definition n (visit n s)) as [[sql|] s'|s']; try done.
  destruct (decide (sql = "")); [done|].
  eapply for_each_ext; [|exact H]. intros d s0 r0. apply IH. lia.
Qed.

(** ** Dictionaries and logs *)

Lemma dict_set_fresh {V} k (v : V) d :
  k ∉ dict_keys d → dict_set k v d = d ++ [(k, v)].
Proof.
  unfold dict_keys. induction d as [|[k' v'] d IH]; simpl; [done|].
  intros Hk. apply not_elem_of_cons in Hk as [Hne Hk].
  destruct (decide (k' = k)); [congruence|]. by rewrite IH.
Qed.

Lemma dict_get_elem_NoDup {V} k (v : V) d :
  NoDup (dict_keys d) → (k, v) ∈ d → dict_get k d = Some v.
Proof.
  unfold dict_keys. induction d as [|[k' v'] d IH]; simpl.
  - intros _ H. by apply elem_of_nil in H.
  - intros Hnd H. apply NoDup_cons in Hnd as [Hk' Hnd].
    apply elem_of_cons in H as [H|H].
    + injection H as -> ->. by rewrite decide_True.
    + destruct (decide (k' = k)) as [->|]; [|auto].
      exfalso. apply Hk'. apply list_elem_of_fmap. by exists (k, v).
Qed.

Lemma fetched_views_app l1 l2 :
  fetched_views (l1 ++ l2) = fetched_views l1 ++ fetched_views l2.
Proof. apply omap_app. Qed.

Lemma fetched_views_table_events n : fetched_views (table_events n) = [].
Proof.
  unfold table_events. destruct (split_name n) as [db t].
  by destruct (columns_query catalog db t).
Qed.

Lemma fetched_views_events_of n : fetched_views (events_of n) = [n].
Proof.
  unfold events_of. cbn. f_equal.
  destruct (view_query catalog n) as [e|e|[sql|]]; cbn;
    rewrite ?fetched_views_table_events; try done.
  destruct (decide (sql = "")); [apply fetched_views_table_events|done].
Qed.

Lemma omap_keys {V} (f : string → option (string * V)) l :
  (∀ n k v, f n = Some (k, v) → k = n) →
  dict_keys (omap f l) = filter (λ n, is_Some (f n)) l.
Proof.
  intros Hf. unfold dict_keys. induction l as [|n l IH]; [done|].
  rewrite filter_cons. cbn [omap list_omap].
  destruct (f n) as [[k v]|] eqn:E.
  - rewrite decide_True by eauto. cbn. rewrite IH. f_equal. eauto.
  - rewrite decide_False by (by intros [? ?]). exact IH.
Qed.

Lemma view_record_key n k v : view_record n = Some (k, v) → k = n.
Proof. unfold view_record. destruct (resolution n); congruence. Qed.

Lemma table_record_key n k v : table_record n = Some (k, v) → k = n.
Proof. unfold table_record. destruct (resolution n); congruence. Qed.

Lemma view_record_keys l :
  dict_keys (omap view_record l) = filter (λ n, is_Some (view_record n)) l.
Proof. apply omap_keys, view_record_key. Qed.

Lemma table_record_keys l :
  dict_keys (omap table_record l) = filter (λ n, is_Some (table_record n)) l.
Proof. apply omap_keys, table_record_key. Qed.

(** ** One call, without its recursive calls *)

Lemma view_entry n s s' sql :
  fetch_view_definition n s = Returns (Some sql) s' → sql ≠ "" →
  s' = emit (CallFetchView n) s ∧ resolution n = AsView sql
  ∧ events_of n = [CallFetchView n].
Proof.
  unfold fetch_view_definition, resolution, events_of. intros H Hne.
  destruct (view_query catalog n) as [e|e|[sql'|]]; try discriminate.
  injection H as -> <-. by destruct (decide (sql = "")).
Qed.

Lemma table_leaf n s s' :
  resolution n = table_resolution n →
  graph s' = graph s → visited s' = {[n]} ∪ visited s →
  ddl_dict s' = ddl_dict s → table_metadata_dict s' = table_metadata_dict s →
  ∀ l, log s' = l →
  let r := resolve_as_table n s' in
  graph (run_state r) = graph s
  ∧ visited (run_state r) = {[n]} ∪ visited s
  ∧ ddl_dict (run_state r) = ddl_dict s
  ∧ table_metadata_dict (run_state r)
    = match resolution n with
      | AsTable df => dict_set n df (table_metadata_dict s)
      | _ => table_metadata_dict s
      end
  ∧ log (run_state r) = l ++ table_events n
  ∧ view_record n = None
  ∧ (halted r = true ↔ resolution n = Stops).
Proof.
  intros Hres Hg Hv Hd Ht l Hl. unfold view_record. rewrite Hres.
  unfold resolve_as_table, table_resolution, table_events, fetch_table_metadata.
  destruct (split_name n) as [db t].
  destruct (columns_query catalog db t) as [e|e|[|row rows]]; cbn;
    rewrite ?Hg, ?Hv, ?Hd, ?Ht, ?Hl, <-?app_assoc; cbn;
    repeat split; try done.
Qed.

Lemma leaf_stop n s s' :
  fetch_view_definition n (visit n s) = Halts s' → leaf_post n s (Halts s').
Proof.
  unfold fetch_view_definition, leaf_post, view_record, resolution, events_of.
  destruct (view_query catalog n) as [e|e|[sql|]]; try discriminate.
  intros [= <-]. cbn. by rewrite <-app_assoc.
Qed.

Lemma emits_frame evs s0 :
  graph (foldl (λ s e, emit e s) s0 evs) = graph s0
  ∧ visited (foldl (λ s e, emit e s) s0 evs) = visited s0
  ∧ ddl_dict (foldl (λ s e, emit e s) s0 evs) = ddl_dict s0
  ∧ table_metadata_dict (foldl (λ s e, emit e s) s0 evs) = table_metadata_dict s0
  ∧ log (foldl (λ s e, emit e s) s0 evs) = log s0 ++ evs.
Proof.
  revert s0. induction evs as [|e evs IH]; intros s0; cbn.
  - by rewrite app_nil_r.
  - destruct (IH (emit e s0)) as (-> & -> & -> & -> & ->). cbn.
    by rewrite <-app_assoc.
Qed.

Lemma leaf_table n s s' view_sql :
  fetch_view_definition n (visit n s) = Returns view_sql s' →
  view_sql = None ∨ view_sql = Some "" →
  leaf_post n s (resolve_as_table n s').
Proof.
  intros H Hv. unfold leaf_post.
  assert (resolution n = table_resolution n
          ∧ ∃ evs, s' = foldl (λ s e, emit e s) (visit n s) (CallFetchView n :: evs)
                   ∧ events_of n = CallFetchView n :: evs ++ table_events n)
    as (Hres & evs & -> & Hev).
  { unfold fetch_view_definition, resolution, events_of in *.
    destruct (view_query catalog n) as [e|e|[sql|]]; try discriminate;
      injection H as <- <-.
    - split; [done|]. by eexists [_].
    - destruct Hv as [|[= ->]]; [done|]. split; [done|]. by exists [].
    - split; [done|]. by exists []. }
  rewrite Hev.
  cbn [foldl].
  destruct (emits_frame evs (emit (CallFetchView n) (visit n s))) as (Hg & Hvis & Hd & Ht & Hl).
  pose proof (table_leaf n s _ Hres Hg Hvis Hd Ht _ Hl) as Hleaf. cbn in Hleaf.
  destruct Hleaf as (? & ? & ? & ? & Hlog & ? & ?).
  repeat split; try done; try tauto.
  rewrite Hlog. cbn. by rewrite <-!app_assoc.
Qed.

(** ** The invariant *)

Lemma Inv_fresh : Inv fresh.
Proof.
  split; cbn; try done.
  - constructor.
  - intros n. split; intros H; [by apply not_elem_of_empty in H|by apply elem_of_nil in H].
  - intros n. split; [intros H; by apply not_elem_of_empty in H|].
    intros [m [H|H]]; by apply not_elem_of_empty in H.
Qed.

Lemma record_keys_fresh {V} (f : string → option (string * V)) l n :
  (∀ n k v, f n = Some (k, v) → k = n) →
  n ∉ l → n ∉ dict_keys (omap f l).
Proof.
  intros Hf Hn. rewrite omap_keys by done. intros H.
  by apply list_elem_of_filter in H as [_ H].
Qed.

Lemma Inv_leaf n s r :
  Inv s → n ∉ visited s → leaf_post n s r → Inv (run_state r).
Proof.
  intros [Hnd Hlog Hvis Hddl Htab Hedg Hnod] Hn (Hg & Hv & Hd & Ht & Hl & Hvr & _).
  assert (discovery (run_state r) = discovery s ++ [n]) as Hdisc.
  { unfold discovery. by rewrite Hl, fetched_views_app, fetched_views_events_of. }
  assert (n ∉ discovery s) as Hn' by (by rewrite <-Hvis).
  split; rewrite ?Hdisc, ?Hg; try done.
  - apply NoDup_app. split; [done|]. split; [|apply NoDup_singleton].
    intros x Hx ->%list_elem_of_singleton. done.
  - rewrite Hl, Hlog, bind_app. cbn. by rewrite app_nil_r.
  - intros x. rewrite Hv, elem_of_union, elem_of_singleton, elem_of_app,
      list_elem_of_singleton, Hvis. tauto.
  - rewrite Hd, Hddl, omap_app. cbn. by rewrite Hvr, app_nil_r.
  - rewrite Ht, Htab, omap_app. cbn [omap list_omap].
    change (table_record n) with
      (match resolution n with AsTable df => Some (n, df) | _ => None end).
    destruct (resolution n); cbn; rewrite ?app_nil_r; try done.
    apply dict_set_fresh, record_keys_fresh; [apply table_record_key|done].
  - intros d m Hdm. destruct (Hedg d m Hdm) as [Hm Href]. split; [|done].
    rewrite Hv. apply elem_of_union. by right.
Qed.

Lemma Inv_view_entry n s sql :
  Inv s → n ∉ visited s → resolution n = AsView sql →
  events_of n = [CallFetchView n] →
  Inv (set_ddl n sql (emit (CallFetchView n) (visit n s))).
Proof.
  intros [Hnd Hlog Hvis Hddl Htab Hedg Hnod] Hn Hres Hev.
  assert (n ∉ discovery s) as Hn' by (by rewrite <-Hvis).
  assert (discovery (set_ddl n sql (emit (CallFetchView n) (visit n s)))
          = discovery s ++ [n]) as Hdisc.
  { unfold discovery. cbn. by rewrite fetched_views_app. }
  split; rewrite ?Hdisc; cbn; try done.
  - apply NoDup_app. split; [done|]. split; [|apply NoDup_singleton].
    intros x Hx ->%list_elem_of_singleton. done.
  - rewrite Hlog, bind_app. f_equal. change ([CallFetchView n] = events_of n ++ []).
    by rewrite Hev.
  - intros x. rewrite elem_of_union, elem_of_singleton, elem_of_app,
      list_elem_of_singleton, Hvis. tauto.
  - rewrite Hddl, omap_app. cbn [omap list_omap].
    change (view_record n) with
      (match resolution n with AsView q => Some (n, q) | _ => None end).
    rewrite Hres. cbn.
    apply dict_set_fresh, record_keys_fresh; [apply view_record_key|done].
  - rewrite Htab, omap_app. cbn [omap list_omap].
    change (table_record n) with
      (match resolution n with AsTable df => Some (n, df) | _ => None end).
    rewrite Hres. cbn. by rewrite app_nil_r.
  - intros d m Hdm. destruct (Hedg d m Hdm) as [Hm Href]. split; [|done].
    apply elem_of_union. by right.
Qed.

Lemma Inv_add_edge d n s :
  Inv s → n ∈ visited s → references n d → Inv (graph_add_edge d n s).
Proof.
  intros [Hnd Hlog Hvis Hddl Htab Hedg Hnod] Hn Href.
  split; cbn; try done.
  - intros d' n' [H|H]%elem_of_union; [by apply Hedg|].
    apply elem_of_singleton in H as [= -> ->]. done.
  - intros x. rewrite !elem_of_union, !elem_of_singleton, Hnod.
    unfold endpoint; cbn. split.
    + intros [[[m [H|H]]| ->]| ->].
      * exists m. left. apply elem_of_union. by left.
      * exists m. right. apply elem_of_union. by left.
      * exists n. left. apply elem_of_union. right. by apply elem_of_singleton.
      * exists d. right. apply elem_of_union. right. by apply elem_of_singleton.
    + intros [m [H|H]]; apply elem_of_union in H as [H|H].
      * left. left. exists m. by left.
      * apply elem_of_singleton in H as [= -> ->]. left. by right.
      * left. left. exists m. by right.
      * apply elem_of_singleton in H as [= -> ->]. by right.
Qed.

Lemma extends_refl s : extends s s.
Proof. split; [done|]. split; [done|]. exists []. by rewrite app_nil_r. Qed.

Lemma extends_trans s1 s2 s3 : extends s1 s2 → extends s2 s3 → extends s1 s3.
Proof.
  intros (Hv1 & He1 & ext1 & Hl1) (Hv2 & He2 & ext2 & Hl2).
  split; [by trans (visited s2)|]. split; [by trans (edges (graph s2))|].
  exists (ext1 ++ ext2). by rewrite Hl2, Hl1, app_assoc.
Qed.

Lemma extends_leaf n s r : leaf_post n s r → extends s (run_state r).
Proof.
  intros (Hg & Hv & _ & _ & Hl & _). split; [|split].
  - rewrite Hv. apply union_subseteq_r.
  - by rewrite Hg.
  - by exists (events_of n).
Qed.

Lemma extends_view_entry n sql s :
  extends s (set_ddl n sql (emit (CallFetchView n) (visit n s))).
Proof.
  split; [|split]; cbn; [apply union_subseteq_r|done|by eexists].
Qed.

Lemma extends_add_edge d n s : extends s (graph_add_edge d n s).
Proof.
  split; [|split]; cbn; [done|apply union_subseteq_l|].
  exists []. by rewrite app_nil_r.
Qed.

(** Every call keeps the invariant and only adds to the session. *)
Lemma resolve_sound :
  (∀ n s r, resolve n s r →
     Inv s → Inv (run_state r) ∧ extends s (run_state r))
  ∧ (∀ n ds s r, resolve_deps n ds s r →
       Inv s → n ∈ visited s → (∀ d, d ∈ ds → references n d) →
       Inv (run_state r) ∧ extends s (run_state r)).
Proof.
  apply resolve_mutind.
  - intros n s _ HI. split; [done|apply extends_refl].
  - intros n s s' Hn Hf HI. apply leaf_stop in Hf.
    split; [by eapply (Inv_leaf n s (Halts s'))|by apply (extends_leaf n s (Halts s'))].
  - intros n s s' sql r Hn Hf Hne _ IH HI.
    apply view_entry in Hf as (-> & Hres & Hev); [|done].
    destruct IH as [HI' Hext].
    + by apply Inv_view_entry.
    + cbn. apply elem_of_union. left. by apply elem_of_singleton.
    + intros d Hd. by exists sql.
    + split; [done|]. eapply extends_trans; [apply extends_view_entry|done].
  - intros n s s' ov Hn Hf Hov HI. eapply leaf_table in Hf; [|done].
    split; [by eapply Inv_leaf|by eapply extends_leaf].
  - intros n s HI _ _. split; [done|apply extends_refl].
  - intros n d ds s s' r _ IH1 _ IH2 HI Hn Hds.
    destruct IH1 as [HI1 Hext1].
    { apply Inv_add_edge; [done..|]. apply Hds. left. }
    cbn in HI1, Hext1. destruct IH2 as [HI2 Hext2]; [done| | |].
    + destruct Hext1 as [Hv _]. by apply Hv.
    + intros d' Hd'. apply Hds. by right.
    + split; [done|].
      eapply extends_trans; [apply extends_add_edge|]. by eapply extends_trans.
  - intros n d ds s s' _ IH HI Hn Hds.
    destruct IH as [HI1 Hext1].
    { apply Inv_add_edge; [done..|]. apply Hds. left. }
    split; [done|]. eapply extends_trans; [apply extends_add_edge|done].
Qed.

(** ** Completeness of the traversal *)

Lemma processed_extends s s' m : processed s m → extends s s' → processed s' m.
Proof.
  intros Hp (Hv & He & _) d Hd. destruct (Hp d Hd) as [H1 H2].
  split; [by apply Hv|by apply He].
Qed.

Lemma references_inj n sql d :
  resolution n = AsView sql → references n d → d ∈ extract_dependencies sql.
Proof. intros Hres (sql' & Hres' & Hd). congruence. Qed.

(** When a call returns, its name is visited and every name visited
    during the call is processed. *)
Lemma resolve_complete :
  (∀ n s r, resolve n s r → Inv s → ∀ s', r = Returns tt s' →
     n ∈ visited s'
     ∧ ∀ m, m ∈ visited s' → m ∉ visited s → processed s' m)
  ∧ (∀ n ds s r, resolve_deps n ds s r →
       Inv s → n ∈ visited s → (∀ d, d ∈ ds → references n d) →
       ∀ s', r = Returns tt s' →
       (∀ d, d ∈ ds → d ∈ visited s' ∧ (d, n) ∈ edges (graph s'))
       ∧ ∀ m, m ∈ visited s' → m ∉ visited s → processed s' m).
Proof.
  apply resolve_mutind.
  - intros n s Hn HI s' [= <-]. split; [done|]. intros m Hm Hm'. done.
  - intros n s s' Hn Hf HI s'' [=].
  - intros n s s1 sql r Hn Hf Hne Hdeps IH HI s' ->.
    apply view_entry in Hf as (-> & Hres & Hev); [|done].
    destruct (IH (Inv_view_entry _ _ _ HI Hn Hres Hev)) with (s' := s')
      as [Hds Hnew]; [| |done|].
    { cbn. apply elem_of_union. left. by apply elem_of_singleton. }
    { intros d Hd. by exists sql. }
    destruct (proj2 resolve_sound _ _ _ _ Hdeps) as [_ (Hv & _)].
    { by apply Inv_view_entry. }
    { cbn. apply elem_of_union. left. by apply elem_of_singleton. }
    { intros d Hd. by exists sql. }
    split.
    + apply Hv. cbn. apply elem_of_union. left. by apply elem_of_singleton.
    + intros m Hm Hm'. destruct (decide (m = n)) as [->|Hmn].
      * intros d Hd. apply Hds. by eapply references_inj.
      * apply Hnew; [done|]. cbn. intros [H|H]%elem_of_union; [|done].
        by apply elem_of_singleton in H.
  - intros n s s1 ov Hn Hf Hov HI s' Hr.
    eapply leaf_table in Hf as (_ & Hv & _ & _ & _ & Hvr & _); [|done].
    rewrite Hr in Hv. cbn in Hv. split.
    + rewrite Hv. apply elem_of_union. left. by apply elem_of_singleton.
    + intros m Hm Hm'. rewrite Hv in Hm.
      apply elem_of_union in Hm as [->%elem_of_singleton|]; [|done].
      intros d (sql & Hres & _). unfold view_record in Hvr. by rewrite Hres in Hvr.
  - intros n s HI _ _ s' [= <-]. split; [|done].
    intros d Hd. by apply elem_of_nil in Hd.
  - intros n d ds s s1 r Hd IH1 Hds IH2 HI Hn Href s' ->.
    assert (Inv (graph_add_edge d n s)) as HIe.
    { apply Inv_add_edge; [done..|]. apply Href. left. }
    destruct (proj1 resolve_sound _ _ _ Hd HIe) as [HI1 Hext1]. cbn in HI1, Hext1.
    assert (n ∈ visited s1) as Hn1 by (by apply Hext1).
    assert (∀ d', d' ∈ ds → references n d') as Href' by (intros; apply Href; by right).
    destruct (proj2 resolve_sound _ _ _ _ Hds HI1 Hn1 Href') as [HI2 Hext2].
    cbn in HI2, Hext2.
    destruct (IH1 HIe s1 eq_refl) as [Hd1 Hnew1].
    destruct (IH2 HI1 Hn1 Href' s' eq_refl) as [Hds2 Hnew2].
    split.
    + intros d' [->|Hd']%elem_of_cons; [|by apply Hds2]. split.
      * by apply Hext2.
      * apply Hext2, Hext1. cbn. apply elem_of_union. right.
        by apply elem_of_singleton.
    + intros m Hm Hm'. destruct (decide (m ∈ visited s1)) as [Hm1|Hm1].
      * eapply processed_extends; [|exact Hext2]. by apply Hnew1.
      * by apply Hnew2.
  - intros n d ds s s1 _ _ _ _ _ s' [=].
Qed.

(** ** The traversal stays within any closed set of names *)

Lemma resolve_within (P : string → Prop) :
  (∀ n d, P n → references n d → P d) →
  (∀ n s r, resolve n s r → P n →
     (∀ m, m ∈ visited (run_state r) → m ∈ visited s ∨ P m)
     ∧ ((∀ m, P m → resolution m ≠ Stops) → halted r = false))
  ∧ (∀ n ds s r, resolve_deps n ds s r → (∀ d, d ∈ ds → P d) →
       (∀ m, m ∈ visited (run_state r) → m ∈ visited s ∨ P m)
       ∧ ((∀ m, P m → resolution m ≠ Stops) → halted r = false)).
Proof.
  intros Hcl.
  assert (∀ n s r, leaf_post n s r → P n →
            (∀ m, m ∈ visited (run_state r) → m ∈ visited s ∨ P m)
            ∧ ((∀ m, P m → resolution m ≠ Stops) → halted r = false)) as Hleaf.
  { intros n s r (_ & Hv & _ & _ & _ & _ & Hh) HP. split.
    - intros m. rewrite Hv. intros [->%elem_of_singleton|]%elem_of_union; auto.
    - intros Hno. destruct (halted r); [|done]. exfalso.
      apply (Hno n HP). by apply Hh. }
  apply resolve_mutind.
  - intros n s _ _. cbn. auto.
  - intros n s s' _ Hf HP. apply (Hleaf n s (Halts s')); [by apply leaf_stop|done].
  - intros n s s1 sql r _ Hf Hne _ IH HP.
    apply view_entry in Hf as (-> & Hres & _); [|done].
    destruct IH as [IHv IHh].
    { intros d Hd. apply (Hcl n); [done|]. by exists sql. }
    split; [|done]. intros m Hm. destruct (IHv m Hm) as [H|H]; [|by right].
    cbn in H. apply elem_of_union in H as [->%elem_of_singleton|]; auto.
  - intros n s s1 ov _ Hf Hov HP. apply (Hleaf n s); [by eapply leaf_table|done].
  - intros n s _. cbn. auto.
  - intros n d ds s s1 r _ IH1 _ IH2 Hds.
    destruct IH1 as [IH1 _]; [apply Hds; left|].
    destruct IH2 as [IH2 IHh]; [intros; apply Hds; by right|].
    split; [|done]. intros m Hm. destruct (IH2 m Hm) as [H|H]; [|by right].
    apply (IH1 m H).
  - intros n d ds s s1 _ IH Hds. apply IH, Hds. left.
Qed.

(** ** Termination *)

Lemma size_unvisited (U V : gset string) n :
  n ∈ U → n ∉ V → size (U ∖ ({[n]} ∪ V)) < size (U ∖ V).
Proof.
  intros HU HV. apply subset_size. split.
  - intros x [Hx Hx']%elem_of_difference. apply elem_of_difference.
    split; [done|]. intros ?. apply Hx', elem_of_union. by right.
  - intros Hsub. assert (n ∈ U ∖ ({[n]} ∪ V)) as Hn.
    { apply Hsub, elem_of_difference. done. }
    apply elem_of_difference in Hn as [_ Hn]. apply Hn, elem_of_union. left.
    by apply elem_of_singleton.
Qed.

Lemma size_visited_mono (U V V' : gset string) :
  V ⊆ V' → size (U ∖ V') ≤ size (U ∖ V).
Proof.
  intros HV. apply subseteq_size. intros x [Hx Hx']%elem_of_difference.
  apply elem_of_difference. split; [done|]. intros ?. by apply Hx', HV.
Qed.

Lemma for_each_terminates (U : gset string) fuel n :
  (∀ d s, d ∈ U → Inv s → size (U ∖ visited s) < fuel →
     ∃ r, build_full_lineage fuel d s = Some r) →
  ∀ ds s, Inv s → n ∈ visited s →
    (∀ d, d ∈ ds → references n d ∧ d ∈ U) →
    size (U ∖ visited s) < fuel →
    ∃ r, for_each (λ dep s, build_full_lineage fuel dep (graph_add_edge dep n s))
           ds s = Some r.
Proof.
  intros IH ds. induction ds as [|d ds IHds]; intros s HI Hn Hds Hsz; cbn.
  - by eexists.
  - destruct (Hds d) as [Href HdU]; [left|].
    assert (Inv (graph_add_edge d n s)) as HIe by (by apply Inv_add_edge).
    destruct (IH d (graph_add_edge d n s) HdU HIe Hsz) as [r1 Hr1].
    rewrite Hr1. destruct r1 as [[] s1|s1]; [|by eexists].
    destruct (proj1 resolve_sound _ _ _ (build_resolve _ _ _ _ Hr1) HIe)
      as [HI1 (Hv & _)]. cbn in HI1, Hv.
    apply IHds; [done|by apply Hv|intros; apply Hds; by right|].
    eapply Nat.le_lt_trans; [by apply size_visited_mono|done].
Qed.

(** With one unit of fuel per name still to visit (and one more), the
    builder gives a result. *)
Lemma build_terminates (U : gset string) :
  closed U →
  ∀ fuel n s, n ∈ U → Inv s → size (U ∖ visited s) < fuel →
    ∃ r, build_full_lineage fuel n s = Some r.
Proof.
  intros Hcl fuel. induction fuel as [|fuel IH]; intros n s HU HI Hsz; [lia|].
  cbn. destruct (decide (n ∈ visited s)) as [|Hn]; [by eexists|].
  destruct (fetch_view_definition n (visit n s)) as [[sql|] s1|s1] eqn:Hf;
    [|by eexists..].
  destruct (decide (sql = "")) as [|Hne]; [by eexists|].
  apply view_entry in Hf as (-> & Hres & Hev); [|done].
  apply (for_each_terminates U); [done| | | |].
  - by apply Inv_view_entry.
  - cbn. apply elem_of_union. left. by apply elem_of_singleton.
  - intros d Hd. assert (references n d) as Href by (by exists sql).
    split; [done|]. by apply (Hcl n).
  - cbn. pose proof (size_unvisited U (visited s) n HU Hn). lia.
Qed.

(** ** Halting *)

(** A call stops the script exactly when it meets a name for which the
    connection cannot be opened. *)
Lemma resolve_halts :
  (∀ n s r, resolve n s r → Inv s →
     (halted r = true →
        ∃ m, m ∈ visited (run_state r) ∧ (m ∉ visited s) ∧ resolution m = Stops)
     ∧ (halted r = false →
          ∀ m, m ∈ visited (run_state r) → m ∉ visited s → resolution m ≠ Stops))
  ∧ (∀ n ds s r, resolve_deps n ds s r →
       Inv s → n ∈ visited s → (∀ d, d ∈ ds → references n d) →
       (halted r = true →
          ∃ m, m ∈ visited (run_state r) ∧ (m ∉ visited s) ∧ resolution m = Stops)
       ∧ (halted r = false →
            ∀ m, m ∈ visited (run_state r) → m ∉ visited s → resolution m ≠ Stops)).
Proof.
  assert (∀ n s r, n ∉ visited s → leaf_post n s r →
     (halted r = true →
        ∃ m, m ∈ visited (run_state r) ∧ (m ∉ visited s) ∧ resolution m = Stops)
     ∧ (halted r = false →
          ∀ m, m ∈ visited (run_state r) → m ∉ visited s → resolution m ≠ Stops))
    as Hleaf.
  { intros n s r Hn (_ & Hv & _ & _ & _ & _ & Hh). split.
    - intros Hr. exists n. split; [|split; [done|by apply Hh]].
      rewrite Hv. apply elem_of_union. left. by apply elem_of_singleton.
    - intros Hr m Hm Hm'. rewrite Hv in Hm.
      apply elem_of_union in Hm as [->%elem_of_singleton|]; [|done].
      intros Hs. apply Hh in Hs. congruence. }
  apply resolve_mutind.
  - intros n s Hn HI. cbn. split; [done|]. intros _ m Hm Hm'. done.
  - intros n s s' Hn Hf HI. apply (Hleaf n s (Halts s')); [done|by apply leaf_stop].
  - intros n s s1 sql r Hn Hf Hne Hdeps IH HI.
    apply view_entry in Hf as (-> & Hres & Hev); [|done].
    destruct IH as [IHt IHf].
    { by apply Inv_view_entry. }
    { cbn. apply elem_of_union. left. by apply elem_of_singleton. }
    { intros d Hd. by exists sql. }
    cbn in IHt, IHf. split.
    + intros Hr. destruct (IHt Hr) as (m & Hm & Hm' & Hs). exists m.
      split; [done|]. split; [|done]. intros ?. apply Hm', elem_of_union. by right.
    + intros Hr m Hm Hm'. destruct (decide (m = n)) as [->|Hmn]; [congruence|].
      apply IHf; [done..|]. intros [?%elem_of_singleton|]%elem_of_union; done.
  - intros n s s1 ov Hn Hf Hov HI. apply (Hleaf n s); [done|by eapply leaf_table].
  - intros n s HI _ _. cbn. split; [done|]. intros _ m Hm Hm'. done.
  - intros n d ds s s1 r Hd IH1 Hds IH2 HI Hn Href.
    assert (Inv (graph_add_edge d n s)) as HIe.
    { apply Inv_add_edge; [done..|]. apply Href. left. }
    destruct (proj1 resolve_sound _ _ _ Hd HIe) as [HI1 Hext1]. cbn in HI1, Hext1.
    assert (n ∈ visited s1) as Hn1 by (by apply Hext1).
    assert (∀ d', d' ∈ ds → references n d') as Href' by (intros; apply Href; by right).
    destruct (IH1 HIe) as [_ IH1f]. destruct (IH2 HI1 Hn1 Href') as [IH2t IH2f].
    cbn in IH1f. split.
    + intros Hr. destruct (IH2t Hr) as (m & Hm & Hm' & Hs). exists m.
      split; [done|]. split; [|done]. intros ?. by apply Hm', Hext1.
    + intros Hr m Hm Hm'. destruct (decide (m ∈ visited s1)); [by apply IH1f|].
      by apply IH2f.
  - intros n d ds s s1 Hd IH HI Hn Href.
    assert (Inv (graph_add_edge d n s)) as HIe.
    { apply Inv_add_edge; [done..|]. apply Href. left. }
    destruct (IH HIe) as [IHt _]. cbn in *. split; [|done]. done.
Qed.

(** ** A whole request *)

Lemma closed_check_correct U : closed_check U = true → closed U.
Proof.
  unfold closed_check. rewrite forallb_forall. intros H n d Hn (sql & Hres & Hd).
  specialize (H n). rewrite Hres in H.
  assert (forallb (λ d, bool_decide (d ∈ U)) (extract_dependencies sql) = true) as H'.
  { apply H. apply list_elem_of_In. by apply elem_of_elements. }
  rewrite forallb_forall in H'. specialize (H' d).
  eapply bool_decide_eq_true_1, H'. by apply list_elem_of_In.
Qed.

Lemma no_stops_check_correct U : no_stops_check U = true → no_stops U.
Proof.
  unfold no_stops_check. rewrite forallb_forall. intros H m Hm Hs.
  specialize (H m). rewrite Hs in H. discriminate H.
  by apply list_elem_of_In, elem_of_elements.
Qed.

(** A catalog whose views are among the finitely many [vs] has a closed
    set of names around any root. *)
Lemma finite_catalog_closed root vs :
  (∀ n sql, resolution n = AsView sql → n ∈ vs) →
  closed (universe root vs) ∧ root ∈ universe root vs.
Proof.
  intros Hvs. unfold universe. split.
  - intros n d _ (sql & Hres & Hd). apply elem_of_list_to_set.
    right. apply elem_of_app. right. apply list_elem_of_join.
    exists (extract_dependencies sql). split; [done|].
    apply list_elem_of_fmap. exists n. rewrite Hres. split; [done|]. by eapply Hvs.
  - apply elem_of_list_to_set. left.
Qed.

(** Enough fuel gives the result of the request, and this result is one
    of the big-step relation. *)
Lemma lineage_result U root :
  closed U → root ∈ U →
  ∃ r, (∀ fuel, size U < fuel → build_full_lineage fuel root fresh = Some r)
       ∧ resolve root fresh r.
Proof.
  intros Hcl Hroot.
  destruct (build_terminates U Hcl (S (size U)) root fresh Hroot Inv_fresh) as [r Hr].
  { cbn. pose proof (size_visited_mono U ∅ ∅). rewrite difference_empty_L. lia. }
  exists r. split; [|by eapply build_resolve].
  intros fuel Hfuel. eapply build_fuel_mono; [|done]. lia.
Qed.

Lemma visited_reachable root r m :
  resolve root fresh r → m ∈ visited (run_state r) → reachable root m.
Proof.
  intros Hr Hm.
  destruct (proj1 (resolve_within (reachable root)
              (λ n d Hn Hd, rtc_r _ _ _ Hn Hd)) _ _ _ Hr) as [Hv _];
    [apply rtc_refl|].
  destruct (Hv m Hm) as [H|H]; [by apply not_elem_of_empty in H|done].
Qed.

Lemma reachable_visited root s m :
  resolve root fresh (Returns tt s) → reachable root m → m ∈ visited s.
Proof.
  intros Hr Hm.
  destruct (proj1 resolve_complete _ _ _ Hr Inv_fresh s eq_refl) as [Hroot Hproc].
  apply (rtc_ind_r (R := references) (λ m, m ∈ visited s) root); [done| |exact Hm].
  intros m2 m3 _ H23 IH. apply (Hproc m2 IH); [apply not_elem_of_empty|done].
Qed.

(** ** What the records hold *)

Lemma omap_elem {V} (f : string → option (string * V)) (l : list string) n v :
  n ∈ l → f n = Some (n, v) → (n, v) ∈ omap f l.
Proof. intros Hn Hf. apply list_elem_of_omap. by exists n. Qed.

Lemma omap_keys_NoDup {V} (f : string → option (string * V)) (l : list string) :
  (∀ n k v, f n = Some (k, v) → k = n) →
  NoDup l → NoDup (dict_keys (omap f l)).
Proof. intros Hf Hl. rewrite omap_keys by done. by apply NoDup_filter. Qed.

Lemma Inv_ddl_keys s n :
  Inv s →
  n ∈ dict_keys (ddl_dict s) ↔ n ∈ visited s ∧ ∃ sql, resolution n = AsView sql.
Proof.
  intros HI. rewrite (inv_ddl s HI), view_record_keys, list_elem_of_filter,
    (inv_visited s HI). unfold view_record. split.
  - intros [[x Hx] Hn]. split; [done|]. destruct (resolution n); try done. by eexists.
  - intros [Hn [sql Hres]]. rewrite Hres. split; [by eexists|done].
Qed.

Lemma Inv_table_keys s n :
  Inv s →
  n ∈ dict_keys (table_metadata_dict s)
  ↔ n ∈ visited s ∧ ∃ df, resolution n = AsTable df.
Proof.
  intros HI. rewrite (inv_tables s HI), table_record_keys, list_elem_of_filter,
    (inv_visited s HI). unfold table_record. split.
  - intros [[x Hx] Hn]. split; [done|]. destruct (resolution n); try done. by eexists.
  - intros [Hn [sql Hres]]. rewrite Hres. split; [by eexists|done].
Qed.

Lemma Inv_ddl_NoDup s : Inv s → NoDup (dict_keys (ddl_dict s)).
Proof.
  intros HI. rewrite (inv_ddl s HI).
  apply omap_keys_NoDup; [apply view_record_key|apply (inv_nodup s HI)].
Qed.

Lemma Inv_table_NoDup s : Inv s → NoDup (dict_keys (table_metadata_dict s)).
Proof.
  intros HI. rewrite (inv_tables s HI).
  apply omap_keys_NoDup; [apply table_record_key|apply (inv_nodup s HI)].
Qed.

Lemma Inv_ddl_get s n sql :
  Inv s → n ∈ visited s → resolution n = AsView sql →
  dict_get n (ddl_dict s) = Some sql.
Proof.
  intros HI Hn Hres. apply dict_get_elem_NoDup; [by apply Inv_ddl_NoDup|].
  rewrite (inv_ddl s HI). apply omap_elem; [by apply (inv_visited s HI)|].
  unfold view_record. by rewrite Hres.
Qed.

Lemma Inv_table_get s n df :
  Inv s → n ∈ visited s → resolution n = AsTable df →
  dict_get n (table_metadata_dict s) = Some df.
Proof.
  intros HI Hn Hres. apply dict_get_elem_NoDup; [by apply Inv_table_NoDup|].
  rewrite (inv_tables s HI). apply omap_elem; [by apply (inv_visited s HI)|].
  unfold table_record. by rewrite Hres.
Qed.

Lemma dict_get_set {V} k (v : V) d : dict_get k (dict_set k v d) = Some v.
Proof.
  induction d as [|[k' v'] d IH]; cbn.
  - by rewrite decide_True.
  - destruct (decide (k' = k)) as [->|Hne]; cbn.
    + by rewrite decide_True.
    + by rewrite decide_False.
Qed.

(** Any result of a request comes with the invariant. *)
Lemma build_Inv fuel root r :
  build_full_lineage fuel root fresh = Some r → Inv (run_state r).
Proof.
  intros H. apply build_resolve in H.
  by destruct (proj1 resolve_sound _ _ _ H Inv_fresh).
Qed.

(** ** The fetchers and the classification of a name *)

Lemma view_absent_resolution n :
  view_absent n → resolution n = table_resolution n.
Proof.
  intros H. destruct (H fresh) as (v & s' & Hf & Hv).
  unfold fetch_view_definition, resolution in *.
  destruct (view_query catalog n) as [e|e|[sql|]]; try done.
  injection Hf as <- _. destruct Hv as [|[= ->]]; done.
Qed.

Lemma table_returns_Some n cols :
  table_returns n (Some cols) → table_resolution n = AsTable cols.
Proof.
  intros H. destruct (H fresh) as (s' & Hf).
  unfold fetch_table_metadata, table_resolution in *.
  destruct (split_name n) as [db t]. cbn in Hf.
  destruct (columns_query catalog db t) as [e|e|[|row rows]]; try done.
  by injection Hf as <- _.
Qed.

Lemma table_returns_None n :
  table_returns n None → table_resolution n = Dangling.
Proof.
  intros H. destruct (H fresh) as (s' & Hf).
  unfold fetch_table_metadata, table_resolution in *.
  destruct (split_name n) as [db t]. cbn in Hf.
  by destruct (columns_query catalog db t) as [e|e|[|row rows]].
Qed.

(** The classification says what the fetchers do. *)
Lemma resolution_AsView n sql :
  resolution n = AsView sql
  ↔ sql ≠ ""
    ∧ ∀ s, fetch_view_definition n s
           = Returns (Some sql) (emit (CallFetchView n) s).
Proof.
  unfold resolution, table_resolution, fetch_view_definition. split.
  - destruct (view_query catalog n) as [?|?|[q|]], (split_name n) as [db t];
      destruct (columns_query catalog db t) as [?|?|[|??]]; try done;
      destruct (decide (q = "")); try done; by intros [= ->].
  - intros [Hne H]. specialize (H fresh).
    destruct (view_query catalog n) as [?|?|[q|]]; try done.
    injection H as ->. by rewrite decide_False.
Qed.

Lemma resolution_Stops n :
  resolution n = Stops
  ↔ (∃ s', fetch_view_definition n fresh = Halts s')
    ∨ (view_absent n
       ∧ ∃ s', fetch_table_metadata (split_name n).1 (split_name n).2 fresh
               = Halts s').
Proof.
  split.
  - unfold resolution, table_resolution, view_absent, fetch_view_definition,
      fetch_table_metadata.
    destruct (view_query catalog n) as [?|?|[q|]]; [left; by eexists|..];
      destruct (split_name n) as [db t]; cbn;
      destruct (columns_query catalog db t) as [?|?|[|??]]; try done;
      try (destruct (decide (q = "")) as [->|]; try done);
      intros _; right; (split; [intros s; eexists _, _; split; [done|auto]
                               |by eexists]).
  - intros [[s' H]|[Hv [s' H]]].
    + unfold resolution, fetch_view_definition in *.
      by destruct (view_query catalog n) as [?|?|[q|]].
    + rewrite view_absent_resolution by done.
      unfold table_resolution, fetch_table_metadata in *.
      destruct (split_name n) as [db t]. cbn in H.
      by destruct (columns_query catalog db t) as [?|?|[|??]].
Qed.

Lemma fetched_tables_app l1 l2 :
  fetched_tables (l1 ++ l2) = fetched_tables l1 ++ fetched_tables l2.
Proof. apply omap_app. Qed.

Lemma fetched_tables_table_events n : fetched_tables (table_events n) = [split_name n].
Proof.
  unfold table_events. destruct (split_name n) as [db t].
  by destruct (columns_query catalog db t).
Qed.

Lemma fetched_tables_events_of n :
  view_absent n → fetched_tables (events_of n) = [split_name n].
Proof.
  intros H. destruct (H fresh) as (v & s' & Hf & Hv).
  unfold fetch_view_definition, events_of in *.
  destruct (view_query catalog n) as [e|e|[sql|]]; try done; cbn;
    try apply fetched_tables_table_events.
  injection Hf as <- _. destruct Hv as [|[= ->]]; [done|].
  apply fetched_tables_table_events.
Qed.

(** The call on a name that is not visited and has no view definition. *)
Lemma build_leaf fuel n s :
  n ∉ visited s → view_absent n →
  ∃ r, build_full_lineage (S fuel) n s = Some r ∧ leaf_post n s r.
Proof.
  intros Hn Hv. destruct (Hv (visit n s)) as (v & s' & Hf & Hv').
  exists (resolve_as_table n s'). split; [|by eapply leaf_table].
  cbn. rewrite decide_False by done. rewrite Hf.
  by destruct Hv' as [->| ->].
Qed.

(** ** Splitting a name *)

Lemma append_cons a s t : String a s +:+ t = String a (s +:+ t).
Proof. done. Qed.

Lemma first_dot_split schema rest :
  has_dot schema = false →
  has_dot (schema +:+ "." +:+ rest) = true
  ∧ split_first_dot (schema +:+ "." +:+ rest) = (schema, rest).
Proof.
  induction schema as [|c schema IH]; intros H.
  - done.
  - cbn in H. rewrite append_cons. cbn.
    destruct (decide (c = "."%char)); [done|].
    destruct (IH H) as [-> ->]. done.
Qed.

Lemma split_first_dot_spec n :
  has_dot n = true →
  ∃ schema rest, n = schema +:+ "." +:+ rest ∧ has_dot schema = false
                 ∧ split_first_dot n = (schema, rest).
Proof.
  induction n as [|c n IH]; cbn; [done|].
  destruct (decide (c = "."%char)) as [->|Hc]; intros H.
  - by exists "", n.
  - destruct (IH H) as (schema & rest & -> & Hs & ->).
    exists (String c schema), rest. cbn. by rewrite decide_False.
Qed.

(** C10: a name with several dots, taken as a table candidate, is split
    at its first dot only: the schema is the text before that dot and the
    table name is all that follows, further dots included; this pair is
    what [fetch_table_metadata] is called with. *)
Theorem split_at_first_dot_only schema rest :
  has_dot schema = false →
  split_name (schema +:+ "." +:+ rest) = (schema, rest)
  ∧ ∀ s, fetched_tables
           (log (run_state (resolve_as_table (schema +:+ "." +:+ rest) s)))
         = fetched_tables (log s) ++ [(schema, rest)].
Proof.
  intros H. destruct (first_dot_split schema rest H) as [Hdot Hsplit].
  assert (split_name (schema +:+ "." +:+ rest) = (schema, rest)) as Hname.
  { unfold split_name. by rewrite Hdot. }
  split; [done|]. intros s. unfold resolve_as_table, fetch_table_metadata.
  rewrite Hname.
  destruct (columns_query catalog schema rest) as [e|e|[|row rows]]; cbn;
    rewrite !fetched_tables_app; cbn; by rewrite ?app_nil_r.
Qed.

(** C7: resolving a name that is not yet visited and has no view
    definition calls [fetch_table_metadata] once, on ["dbc"] and the name
    itself when the name has no dot, and on the two parts around its
    first dot otherwise. *)
Theorem schema_defaulting fuel n s :
  n ∉ visited s → view_absent n →
  ∃ r, build_full_lineage (S fuel) n s = Some r
       ∧ (has_dot n = false →
            fetched_tables (log (run_state r))
            = fetched_tables (log s) ++ [("dbc", n)])
       ∧ (has_dot n = true →
            ∃ schema table,
              n = schema +:+ "." +:+ table ∧ has_dot schema = false
              ∧ fetched_tables (log (run_state r))
                = fetched_tables (log s) ++ [(schema, table)]).
Proof.
  intros Hn Hv. destruct (build_leaf fuel n s Hn Hv) as (r & Hr & Hpost).
  exists r. split; [done|].
  destruct Hpost as (_ & _ & _ & _ & Hlog & _).
  rewrite Hlog, fetched_tables_app, fetched_tables_events_of by done.
  unfold split_name. split; intros Hdot; rewrite Hdot; [done|].
  destruct (split_first_dot_spec n Hdot) as (schema & table & Heq & Hs & Hsplit).
  exists schema, table. by rewrite Hsplit.
Qed.

(** C6: a name whose view definition is absent or empty and whose
    column lookup returns rows is recorded in [table_metadata_dict] with
    exactly these rows and not in [ddl_dict], by the call that resolves
    it and in the result of any request that visits it; and no name is
    ever a key of both dictionaries. *)
Theorem fallback_to_table n cols :
  view_absent n → table_returns n (Some cols) →
  (∀ fuel s, n ∉ visited s →
     ∃ s', build_full_lineage (S fuel) n s = Some (Returns tt s')
           ∧ table_metadata_dict s' = dict_set n cols (table_metadata_dict s)
           ∧ dict_get n (table_metadata_dict s') = Some cols
           ∧ ddl_dict s' = ddl_dict s)
  ∧ (∀ fuel root r,
       build_full_lineage fuel root fresh = Some r →
       n ∈ visited (run_state r) →
       dict_get n (table_metadata_dict (run_state r)) = Some cols
       ∧ n ∉ dict_keys (ddl_dict (run_state r)))
  ∧ (∀ fuel root r k,
       build_full_lineage fuel root fresh = Some r →
       k ∈ dict_keys (ddl_dict (run_state r)) →
       k ∉ dict_keys (table_metadata_dict (run_state r))).
Proof.
  intros Hv Ht.
  assert (resolution n = AsTable cols) as Hres.
  { rewrite view_absent_resolution by done. by apply table_returns_Some. }
  split; [|split].
  - intros fuel s Hn. destruct (build_leaf fuel n s Hn Hv) as (r & Hr & Hpost).
    destruct Hpost as (_ & _ & Hd & Htab & _ & _ & Hh). rewrite Hres in Htab, Hh.
    destruct r as [[] s'|s']; cbn in Hd, Htab, Hh.
    + exists s'. rewrite Htab. by rewrite dict_get_set.
    + destruct Hh as [Hh _]. discriminate (Hh eq_refl).
  - intros fuel root r Hr Hn. pose proof (build_Inv _ _ _ Hr) as HI. split.
    + by apply Inv_table_get.
    + rewrite Inv_ddl_keys by done. intros [_ [sql Hsql]]. congruence.
  - intros fuel root r k Hr Hk. pose proof (build_Inv _ _ _ Hr) as HI.
    apply Inv_ddl_keys in Hk as [_ [sql Hsql]]; [|done].
    rewrite Inv_table_keys by done. intros [_ [df Hdf]]. congruence.
Qed.

(** ** Facts about a finished request *)

Lemma request U root :
  closed U → root ∈ U →
  ∃ r, (∀ fuel, size U < fuel → build_full_lineage fuel root fresh = Some r)
       ∧ resolve root fresh r
       ∧ Inv (run_state r)
       ∧ (∀ m, m ∈ visited (run_state r) → m ∈ U ∧ reachable root m)
       ∧ (no_stops U → halted r = false)
       ∧ (halted r = false →
            ∀ m, reachable root m →
                 m ∈ visited (run_state r) ∧ processed (run_state r) m).
Proof.
  intros Hcl Hroot. destruct (lineage_result U root Hcl Hroot) as (r & Hfuel & Hr).
  exists r. split; [done|]. split; [done|].
  destruct (proj1 resolve_sound _ _ _ Hr Inv_fresh) as [HI _]. split; [done|].
  destruct (proj1 (resolve_within (λ m, m ∈ U) Hcl) _ _ _ Hr Hroot) as [HU Hh].
  split; [|split; [done|]].
  - intros m Hm. split; [|by eapply visited_reachable].
    destruct (HU m Hm) as [H|H]; [by apply not_elem_of_empty in H|done].
  - intros Hret m Hm. destruct r as [[] s|s]; [|done]. cbn.
    assert (m ∈ visited s) as Hv by (by eapply reachable_visited).
    split; [done|].
    destruct (proj1 resolve_complete _ _ _ Hr Inv_fresh s eq_refl) as [_ Hproc].
    apply Hproc; [done|apply not_elem_of_empty].
Qed.

Lemma returned_edges root s d n :
  resolve root fresh (Returns tt s) →
  (d, n) ∈ edges (graph s) ↔ reachable root n ∧ references n d.
Proof.
  intros Hr. destruct (proj1 resolve_sound _ _ _ Hr Inv_fresh) as [HI _].
  cbn in HI. split.
  - intros H. destruct (inv_edges s HI d n H) as [Hn Href].
    split; [|done]. by eapply (visited_reachable root (Returns tt s)).
  - intros [Hn Href].
    destruct (proj1 resolve_complete _ _ _ Hr Inv_fresh s eq_refl) as [_ Hproc].
    apply (Hproc n); [by eapply reachable_visited|apply not_elem_of_empty|done].
Qed.

Lemma reachable_step root m :
  reachable root m → m ≠ root → ∃ k, reachable root k ∧ references k m.
Proof.
  intros H Hne. apply rtc_inv_r in H as [->|(k & Hk & Hkm)]; [done|].
  by exists k.
Qed.

Lemma filter_eq_absent (l : list string) x :
  x ∉ l → filter (λ k, k = x) l = [].
Proof.
  induction l as [|z l IH]; [done|]. intros [Hz Hx]%not_elem_of_cons.
  rewrite filter_cons, decide_False by done. by apply IH.
Qed.

Lemma NoDup_count (l : list string) x :
  NoDup l → x ∈ l → length (filter (λ k, k = x) l) = 1.
Proof.
  induction 1 as [|y l Hy Hl IH]; intros Hx; [by apply elem_of_nil in Hx|].
  rewrite filter_cons. destruct (decide (y = x)) as [->|Hne].
  - by rewrite filter_eq_absent.
  - apply elem_of_cons in Hx as [->|Hx]; [done|]. by apply IH.
Qed.

(** C2 (as amended): when the request returns, the nodes of the graph
    are exactly the endpoints of its edges.  Every reachable name other
    than the root is a node; the root is a node exactly when its
    definition has an extracted dependency or a reachable view references
    it; a root without extracted dependencies (a base table, or a view
    that references nothing) leaves the graph without nodes. *)
Theorem graph_nodes_are_edge_endpoints U root :
  closed U → root ∈ U → no_stops U →
  ∃ s, (∀ fuel, size U < fuel →
          build_full_lineage fuel root fresh = Some (Returns tt s))
       ∧ (∀ m, m ∈ nodes (graph s)
               ↔ (reachable root m ∧ ∃ d, references m d)
                 ∨ (∃ k, reachable root k ∧ references k m))
       ∧ (∀ m, reachable root m → m ≠ root → m ∈ nodes (graph s))
       ∧ (root ∈ nodes (graph s)
          ↔ (∃ d, references root d) ∨ (∃ k, reachable root k ∧ references k root))
       ∧ ((∀ d, ¬ references root d) → nodes (graph s) = ∅).
Proof.
  intros Hcl Hroot Hns.
  destruct (request U root Hcl Hroot) as (r & Hfuel & Hr & HI & _ & Hh & _).
  specialize (Hh Hns). destruct r as [[] s|s]; [|done]. cbn in HI.
  exists s. split; [done|].
  assert (∀ m, m ∈ nodes (graph s)
               ↔ (reachable root m ∧ ∃ d, references m d)
                 ∨ (∃ k, reachable root k ∧ references k m)) as Hnodes.
  { intros m. rewrite (inv_nodes s HI). unfold endpoint. split.
    - intros [k [H|H]]; apply (returned_edges root s) in H as [H1 H2]; try done.
      + right. by exists k.
      + left. split; [done|]. by exists k.
    - intros [[Hm [d Hd]]|[k [Hk Hkm]]].
      + exists d. right. by apply (returned_edges root s).
      + exists k. left. by apply (returned_edges root s). }
  split; [done|]. split; [|split].
  - intros m Hm Hne. apply Hnodes. right. by apply reachable_step.
  - rewrite Hnodes. split.
    + intros [[_ H]|H]; [by left|by right].
    + intros [H|H]; [left; split; [apply rtc_refl|done]|by right].
  - intros Hnone. apply elem_of_equiv_empty_L. intros m Hm.
    assert (∀ k, reachable root k → k = root) as Honly.
    { intros k Hk. apply rtc_inv in Hk as [|(d & Hd & _)]; [done|].
      by destruct (Hnone d). }
    apply Hnodes in Hm as [[Hm [d Hd]]|[k [Hk Hkm]]].
    + rewrite (Honly m Hm) in Hd. by apply (Hnone d).
    + rewrite (Honly k Hk) in Hkm. by apply (Hnone m).
Qed.

(** C4: on a finite catalog the request ends, whatever the references,
    cycles included.  No name is fetched twice, each fetched name is in
    [visited] (also when its fetch stopped the script), and a visited
    name is answered at once without touching the session.  When the
    root and [B] reference each other and the script is not stopped, both
    are keys of [ddl_dict] exactly once. *)
Theorem terminates_on_cycles U root :
  closed U → root ∈ U →
  ∃ r, (∀ fuel, size U < fuel → build_full_lineage fuel root fresh = Some r)
       ∧ NoDup (fetched_views (log (run_state r)))
       ∧ (∀ n, n ∈ fetched_views (log (run_state r)) → n ∈ visited (run_state r))
       ∧ (∀ fuel n s, n ∈ visited s →
            build_full_lineage (S fuel) n s = Some (Returns tt s))
       ∧ (no_stops U → halted r = false)
       ∧ (∀ B, halted r = false → references root B → references B root →
            length (filter (λ k, k = root) (dict_keys (ddl_dict (run_state r)))) = 1
            ∧ length (filter (λ k, k = B) (dict_keys (ddl_dict (run_state r)))) = 1).
Proof.
  intros Hcl Hroot.
  destruct (request U root Hcl Hroot) as (r & Hfuel & Hr & HI & _ & Hh & Hreach).
  exists r. split; [done|]. split; [apply (inv_nodup _ HI)|].
  split; [intros n Hn; by apply (inv_visited _ HI)|].
  split; [|split; [done|]].
  { intros fuel n s Hn. cbn. by rewrite decide_True. }
  intros B Hret [sqlA [HA HB]] [sqlB [HB' HA']].
  split; apply NoDup_count; try (by apply Inv_ddl_NoDup);
    apply Inv_ddl_keys; try done.
  - split; [|by eexists]. apply Hreach; [done|apply rtc_refl].
  - split; [|by eexists]. apply Hreach; [done|].
    apply rtc_once. by exists sqlA.
Qed.

Lemma size_list_to_set_le (l : list string) :
  size (list_to_set l : gset string) ≤ length l.
Proof.
  induction l as [|x l IH]; cbn.
  - by rewrite size_empty.
  - rewrite size_union_alt, size_singleton.
    pose proof (subseteq_size (list_to_set l ∖ {[x]}) (list_to_set l : gset string)
                  (subseteq_difference_l _ _ _ (reflexivity _))).
    lia.
Qed.

Lemma log_events_of s m e :
  Inv s → m ∈ visited s → e ∈ events_of m → e ∈ log s.
Proof.
  intros HI Hm He. rewrite (inv_log s HI). apply list_elem_of_bind.
  exists m. split; [done|]. by apply (inv_visited s HI).
Qed.

(** C5: in the diamond where [A] references [B] and [C], which both
    reference [D], and [D] references nothing, the request returns,
    [fetch_view_definition] is called on [D] exactly once, and the graph
    has exactly the edges D→B, D→C, B→A and C→A; every edge goes from
    the referenced name to the view that references it, and the four
    edges are distinct when [B] and [C] are. *)
Theorem diamond_dependency A B C D sqlA sqlB sqlC :
  resolution A = AsView sqlA →
  (∀ d, d ∈ extract_dependencies sqlA ↔ d = B ∨ d = C) →
  resolution B = AsView sqlB →
  (∀ d, d ∈ extract_dependencies sqlB ↔ d = D) →
  resolution C = AsView sqlC →
  (∀ d, d ∈ extract_dependencies sqlC ↔ d = D) →
  (∀ d, ¬ references D d) → resolution D ≠ Stops →
  ∃ s, (∀ fuel, 4 < fuel → build_full_lineage fuel A fresh = Some (Returns tt s))
       ∧ length (filter (λ n, n = D) (fetched_views (log s))) = 1
       ∧ edges (graph s) = list_to_set [(D, B); (D, C); (B, A); (C, A)]
       ∧ (∀ d n, (d, n) ∈ edges (graph s) → references n d)
       ∧ (B ≠ C → size (edges (graph s)) = 4).
Proof.
  intros HA HAd HB HBd HC HCd HD HDs.
  set (U := list_to_set [A; B; C; D] : gset string).
  assert (∀ n d, references n d →
            (n = A ∧ (d = B ∨ d = C)) ∨ (n = B ∧ d = D) ∨ (n = C ∧ d = D)
            ∨ (n ≠ A ∧ n ≠ B ∧ n ≠ C ∧ n ≠ D)) as Hrefs.
  { intros n d Hnd. destruct (decide (n = A)) as [->|?].
    { left. split; [done|]. by apply HAd, (references_inj A). }
    destruct (decide (n = B)) as [->|?].
    { right. left. split; [done|]. by apply HBd, (references_inj B). }
    destruct (decide (n = C)) as [->|?].
    { right. right. left. split; [done|]. by apply HCd, (references_inj C). }
    destruct (decide (n = D)) as [->|?]; [by destruct (HD d)|].
    by repeat right. }
  assert (references A B ∧ references A C ∧ references B D ∧ references C D)
    as (HAB & HAC & HBD & HCD).
  { repeat split; eexists; (split; [eassumption|]).
    - apply HAd. by left.
    - apply HAd. by right.
    - by apply HBd.
    - by apply HCd. }
  assert (∀ x, x ∈ U ↔ x = A ∨ x = B ∨ x = C ∨ x = D) as HU.
  { intros x. unfold U. rewrite elem_of_list_to_set, !elem_of_cons.
    split; [|tauto]. intros [?|[?|[?|[?|H]]]]; try tauto.
    by apply elem_of_nil in H. }
  assert (closed U) as Hcl.
  { intros n d Hn Hnd. apply HU. apply HU in Hn.
    destruct (Hrefs n d Hnd) as [[_ [->| ->]]|[[_ ->]|[[_ ->]|?]]]; tauto. }
  assert (A ∈ U) as HAU by (apply HU; by left).
  assert (size U ≤ 4) as Hsz.
  { unfold U. etrans; [apply size_list_to_set_le|]. done. }
  assert (no_stops U) as Hns.
  { intros m Hm. apply HU in Hm. destruct Hm as [->|[->|[->| ->]]]; congruence. }
  destruct (request U A Hcl HAU) as (r & Hfuel & Hr & HI & HvU & Hh & Hreach).
  specialize (Hh Hns). destruct r as [[] s|s]; [|done]. cbn in HI, HvU, Hreach.
  exists s. split; [intros fuel Hf; apply Hfuel; lia|].
  assert (reachable A B ∧ reachable A C ∧ reachable A D) as (HrB & HrC & HrD).
  { repeat split; [by apply rtc_once|by apply rtc_once|].
    eapply rtc_l; [exact HAB|by apply rtc_once]. }
  assert (edges (graph s) = list_to_set [(D, B); (D, C); (B, A); (C, A)])
    as Hedges.
  { apply set_eq. intros [d n]. rewrite (returned_edges A s d n Hr).
    rewrite elem_of_list_to_set, !elem_of_cons. split.
    - intros [Hn Hnd].
      destruct (Hrefs n d Hnd) as [[-> [->| ->]]|[[-> ->]|[[-> ->]|Hne]]]; try tauto.
      exfalso. destruct (Hreach eq_refl n Hn) as [Hv _].
      apply HvU in Hv as [Hv _]. apply HU in Hv. tauto.
    - intros [[= -> ->]|[[= -> ->]|[[= -> ->]|[[= -> ->]|H]]]];
        [done|done|split; [apply rtc_refl|done]|split; [apply rtc_refl|done]|].
      by apply elem_of_nil in H. }
  split; [|split; [done|split]].
  - apply NoDup_count; [apply (inv_nodup s HI)|].
    apply (inv_visited s HI). by apply Hreach.
  - intros d n H. by apply (returned_edges A s d n Hr).
  - intros HBC. rewrite Hedges.
    assert (D ≠ B) as HDB.
    { intros Heq. apply (HD D). rewrite Heq at 1. exact HBD. }
    assert (D ≠ C) as HDC.
    { intros Heq. apply (HD D). rewrite Heq at 1. exact HCD. }
    rewrite size_list_to_set; [done|].
    repeat (apply NoDup_cons; split); try apply NoDup_nil_2;
      rewrite ?not_elem_of_cons; repeat split; try apply not_elem_of_nil;
      congruence.
Qed.

(** C9: a name for which both lookups return nothing is a key of
    neither dictionary whatever the request; the request still ends,
    and when the script is not stopped it returns with the record of
    every reachable view and table, the dangling name being left in
    [visited] only. *)
Theorem dangling_reference U root d :
  closed U → root ∈ U →
  view_absent d → table_returns d None →
  ∃ r, (∀ fuel, size U < fuel → build_full_lineage fuel root fresh = Some r)
       ∧ (d ∉ dict_keys (ddl_dict (run_state r)))
       ∧ (d ∉ dict_keys (table_metadata_dict (run_state r)))
       ∧ (no_stops U →
            ∃ s, r = Returns tt s
                 ∧ (reachable root d → d ∈ visited s)
                 ∧ (∀ m sql, reachable root m → resolution m = AsView sql →
                      dict_get m (ddl_dict s) = Some sql)
                 ∧ (∀ m df, reachable root m → resolution m = AsTable df →
                      dict_get m (table_metadata_dict s) = Some df)).
Proof.
  intros Hcl Hroot Hv Ht.
  assert (resolution d = Dangling) as Hres.
  { rewrite view_absent_resolution by done. by apply table_returns_None. }
  destruct (request U root Hcl Hroot) as (r & Hfuel & Hr & HI & _ & Hh & Hreach).
  exists r. split; [done|]. split; [|split].
  - rewrite Inv_ddl_keys by done. intros [_ [sql Hsql]]. congruence.
  - rewrite Inv_table_keys by done. intros [_ [df Hdf]]. congruence.
  - intros Hns. specialize (Hh Hns). specialize (Hreach Hh).
    destruct r as [[] s|s]; [|done]. cbn in HI, Hreach. exists s.
    split; [done|]. split; [intros H; by apply Hreach|]. split.
    + intros m sql Hm Hsql. apply Inv_ddl_get; [done| |done]. by apply Hreach.
    + intros m df Hm Hdf. apply Inv_table_get; [done| |done]. by apply Hreach.
Qed.

Lemma table_events_in_events_of m e :
  view_absent m → e ∈ table_events m → e ∈ events_of m.
Proof.
  intros Hv He. destruct (Hv fresh) as (v & s' & Hf & Hv').
  unfold fetch_view_definition, events_of in *.
  destruct (view_query catalog m) as [?|?|[sql|]]; try done.
  - by do 2 right.
  - injection Hf as <- _. destruct Hv' as [|[= ->]]; [done|]. by right.
  - by right.
Qed.

Lemma visited_stop_halts root r m :
  resolve root fresh r → m ∈ visited (run_state r) → resolution m = Stops →
  halted r = true.
Proof.
  intros Hr Hm Hs. destruct (proj1 resolve_halts _ _ _ Hr Inv_fresh) as [_ Hf].
  destruct (halted r) eqn:Hh; [done|]. exfalso.
  apply (Hf eq_refl m Hm); [apply not_elem_of_empty|done].
Qed.

Lemma dict_get_Some_elem {V} k (v : V) d :
  dict_get k d = Some v → (k, v) ∈ d.
Proof.
  induction d as [|[k' v'] d IH]; simpl; [done|].
  destruct (decide (k' = k)) as [->|]; intros H.
  - injection H as ->. left.
  - right. auto.
Qed.

Lemma Inv_ddl_get_inv s k sql :
  Inv s → dict_get k (ddl_dict s) = Some sql →
  k ∈ visited s ∧ resolution k = AsView sql.
Proof.
  intros HI H. apply dict_get_Some_elem in H. rewrite (inv_ddl s HI) in H.
  apply list_elem_of_omap in H as (n & Hn & Hrec). unfold view_record in Hrec.
  destruct (resolution n) eqn:Hres; try done. injection Hrec as -> ->.
  split; [by apply (inv_visited s HI)|done].
Qed.

Lemma Inv_table_get_inv s k df :
  Inv s → dict_get k (table_metadata_dict s) = Some df →
  k ∈ visited s ∧ resolution k = AsTable df.
Proof.
  intros HI H. apply dict_get_Some_elem in H. rewrite (inv_tables s HI) in H.
  apply list_elem_of_omap in H as (n & Hn & Hrec). unfold table_record in Hrec.
  destruct (resolution n) eqn:Hres; try done. injection Hrec as -> ->.
  split; [by apply (inv_visited s HI)|done].
Qed.

Lemma Inv_table_lookup s n :
  Inv s → n ∈ visited s →
  dict_get n (table_metadata_dict s)
  = match resolution n with AsTable df => Some df | _ => None end.
Proof.
  intros HI Hn. destruct (dict_get n (table_metadata_dict s)) as [df|] eqn:Hget.
  - apply Inv_table_get_inv in Hget as [_ ->]; done.
  - destruct (resolution n) as [?|df| |] eqn:Hres; try done.
    by rewrite (Inv_table_get s n df HI Hn Hres) in Hget.
Qed.

Lemma events_of_stops n :
  resolution n = Stops →
  ∃ e, last (events_of n) = Some (StError ("Failed to connect to Teradata: " +:+ e)).
Proof.
  unfold resolution, table_resolution, events_of, table_events.
  destruct (view_query catalog n) as [e|e|[q|]], (split_name n) as [db t];
    try (destruct (decide (q = "")); [|done]);
    try (destruct (columns_query catalog db t) as [e'|?|[|??]]; try done);
    intros _; by eexists.
Qed.

(** When the script is stopped, it is stopped at the name visited last,
    by the connection failure shown last. *)
Lemma halts_at_last :
  (∀ n s r, resolve n s r → halted r = true →
     ∃ m e, last (discovery (run_state r)) = Some m ∧ resolution m = Stops
            ∧ last (log (run_state r))
              = Some (StError ("Failed to connect to Teradata: " +:+ e)))
  ∧ (∀ n ds s r, resolve_deps n ds s r → halted r = true →
       ∃ m e, last (discovery (run_state r)) = Some m ∧ resolution m = Stops
              ∧ last (log (run_state r))
                = Some (StError ("Failed to connect to Teradata: " +:+ e))).
Proof.
  assert (∀ n s r, leaf_post n s r → halted r = true →
     ∃ m e, last (discovery (run_state r)) = Some m ∧ resolution m = Stops
            ∧ last (log (run_state r))
              = Some (StError ("Failed to connect to Teradata: " +:+ e)))
    as Hleaf.
  { intros n s r (_ & _ & _ & _ & Hlog & _ & Hh) Hr. apply Hh in Hr.
    destruct (events_of_stops n Hr) as [e He]. exists n, e.
    unfold discovery. rewrite Hlog, fetched_views_app, fetched_views_events_of.
    split; [apply last_snoc|]. split; [done|]. by rewrite last_app, He. }
  apply resolve_mutind.
  - intros n s Hn Hh. done.
  - intros n s s' Hn Hf. apply (Hleaf n s (Halts s')). by apply leaf_stop.
  - intros n s s1 sql r Hn Hf Hne Hdeps IH. exact IH.
  - intros n s s1 ov Hn Hf Hov. apply (Hleaf n s). by eapply leaf_table.
  - intros n s Hh. done.
  - intros n d ds s s1 r Hd IH1 Hds IH2. exact IH2.
  - intros n d ds s s1 Hd IH. exact IH.
Qed.

(** C3 (as amended): an exception raised by a catalog query is caught
    inside the fetcher, shown as an advisory, and counts as an absent
    answer.  After a raised view query the name is not recorded as a
    view and is looked up as a table: it is recorded in
    [table_metadata_dict] exactly when its column query returns rows.
    After a raised column query the name has no record at all.  The
    traversal goes on: when the connection can be opened for every
    name, the request is not stopped and returns with every reachable
    name visited.  The script is stopped exactly when the connection
    cannot be opened for a name the traversal meets; that name is the
    last one visited, the connection failure is the last message, and
    the caller gets no report. *)
Theorem query_errors_absorbed U root :
  closed U → root ∈ U →
  ∃ r, (∀ fuel, size U < fuel → build_full_lineage fuel root fresh = Some r)
       ∧ (halted r = true
          ↔ ∃ m, m ∈ visited (run_state r) ∧ resolution m = Stops)
       ∧ (no_stops U → halted r = false)
       ∧ (halted r = false →
            ∀ m, reachable root m → m ∈ visited (run_state r))
       ∧ (∀ m e, m ∈ visited (run_state r) →
            view_query catalog m = QueryRaises e →
            StError ("Error fetching view definition: " +:+ e) ∈ log (run_state r)
            ∧ (m ∉ dict_keys (ddl_dict (run_state r)))
            ∧ dict_get m (table_metadata_dict (run_state r))
              = match columns_query catalog (split_name m).1 (split_name m).2 with
                | QueryRows (row :: rows) => Some (row :: rows)
                | _ => None
                end)
       ∧ (∀ m e, m ∈ visited (run_state r) → view_absent m →
            columns_query catalog (split_name m).1 (split_name m).2 = QueryRaises e →
            StError ("Error fetching metadata for table " +:+ (split_name m).1
                     +:+ "." +:+ (split_name m).2 +:+ ": " +:+ e)
              ∈ log (run_state r)
            ∧ (m ∉ dict_keys (table_metadata_dict (run_state r)))
            ∧ (m ∉ dict_keys (ddl_dict (run_state r))))
       ∧ (halted r = true →
            ∃ m e, last (discovery (run_state r)) = Some m
                   ∧ resolution m = Stops
                   ∧ last (log (run_state r))
                     = Some (StError ("Failed to connect to Teradata: " +:+ e)))
       ∧ (root ≠ "" → ∀ fuel, size U < fuel →
            generate_lineage fuel true root
            = Some (match r with
                    | Returns _ s => Returns (Some (report s)) s
                    | Halts s => Halts s
                    end)).
Proof.
  intros Hcl Hroot.
  destruct (request U root Hcl Hroot) as (r & Hfuel & Hr & HI & _ & Hh & Hreach).
  exists r. split; [done|].
  split; [|split; [done|split; [|split; [|split; [|split]]]]].
  - split.
    + intros Hhalt.
      destruct (proj1 resolve_halts _ _ _ Hr Inv_fresh) as [Ht _].
      destruct (Ht Hhalt) as (m & Hm & _ & Hs). by exists m.
    + intros (m & Hm & Hs). by eapply visited_stop_halts.
  - intros Hret m Hm. by apply Hreach.
  - intros m e Hm Hq.
    assert (resolution m = table_resolution m) as Hres.
    { unfold resolution. by rewrite Hq. }
    split; [|split].
    + apply (log_events_of _ m); [done..|]. unfold events_of. rewrite Hq.
      right. left.
    + rewrite Inv_ddl_keys by done. intros [_ [sql Hsql]].
      rewrite Hres in Hsql. unfold table_resolution in Hsql.
      destruct (split_name m) as [db t].
      by destruct (columns_query catalog db t) as [?|?|[|??]].
    + rewrite Inv_table_lookup, Hres by done. unfold table_resolution.
      destruct (split_name m) as [db t]. cbn.
      by destruct (columns_query catalog db t) as [?|?|[|??]].
  - intros m e Hm Hv Hq.
    assert (resolution m = Dangling) as Hres.
    { rewrite view_absent_resolution by done. unfold table_resolution.
      destruct (split_name m) as [db t]. cbn in Hq. by rewrite Hq. }
    split; [|split].
    + apply (log_events_of _ m); [done..|]. apply table_events_in_events_of; [done|].
      unfold table_events. destruct (split_name m) as [db t]. cbn in *.
      rewrite Hq. right. left.
    + rewrite Inv_table_keys by done. intros [_ [df Hdf]]. congruence.
    + rewrite Inv_ddl_keys by done. intros [_ [sql Hsql]]. congruence.
  - intros Hhalt. by apply (proj1 halts_at_last _ _ _ Hr).
  - intros Hne fuel Hf. unfold generate_lineage.
    rewrite bool_decide_true by done. cbn. rewrite (Hfuel fuel Hf).
    by destruct r as [[] s|s].
Qed.

(** ** The report *)

Lemma fst_pairing {V} (g : string → V) (l : list string) :
  ((λ name, (name, g name)) <$> l).*1 = l.
Proof. induction l as [|x l IH]; [done|]. cbn. by rewrite IH. Qed.

Lemma report_sections s :
  Inv s →
  view_section (report s)
  = reverse (filter (λ n, is_Some (view_record n)) (discovery s))
  ∧ table_section (report s)
    = filter (λ n, is_Some (table_record n)) (discovery s).
Proof.
  intros HI.
  pose proof (view_record_keys (discovery s)) as Hv.
  pose proof (table_record_keys (discovery s)) as Ht.
  rewrite <-(inv_ddl s HI) in Hv. rewrite <-(inv_tables s HI) in Ht.
  rewrite <-Hv, <-Ht. unfold report, dict_keys in *.
  destruct (ddl_dict s) as [|kv ddl], (table_metadata_dict s) as [|kt tmd];
    try done; cbn [view_section table_section]; by rewrite fst_pairing.
Qed.

Lemma filter_none {A} (P : A → Prop) `{∀ x, Decision (P x)} (l : list A) :
  (∀ x, x ∈ l → ¬ P x) → filter P l = [].
Proof.
  induction l as [|x l IH]; [done|]. intros Hl.
  rewrite filter_cons, decide_False by (apply Hl; left).
  apply IH. intros y Hy. apply Hl. by right.
Qed.

Lemma events_of_view n sql :
  resolution n = AsView sql → events_of n = [CallFetchView n].
Proof.
  unfold resolution, events_of, table_resolution.
  destruct (view_query catalog n) as [?|?|[q|]], (split_name n) as [db t];
    destruct (columns_query catalog db t) as [?|?|[|??]]; try done;
    by destruct (decide (q = "")).
Qed.

Lemma resolve_view_inv n s r sql :
  resolve n s r → n ∉ visited s → resolution n = AsView sql →
  resolve_deps n (extract_dependencies sql)
    (set_ddl n sql (emit (CallFetchView n) (visit n s))) r.
Proof.
  intros Hr Hn Hres. unfold view_record.
  inversion Hr as [|? ? s' _ Hf|? ? s' sql' ? _ Hf Hne Hd|? ? s' ov _ Hf Hov]; subst.
  - done.
  - apply leaf_stop in Hf as (_ & _ & _ & _ & _ & Hvr & _).
    unfold view_record in Hvr. by rewrite Hres in Hvr.
  - apply view_entry in Hf as (-> & Hres' & _); [|done]. congruence.
  - eapply leaf_table in Hf as (_ & _ & _ & _ & _ & Hvr & _); [|done].
    unfold view_record in Hvr. by rewrite Hres in Hvr.
Qed.

Lemma resolve_deps_single n d s r :
  resolve_deps n [d] s r → resolve d (graph_add_edge d n s) r.
Proof.
  intros H. inversion H as [|? ? ? ? s' ? H1 H2|? ? ? ? s' H1]; subst; [|done].
  by inversion H2; subst.
Qed.

(** C1 (as amended): for a root view [A] that references the view [B],
    which references the view [C], whose own references are not views,
    the view-definitions section of the report lists the views in
    reverse discovery order, which is deepest first and root last:
    [C], [B], [A]; the table-metadata section lists the tables in
    discovery order. *)
Theorem report_order_chain A B C sqlA sqlB sqlC :
  A ≠ B → A ≠ C → B ≠ C →
  resolution A = AsView sqlA → extract_dependencies sqlA = [B] →
  resolution B = AsView sqlB → extract_dependencies sqlB = [C] →
  resolution C = AsView sqlC →
  (∀ d, d ∈ extract_dependencies sqlC →
        view_record d = None ∧ resolution d ≠ Stops) →
  ∃ s, (∀ fuel, 3 + length (extract_dependencies sqlC) < fuel →
          build_full_lineage fuel A fresh = Some (Returns tt s))
       ∧ (∃ rest, discovery s = A :: B :: C :: rest)
       ∧ view_section (report s) = [C; B; A]
       ∧ view_section (report s)
         = reverse (filter (λ n, is_Some (view_record n)) (discovery s))
       ∧ table_section (report s)
         = filter (λ n, is_Some (table_record n)) (discovery s).
Proof.
  intros HAB HAC HBC HA HAd HB HBd HC HCd.
  set (U := list_to_set (A :: B :: C :: extract_dependencies sqlC) : gset string).
  assert (∀ x, x ∈ U ↔ x = A ∨ x = B ∨ x = C ∨ x ∈ extract_dependencies sqlC) as HU.
  { intros x. unfold U. by rewrite elem_of_list_to_set, !elem_of_cons. }
  assert (closed U) as Hcl.
  { intros n d Hn (sql & Hres & Hd). apply HU. apply HU in Hn.
    destruct Hn as [->|[->|[->|Hn]]].
    - rewrite HA in Hres. injection Hres as <-. rewrite HAd in Hd.
      apply list_elem_of_singleton in Hd. tauto.
    - rewrite HB in Hres. injection Hres as <-. rewrite HBd in Hd.
      apply list_elem_of_singleton in Hd. tauto.
    - rewrite HC in Hres. injection Hres as <-. tauto.
    - destruct (HCd n Hn) as [Hvr _]. unfold view_record in Hvr.
      by rewrite Hres in Hvr. }
  assert (no_stops U) as Hns.
  { intros m Hm. apply HU in Hm. destruct Hm as [->|[->|[->|Hm]]]; try congruence.
    by apply HCd. }
  assert (A ∈ U) as HAU by (apply HU; by left).
  assert (size U ≤ 3 + length (extract_dependencies sqlC)) as Hsz.
  { unfold U. etrans; [apply size_list_to_set_le|]. done. }
  destruct (request U A Hcl HAU) as (r & Hfuel & Hr & HI & HvU & Hh & _).
  specialize (Hh Hns). destruct r as [[] s|s]; [|done]. cbn in HI, HvU.
  exists s. split; [intros fuel Hf; apply Hfuel; lia|].
  assert (∃ rest, discovery s = A :: B :: C :: rest) as [rest Hdisc].
  { apply resolve_view_inv with (sql := sqlA) in Hr;
      [|apply not_elem_of_empty|done].
    rewrite HAd in Hr. apply resolve_deps_single in Hr.
    apply resolve_view_inv with (sql := sqlB) in Hr; [| |done].
    2:{ cbn. rewrite not_elem_of_union, not_elem_of_singleton.
        split; [done|apply not_elem_of_empty]. }
    rewrite HBd in Hr. apply resolve_deps_single in Hr.
    apply resolve_view_inv with (sql := sqlC) in Hr; [| |done].
    2:{ cbn. rewrite !not_elem_of_union, !not_elem_of_singleton.
        split; [done|]. split; [done|apply not_elem_of_empty]. }
    assert (∀ n sql s0, Inv s0 → n ∉ visited s0 → resolution n = AsView sql →
              Inv (set_ddl n sql (emit (CallFetchView n) (visit n s0)))) as Hent.
    { intros n sql s0 HI0 Hn Hres. apply Inv_view_entry; try done.
      by eapply events_of_view. }
    assert (references A B) as HrAB.
    { exists sqlA. split; [done|]. rewrite HAd. left. }
    assert (references B C) as HrBC.
    { exists sqlB. split; [done|]. rewrite HBd. left. }
    pose proof (Hent A sqlA fresh Inv_fresh (not_elem_of_empty _) HA) as HIA.
    eapply Inv_add_edge in HIA; [|cbn; apply elem_of_union; left;
                                  by apply elem_of_singleton|exact HrAB].
    eapply Hent in HIA; [| |exact HB].
    2:{ cbn. rewrite not_elem_of_union, not_elem_of_singleton.
        split; [done|apply not_elem_of_empty]. }
    eapply Inv_add_edge in HIA; [|cbn; apply elem_of_union; left;
                                  by apply elem_of_singleton|exact HrBC].
    eapply Hent in HIA; [| |exact HC].
    2:{ cbn. rewrite !not_elem_of_union, !not_elem_of_singleton.
        split; [done|]. split; [done|apply not_elem_of_empty]. }
    destruct (proj2 resolve_sound _ _ _ _ Hr HIA) as [_ (_ & _ & ext & Hlog)].
    { cbn. apply elem_of_union. left. by apply elem_of_singleton. }
    { intros d Hd. by exists sqlC. }
    exists (fetched_views ext). unfold discovery. cbn in Hlog. by rewrite Hlog. }
  destruct (report_sections s HI) as [Hvs Hts].
  split; [by exists rest|]. split; [|done].
  rewrite Hvs, Hdisc.
  assert (filter (λ n, is_Some (view_record n)) rest = []) as Hrest.
  { apply filter_none. intros x Hx [v Hv].
    pose proof (inv_nodup s HI) as Hnd. rewrite Hdisc in Hnd.
    apply NoDup_cons in Hnd as [HA' Hnd]. apply NoDup_cons in Hnd as [HB' Hnd].
    apply NoDup_cons in Hnd as [HC' Hnd].
    assert (x ∈ visited s) as Hxv.
    { apply (inv_visited s HI). rewrite Hdisc. by do 3 right. }
    apply HvU in Hxv as [Hxv _]. apply HU in Hxv.
    destruct Hxv as [->|[->|[->|Hxv]]].
    - apply HA'. by do 2 right.
    - apply HB'. by right.
    - done.
    - destruct (HCd x Hxv) as [Hnone _]. congruence. }
  assert (∀ n sql, resolution n = AsView sql → is_Some (view_record n)) as Hsome.
  { intros n sql Hres. unfold view_record. rewrite Hres. by eexists. }
  rewrite !filter_cons, Hrest.
  rewrite !decide_True by (by eapply Hsome). done.
Qed.

(** ** Further properties of a request *)

Lemma resolution_AsTable n df :
  resolution n = AsTable df →
  df ≠ []
  ∧ columns_query catalog (split_name n).1 (split_name n).2 = QueryRows df
  ∧ (∀ sql, view_query catalog n = QueryRows (Some sql) → sql = "")
  ∧ (∀ e, view_query catalog n ≠ NoConnection e).
Proof.
  unfold resolution, table_resolution.
  destruct (view_query catalog n) as [?|?|[q|]], (split_name n) as [db t]; cbn;
    destruct (columns_query catalog db t) as [?|?|[|??]]; try done;
    try (destruct (decide (q = "")) as [->|]; try done);
    intros [= <-]; repeat split; try done; by intros ? [= <-].
Qed.

(** X2: whatever the request did, also when the script was stopped,
    each record is the catalog's own answer for a name reachable from the
    root: a text in [ddl_dict] is the non-empty text the view query
    returned for its key, and an entry of [table_metadata_dict] is the
    non-empty row list the column query returned for the split of its
    key, a key for which the view query gave no text. *)
Theorem records_are_catalog_answers fuel root r :
  build_full_lineage fuel root fresh = Some r →
  (∀ k sql, dict_get k (ddl_dict (run_state r)) = Some sql →
     reachable root k ∧ sql ≠ "" ∧ view_query catalog k = QueryRows (Some sql))
  ∧ (∀ k df, dict_get k (table_metadata_dict (run_state r)) = Some df →
       reachable root k ∧ df ≠ []
       ∧ columns_query catalog (split_name k).1 (split_name k).2 = QueryRows df
       ∧ (∀ sql, view_query catalog k = QueryRows (Some sql) → sql = "")).
Proof.
  intros Hr. pose proof (build_Inv _ _ _ Hr) as HI.
  pose proof (build_resolve _ _ _ _ Hr) as Hres. split.
  - intros k sql Hk. apply Inv_ddl_get_inv in Hk as [Hv Hk]; [|done].
    split; [by eapply visited_reachable|].
    apply resolution_AsView in Hk as [Hne Hf]. split; [done|].
    specialize (Hf fresh). unfold fetch_view_definition in Hf.
    destruct (view_query catalog k) as [?|?|[q|]]; try done. by injection Hf as ->.
  - intros k df Hk. apply Inv_table_get_inv in Hk as [Hv Hk]; [|done].
    split; [by eapply visited_reachable|].
    apply resolution_AsTable in Hk as (? & ? & ? & _). done.
Qed.

(** X5: in any result, every edge of the graph ends at a recorded view
    and starts at one of the dependencies extracted from that view's
    stored text; a name recorded as a table never has an incoming edge.
    Both ends of an edge are nodes. *)
Theorem edges_point_to_views fuel root r d n :
  build_full_lineage fuel root fresh = Some r →
  (d, n) ∈ edges (graph (run_state r)) →
  (∃ sql, dict_get n (ddl_dict (run_state r)) = Some sql
          ∧ d ∈ extract_dependencies sql)
  ∧ (n ∉ dict_keys (table_metadata_dict (run_state r)))
  ∧ d ∈ nodes (graph (run_state r)) ∧ n ∈ nodes (graph (run_state r)).
Proof.
  intros Hr Hdn. pose proof (build_Inv _ _ _ Hr) as HI.
  destruct (inv_edges _ HI d n Hdn) as [Hn (sql & Hres & Hd)].
  split; [exists sql; split; [by apply Inv_ddl_get|done]|]. split; [|split].
  - rewrite Inv_table_keys by done. intros [_ [df Hdf]]. congruence.
  - apply (inv_nodes _ HI). exists n. by left.
  - apply (inv_nodes _ HI). exists d. by right.
Qed.

Lemma falls_to_table_spec n : falls_to_table n = true ↔ view_absent n.
Proof.
  unfold falls_to_table, view_absent, fetch_view_definition. split.
  - intros H s. destruct (view_query catalog n) as [?|?|[q|]]; try done.
    + eexists _, _. split; [done|by left].
    + apply bool_decide_eq_true in H as ->. eexists _, _. split; [done|by right].
    + eexists _, _. split; [done|by left].
  - intros H. destruct (H fresh) as (v & s' & Hf & Hv).
    destruct (view_query catalog n) as [?|?|[q|]]; try done.
    injection Hf as <- _. destruct Hv as [|[= ->]]; [done|].
    by apply bool_decide_eq_true.
Qed.

(** The table lookups of a log: one for each discovered name that falls
    to the table branch, in discovery order. *)
Lemma fetched_tables_bind (l : list string) :
  fetched_tables (l ≫= events_of)
  = split_name <$> filter (λ n, falls_to_table n = true) l.
Proof.
  induction l as [|n l IH]; [done|].
  change ((n :: l) ≫= events_of) with (events_of n ++ (l ≫= events_of)).
  rewrite fetched_tables_app, IH, filter_cons.
  destruct (decide (falls_to_table n = true)) as [Hn|Hn].
  - by rewrite fetched_tables_events_of by (by apply falls_to_table_spec).
  - assert (fetched_tables (events_of n) = []) as ->; [|done].
    unfold falls_to_table in Hn. unfold events_of.
    destruct (view_query catalog n) as [?|?|[q|]]; try done.
    destruct (decide (q = "")) as [->|]; [|done].
    by rewrite bool_decide_true in Hn.
Qed.

(** X3: in any result, [fetch_view_definition] was called exactly once
    for each visited name and for no other name, and
    [fetch_table_metadata] was called exactly once for each visited
    name whose view query gave no text and for no other name, on the
    split of that name. *)
Theorem one_lookup_per_name fuel root r :
  build_full_lineage fuel root fresh = Some r →
  NoDup (fetched_views (log (run_state r)))
  ∧ (∀ n, n ∈ fetched_views (log (run_state r)) ↔ n ∈ visited (run_state r))
  ∧ length (fetched_views (log (run_state r))) = size (visited (run_state r))
  ∧ ∃ names,
      fetched_tables (log (run_state r)) = split_name <$> names
      ∧ NoDup names
      ∧ (∀ n, n ∈ names ↔ n ∈ visited (run_state r) ∧ view_absent n)
      ∧ (∀ n sql, n ∈ names → resolution n ≠ AsView sql).
Proof.
  intros Hr. pose proof (build_Inv _ _ _ Hr) as HI.
  set (s := run_state r) in *.
  assert (visited s = list_to_set (discovery s)) as Hvis.
  { apply set_eq. intros x. rewrite elem_of_list_to_set. apply (inv_visited s HI). }
  split; [apply (inv_nodup s HI)|]. split.
  { intros n. symmetry. apply (inv_visited s HI). }
  split.
  { change (length (discovery s) = size (visited s)).
    rewrite Hvis. symmetry. apply size_list_to_set, (inv_nodup s HI). }
  exists (filter (λ n, falls_to_table n = true) (discovery s)).
  split; [by rewrite (inv_log s HI), fetched_tables_bind|].
  split; [apply NoDup_filter, (inv_nodup s HI)|]. split.
  - intros n. rewrite list_elem_of_filter, falls_to_table_spec.
    rewrite (inv_visited s HI). tauto.
  - intros n sql [Hn _]%list_elem_of_filter Hres.
    apply falls_to_table_spec, view_absent_resolution in Hn.
    rewrite Hn in Hres. unfold table_resolution in Hres.
    destruct (split_name n) as [db t].
    by destruct (columns_query catalog db t) as [?|?|[|??]].
Qed.

(** X4: an advisory is shown only for a failure: every [st.error] of a
    result reports, for some visited name, a connection that could not
    be opened or a view query or column query that raised, with the
    text of that failure. *)
Theorem advisories_come_from_failures fuel root r msg :
  build_full_lineage fuel root fresh = Some r →
  StError msg ∈ log (run_state r) →
  ∃ n, n ∈ visited (run_state r)
       ∧ ((∃ e, view_query catalog n = NoConnection e
                ∧ msg = "Failed to connect to Teradata: " +:+ e)
          ∨ (∃ e, view_query catalog n = QueryRaises e
                  ∧ msg = "Error fetching view definition: " +:+ e)
          ∨ (∃ e, columns_query catalog (split_name n).1 (split_name n).2
                  = NoConnection e
                  ∧ msg = "Failed to connect to Teradata: " +:+ e)
          ∨ (∃ e, columns_query catalog (split_name n).1 (split_name n).2
                  = QueryRaises e
                  ∧ msg = "Error fetching metadata for table "
                          +:+ (split_name n).1 +:+ "." +:+ (split_name n).2
                          +:+ ": " +:+ e)).
Proof.
  intros Hr Hmsg. pose proof (build_Inv _ _ _ Hr) as HI.
  rewrite (inv_log _ HI) in Hmsg. apply list_elem_of_bind in Hmsg as (n & Hev & Hn).
  exists n. split; [by apply (inv_visited _ HI)|].
  assert (StError msg ∈ table_events n →
          (∃ e, columns_query catalog (split_name n).1 (split_name n).2
                = NoConnection e
                ∧ msg = "Failed to connect to Teradata: " +:+ e)
          ∨ (∃ e, columns_query catalog (split_name n).1 (split_name n).2
                  = QueryRaises e
                  ∧ msg = "Error fetching metadata for table "
                          +:+ (split_name n).1 +:+ "." +:+ (split_name n).2
                          +:+ ": " +:+ e)) as Htab.
  { unfold table_events. destruct (split_name n) as [db t]. cbn.
    destruct (columns_query catalog db t) as [e|e|rows];
      intros [?|H]%elem_of_cons; try done.
    - apply list_elem_of_singleton in H as [= ->]. left. by exists e.
    - apply list_elem_of_singleton in H as [= ->]. right. by exists e.
    - by apply elem_of_nil in H. }
  unfold events_of in Hev. apply elem_of_cons in Hev as [|Hev]; [done|].
  destruct (view_query catalog n) as [e|e|[q|]].
  - apply list_elem_of_singleton in Hev as [= ->]. left. by exists e.
  - apply elem_of_cons in Hev as [[= ->]|Hev]; [right; left; by exists e|].
    right. right. by apply Htab.
  - destruct (decide (q = "")); [|by apply elem_of_nil in Hev].
    right. right. by apply Htab.
  - right. right. by apply Htab.
Qed.

(** X1: a request is served only when the button was pressed and the
    view name is not empty; otherwise nothing is built or shown.  A
    served request that is not stopped reports that no view or table
    definitions were found exactly when the root has neither a view
    definition nor column metadata; only the root is then visited and
    the graph has no edge. *)
Theorem no_definitions_warning U root generate_btn :
  closed U → root ∈ U → no_stops U →
  ∃ rep s,
    (∀ fuel, size U < fuel →
       generate_lineage fuel generate_btn root = Some (Returns rep s))
    ∧ (rep = None ↔ generate_btn = false ∨ root = "")
    ∧ (rep = None → s = fresh)
    ∧ (rep = Some NoDefinitionsWarning
       ↔ generate_btn = true ∧ root ≠ "" ∧ resolution root = Dangling)
    ∧ (rep = Some NoDefinitionsWarning →
         visited s = {[root]} ∧ edges (graph s) = ∅).
Proof.
  intros Hcl Hroot Hns.
  destruct (decide (generate_btn = true ∧ root ≠ "")) as [[-> Hne]|Hguard].
  2:{ exists None, fresh.
      assert (generate_btn && bool_decide (root ≠ "") = false) as Hg.
      { destruct generate_btn; [|done]. cbn. apply bool_decide_eq_false.
        intros ?. by apply Hguard. }
      split; [intros fuel _; unfold generate_lineage; by rewrite Hg|].
      split; [split; [intros _|done]|].
      { destruct generate_btn; [right|by left].
        destruct (decide (root = "")); [done|]. by destruct Hguard. }
      split; [done|]. split; [|done]. split; [done|].
      intros (? & ? & _). by destruct Hguard. }
  destruct (request U root Hcl Hroot) as (r & Hfuel & Hr & HI & HvU & Hh & Hreach).
  specialize (Hh Hns). specialize (Hreach Hh).
  destruct r as [[] s|s]; [|done]. cbn in HI, HvU, Hreach.
  exists (Some (report s)), s. split.
  { intros fuel Hf. unfold generate_lineage. rewrite bool_decide_true by done.
    cbn. by rewrite (Hfuel fuel Hf). }
  split; [split; [done|by intros [|]]|]. split; [done|].
  assert (root ∈ visited s) as Hrv by (apply Hreach, rtc_refl).
  assert (resolution root = Dangling → ∀ k, reachable root k → k = root) as Honly.
  { intros Hd k Hk. apply rtc_inv in Hk as [|(d & (sql & Hres & _) & _)]; [done|].
    congruence. }
  assert (report s = NoDefinitionsWarning ↔ resolution root = Dangling) as Hrep.
  { split.
    - intros Hrep.
      assert (ddl_dict s = [] ∧ table_metadata_dict s = []) as [Hd Ht].
      { unfold report in Hrep.
        by destruct (ddl_dict s), (table_metadata_dict s). }
      destruct (resolution root) as [sql|df| |] eqn:Hres; [| |done|].
      + assert (root ∈ dict_keys (ddl_dict s)) as Hk.
        { apply Inv_ddl_keys; [done|]. split; [done|by eexists]. }
        rewrite Hd in Hk. by apply elem_of_nil in Hk.
      + assert (root ∈ dict_keys (table_metadata_dict s)) as Hk.
        { apply Inv_table_keys; [done|]. split; [done|by eexists]. }
        rewrite Ht in Hk. by apply elem_of_nil in Hk.
      + by destruct (Hns root Hroot).
    - intros Hd. unfold report.
      destruct (ddl_dict s) as [|[k v] ddl] eqn:Hddl.
      + destruct (table_metadata_dict s) as [|[k v] tmd] eqn:Htmd; [done|].
        assert (k ∈ dict_keys (table_metadata_dict s)) as Hk by (rewrite Htmd; left).
        apply Inv_table_keys in Hk as [Hk [df Hdf]]; [|done].
        apply HvU in Hk as [_ Hk]. rewrite (Honly Hd k Hk) in Hdf. congruence.
      + assert (k ∈ dict_keys (ddl_dict s)) as Hk by (rewrite Hddl; left).
        apply Inv_ddl_keys in Hk as [Hk [sql Hsql]]; [|done].
        apply HvU in Hk as [_ Hk]. rewrite (Honly Hd k Hk) in Hsql. congruence. }
  split.
  - split.
    + intros [= Hw]. by apply Hrep in Hw.
    + intros (_ & _ & Hd). f_equal. by apply Hrep.
  - intros [= Hw]. apply Hrep in Hw as Hd. split.
    + apply set_eq. intros k. rewrite elem_of_singleton. split.
      * intros Hk. apply HvU in Hk as [_ Hk]. by apply Honly.
      * by intros ->.
    + apply elem_of_equiv_empty_L. intros [d n] Hdn.
      apply (returned_edges root s d n Hr) in Hdn as [Hn (sql & Hres & _)].
      rewrite (Honly Hd n Hn) in Hres. congruence.
Qed.

(** X8: when the root resolves as a view, it is the first name
    fetched and the first key of [ddl_dict], so that the report, which
    walks the keys backwards, lists the root last, for every catalog
    and also when the script was stopped later on. *)
Theorem root_view_listed_last fuel root r sql :
  build_full_lineage fuel root fresh = Some r →
  resolution root = AsView sql →
  head (discovery (run_state r)) = Some root
  ∧ head (ddl_dict (run_state r)) = Some (root, sql)
  ∧ last (view_section (report (run_state r))) = Some root.
Proof.
  intros Hr Hres. pose proof (build_Inv _ _ _ Hr) as HI.
  apply build_resolve in Hr.
  apply resolve_view_inv with (sql := sql) in Hr; [|apply not_elem_of_empty|done].
  pose proof (Inv_view_entry root fresh sql Inv_fresh (not_elem_of_empty _) Hres
                (events_of_view _ _ Hres)) as HI1.
  destruct (proj2 resolve_sound _ _ _ _ Hr HI1) as [_ (_ & _ & ext & Hlog)].
  { cbn. apply elem_of_union. left. by apply elem_of_singleton. }
  { intros d Hd. by exists sql. }
  assert (discovery (run_state r) = root :: fetched_views ext) as Hdisc.
  { unfold discovery. by rewrite Hlog. }
  assert (view_record root = Some (root, sql)) as Hrec.
  { unfold view_record. by rewrite Hres. }
  split; [by rewrite Hdisc|]. split.
  - rewrite (inv_ddl _ HI), Hdisc. cbn. by rewrite Hrec.
  - destruct (report_sections _ HI) as [-> _]. rewrite Hdisc, filter_cons.
    rewrite decide_True by (by rewrite Hrec). by rewrite reverse_cons, last_snoc.
Qed.

Lemma length_filter_fmap {A B} (f : A → B) (P : B → Prop)
    `{∀ y, Decision (P y)} (l : list A) :
  length (filter P (f <$> l)) = length (filter (λ x, P (f x)) l).
Proof.
  induction l as [|x l IH]; [done|]. rewrite fmap_cons, !filter_cons.
  destruct (decide (P (f x))); cbn; by rewrite IH.
Qed.

Lemma split_name_dbc n x :
  has_dot x = false → split_name n = ("dbc", x) → n = x ∨ n = "dbc." +:+ x.
Proof.
  intros Hx. unfold split_name. destruct (has_dot n) eqn:Hn.
  - destruct (split_first_dot_spec n Hn) as (schema & rest & -> & _ & ->).
    intros [= -> ->]. by right.
  - intros [= ->]. by left.
Qed.

(** X7: a name without a dot and the same name qualified by ["dbc."]
    are split into the same schema and table, but they are two names
    for the [visited] set: when neither has a view definition and both
    are visited, [fetch_table_metadata] is called on that one table
    exactly twice, once for each name. *)
Theorem bare_and_qualified_names_alias fuel root r x :
  build_full_lineage fuel root fresh = Some r →
  has_dot x = false →
  view_absent x → view_absent ("dbc." +:+ x) →
  x ∈ visited (run_state r) → ("dbc." +:+ x) ∈ visited (run_state r) →
  split_name ("dbc." +:+ x) = split_name x
  ∧ split_name x = ("dbc", x)
  ∧ length (filter (λ p, p = ("dbc", x)) (fetched_tables (log (run_state r)))) = 2.
Proof.
  intros Hr Hdot Hv Hv' Hx Hx'. pose proof (build_Inv _ _ _ Hr) as HI.
  destruct (first_dot_split "dbc" x eq_refl) as [Hd Hs].
  change ("dbc" +:+ "." +:+ x) with ("dbc." +:+ x) in *.
  assert (split_name x = ("dbc", x)) as Hsx.
  { unfold split_name. by rewrite Hdot. }
  assert (split_name ("dbc." +:+ x) = ("dbc", x)) as Hsq.
  { unfold split_name. by rewrite Hd, Hs. }
  split; [by rewrite Hsx, Hsq|]. split; [done|].
  set (s := run_state r) in *.
  rewrite (inv_log s HI), fetched_tables_bind, length_filter_fmap.
  set (names := filter (λ n, falls_to_table n = true) (discovery s)).
  assert (filter (λ n, split_name n = ("dbc", x)) names ≡ₚ [x; "dbc." +:+ x])
    as ->; [|done].
  apply NoDup_Permutation.
  - apply NoDup_filter, NoDup_filter, (inv_nodup s HI).
  - apply NoDup_cons. split; [|apply NoDup_singleton].
    intros Heq%list_elem_of_singleton. rewrite <-Heq in Hd. congruence.
  - intros n. unfold names. rewrite !list_elem_of_filter, falls_to_table_spec.
    rewrite <-(inv_visited s HI). rewrite elem_of_cons, list_elem_of_singleton.
    split.
    + intros [Hn _]. by apply split_name_dbc.
    + intros [-> | ->]; done.
Qed.
End Resolver.

(** ** The dependency extractor *)



Lemma keyword_starts_word kw lit rest :
  lit = "from" ∨ lit = "join" → lower_string kw = lit →
  match kw +:+ rest with
  | String c _ => Re.is_word_char c = true
  | EmptyString => False
  end.
Proof.
  intros Hlit Hkw. destruct kw as [|c kw]; [by destruct Hlit as [-> | ->]|].
  cbn in Hkw. change (Re.is_word_char c = true).
  assert (Re.lower c = "f"%char ∨ Re.lower c = "j"%char) as Hc.
  { destruct Hlit as [-> | ->]; injection Hkw as Hc _; auto. }
  clear -Hc. destruct c as [[] [] [] [] [] [] [] []];
    vm_compute in Hc; vm_compute; destruct Hc as [Hc|Hc]; done.
Qed.





Lemma append_nil_r s : s +:+ "" = s.
Proof. induction s as [|c s IH]; [done|]. by rewrite append_cons, IH. Qed.

Lemma rev_app_rev_app s a b :
  String.rev_app (String.rev_app s a) b = String.rev_app a (s +:+ b).
Proof.
  revert a. induction s as [|c s IH]; intros a; [done|].
  cbn. by rewrite IH.
Qed.

Lemma rev_involutive s : String.rev (String.rev s) = s.
Proof.
  unfold String.rev. rewrite rev_app_rev_app. cbn. apply append_nil_r.
Qed.

Lemma string_forall_rev_app p s a :
  string_forall p (String.rev_app s a) = string_forall p s && string_forall p a.
Proof.
  revert a. induction s as [|c s IH]; intros a; [done|].
  cbn. rewrite IH. cbn. by destruct (p c), (string_forall p s).
Qed.

Lemma ident_not_space c : Re.is_ident_char c = true → Re.is_space_char c = false.
Proof. destruct c as [[] [] [] [] [] [] [] []]; vm_compute; done. Qed.

Lemma lstrip_ident s : string_forall Re.is_ident_char s = true → lstrip s = s.
Proof.
  destruct s as [|c s]; [done|]. cbn. intros [Hc _]%andb_true_iff.
  by rewrite (ident_not_space c Hc).
Qed.

(** [strip] does nothing to a captured identifier. *)
Lemma strip_ident s : string_forall Re.is_ident_char s = true → strip s = s.
Proof.
  intros H. unfold strip. rewrite (lstrip_ident s H).
  rewrite lstrip_ident; [apply rev_involutive|].
  unfold String.rev. by rewrite string_forall_rev_app, H.
Qed.

Lemma set_add_spec x (l : list string) :
  (NoDup l → NoDup (set_add x l)) ∧ ∀ d, d ∈ set_add x l ↔ d = x ∨ d ∈ l.
Proof.
  unfold set_add. destruct (decide (x ∈ l)) as [Hx|Hx]; split; try done.
  - intros d. split; [by right|]. by intros [->|].
  - intros Hl. apply NoDup_app. split; [done|]. split; [|apply NoDup_singleton].
    by intros y Hy ->%list_elem_of_singleton.
  - intros d. rewrite elem_of_app, list_elem_of_singleton. tauto.
Qed.

(** The insertion sequence of the set built by lines 66-70. *)
Lemma collected_spec (matches : list (string * string)) (acc : list string) :
  let collected :=
    foldl (λ deps '(g1, g2),
             foldl (λ deps item,
                      if decide (item = "") then deps
                      else set_add (strip item) deps)
                   deps [g1; g2])
          acc matches in
  (NoDup acc → NoDup collected)
  ∧ ∀ d, d ∈ collected
         ↔ d ∈ acc
           ∨ ∃ g1 g2, (g1, g2) ∈ matches
                      ∧ ((g1 ≠ "" ∧ d = strip g1) ∨ (g2 ≠ "" ∧ d = strip g2)).
Proof.
  revert acc. induction matches as [|[g1 g2] matches IH]; intros acc; cbn.
  - split; [done|]. intros d. split; [by left|]. intros [|(? & ? & H & _)]; [done|].
    by apply elem_of_nil in H.
  - set (acc1 := if decide (g1 = "") then acc else set_add (strip g1) acc).
    set (acc2 := if decide (g2 = "") then acc1 else set_add (strip g2) acc1).
    destruct (IH acc2) as [IHnd IHin]. cbn in IHnd, IHin.
    assert ((NoDup acc → NoDup acc1)
            ∧ ∀ d, d ∈ acc1 ↔ d ∈ acc ∨ (g1 ≠ "" ∧ d = strip g1)) as [Hnd1 Hin1].
    { unfold acc1. destruct (decide (g1 = "")) as [->|Hg].
      - split; [done|]. intros d. split; [by left|]. by intros [|[? _]].
      - destruct (set_add_spec (strip g1) acc) as [Hnd Hin]. split; [done|].
        intros d. rewrite Hin. split; [intros [->|]; auto|].
        intros [|[_ ->]]; auto. }
    assert ((NoDup acc1 → NoDup acc2)
            ∧ ∀ d, d ∈ acc2 ↔ d ∈ acc1 ∨ (g2 ≠ "" ∧ d = strip g2)) as [Hnd2 Hin2].
    { unfold acc2. destruct (decide (g2 = "")) as [->|Hg].
      - split; [done|]. intros d. split; [by left|]. by intros [|[? _]].
      - destruct (set_add_spec (strip g2) acc1) as [Hnd Hin]. split; [done|].
        intros d. rewrite Hin. split; [intros [->|]; auto|].
        intros [|[_ ->]]; auto. }
    split; [auto|]. intros d. rewrite IHin, Hin2, Hin1. split.
    + intros [[[H|H]|H]|(h1 & h2 & H & Hd)]; [by left| | |].
      * right. exists g1, g2. split; [left|by left].
      * right. exists g1, g2. split; [left|by right].
      * right. exists h1, h2. split; [by right|done].
    + intros [H|(h1 & h2 & [[= -> ->]|H]%elem_of_cons & Hd)]; [by do 3 left| |].
      * destruct Hd as [Hd|Hd]; [left; left; by right|left; by right].
      * right. by exists h1, h2.
Qed.

Lemma match_literal_complete lit kw rest :
  lower_string kw = lower_string lit →
  Re.match_literal lit (kw +:+ rest) = Some rest.
Proof.
  revert kw. induction lit as [|a lit IH]; intros [|c kw] H; try done.
  cbn in H. injection H as Hc Hkw. rewrite append_cons. cbn.
  rewrite decide_True by done. by apply IH.
Qed.

Lemma take_while_complete p run rest :
  string_forall p run = true →
  match rest with String c _ => p c = false | EmptyString => True end →
  Re.take_while p (run +:+ rest) = (run, rest).
Proof.
  intros Hrun Hrest. induction run as [|c run IH].
  - change ("" +:+ rest) with rest. destruct rest as [|c rest]; [done|].
    cbn. by rewrite Hrest.
  - cbn in Hrun. apply andb_true_iff in Hrun as [Hc Hrun].
    rewrite append_cons. cbn. rewrite Hc. by rewrite (IH Hrun).
Qed.

Lemma ident_run_starts_nonspace d rest :
  d ≠ "" → string_forall Re.is_ident_char d = true →
  match d +:+ rest with
  | String c _ => Re.is_space_char c = false
  | EmptyString => True
  end.
Proof.
  destruct d as [|c d]; [done|]. intros _ [Hc _]%andb_true_iff.
  by apply ident_not_space.
Qed.

Lemma match_clause_complete lit prev kw ws d post :
  lower_string kw = lower_string lit →
  Re.word_boundary prev (kw +:+ ws +:+ d +:+ post) = true →
  ws ≠ "" → string_forall Re.is_space_char ws = true →
  d ≠ "" → string_forall Re.is_ident_char d = true →
  match post with String c _ => Re.is_ident_char c = false | EmptyString => True end →
  Re.match_clause lit prev (kw +:+ ws +:+ d +:+ post) = Some (d, post).
Proof.
  intros Hkw Hb Hws Hsp Hd Hid Hpost. unfold Re.match_clause. rewrite Hb.
  rewrite (match_literal_complete lit kw _ Hkw).
  rewrite (take_while_complete Re.is_space_char ws (d +:+ post) Hsp
             (ident_run_starts_nonspace d post Hd Hid)).
  rewrite decide_False by done.
  rewrite (take_while_complete Re.is_ident_char d post Hid Hpost).
  by rewrite decide_False.
Qed.

Lemma match_literal_initial lit c r rest :
  Re.match_literal lit (String c r) = Some rest →
  match lit with String a _ => Re.lower a = Re.lower c | EmptyString => True end.
Proof.
  destruct lit as [|a lit]; [done|]. cbn.
  by destruct (decide (Re.lower a = Re.lower c)).
Qed.

Lemma append_assoc (a b c : string) : (a +:+ b) +:+ c = a +:+ b +:+ c.
Proof. induction a as [|x a IH]; [done|]. by rewrite !append_cons, IH. Qed.














(** ** The scan on sample texts *)

Example findall_from_and_join :
  Re.findall "SELECT * FROM sales.orders o JOIN  dbc.x ON o.a = x.b"
  = [("sales.orders", ""); ("", "dbc.x")].
Proof. reflexivity. Qed.

Example findall_needs_word_boundary :
  Re.findall "SELECT xFROM t, _JOIN k, FROMAGE y" = [].
Proof. reflexivity. Qed.

Example findall_does_not_overlap :
  Re.findall "select 1 from from y" = [("from", "")].
Proof. reflexivity. Qed.

Example findall_stops_at_punctuation :
  Re.findall "select 1 FROM a.b,c join (select 2)" = [("a.b", "")].
Proof. reflexivity. Qed.

Example extract_deduplicates :
  extract_dependencies id "select * from T join t on 1 = 1 join T on 2 = 2"
  = ["T"; "t"].
Proof. reflexivity. Qed.

(** ** The results on the sample catalogs *)


Lemma split_at_first_dot_only_witness :
  has_dot "a" = false
  ∧ split_name "a.b.c" = ("a", "b.c")
  ∧ ∀ s, fetched_tables (log (run_state (resolve_as_table chain_catalog "a.b.c" s)))
         = fetched_tables (log s) ++ [("a", "b.c")].
Proof.
  split; [reflexivity|].
  exact (split_at_first_dot_only chain_catalog "a" "b.c" eq_refl).
Defined.

Lemma schema_defaulting_witness :
  ("customers" ∉ visited fresh)
  ∧ view_absent chain_catalog "customers"
  ∧ ∃ r, build_full_lineage id chain_catalog 1 "customers" fresh = Some r
         ∧ fetched_tables (log (run_state r)) = [("dbc", "customers")].
Proof.
  assert ("customers" ∉ visited fresh) as Hn by apply not_elem_of_empty.
  assert (view_absent chain_catalog "customers") as Hv.
  { intros s. eexists _, _. split; [reflexivity|by left]. }
  split; [exact Hn|]. split; [exact Hv|].
  destruct (schema_defaulting id chain_catalog 0 "customers" fresh Hn Hv)
    as (r & Hr & Hbare & _).
  exists r. split; [exact Hr|]. exact (Hbare eq_refl).
Defined.

Lemma fallback_to_table_witness :
  view_absent chain_catalog "sales.orders"
  ∧ table_returns chain_catalog "sales.orders"
      (Some (sample_columns ["id"; "cid"; "total"]))
  ∧ ∃ s, build_full_lineage id chain_catalog 1 "sales.orders" fresh
         = Some (Returns tt s)
         ∧ dict_get "sales.orders" (table_metadata_dict s)
           = Some (sample_columns ["id"; "cid"; "total"])
         ∧ ddl_dict s = [].
Proof.
  assert (view_absent chain_catalog "sales.orders") as Hv.
  { intros s. eexists _, _. split; [reflexivity|by left]. }
  assert (table_returns chain_catalog "sales.orders"
            (Some (sample_columns ["id"; "cid"; "total"]))) as Ht.
  { intros s. eexists. reflexivity. }
  split; [exact Hv|]. split; [exact Ht|].
  destruct (fallback_to_table id chain_catalog _ _ Hv Ht) as [Hstep _].
  destruct (Hstep 0 fresh (not_elem_of_empty _)) as (s & Hs & _ & Hget & Hddl).
  exists s. split; [exact Hs|]. split; [exact Hget|exact Hddl].
Defined.

Lemma terminates_on_cycles_witness :
  closed id cycle_catalog {[ "A"; "B" ]}
  ∧ ∃ r, build_full_lineage id cycle_catalog 3 "A" fresh = Some r
         ∧ halted r = false
         ∧ length (filter (λ k, k = "A") (dict_keys (ddl_dict (run_state r)))) = 1
         ∧ length (filter (λ k, k = "B") (dict_keys (ddl_dict (run_state r)))) = 1.
Proof.
  assert (closed id cycle_catalog {[ "A"; "B" ]}) as Hcl.
  { apply closed_check_correct. vm_compute. reflexivity. }
  assert (no_stops cycle_catalog {[ "A"; "B" ]}) as Hns.
  { apply no_stops_check_correct. vm_compute. reflexivity. }
  split; [exact Hcl|].
  destruct (terminates_on_cycles id cycle_catalog {[ "A"; "B" ]} "A" Hcl)
    as (r & Hr & _ & _ & _ & Hh & Hcycle).
  { vm_compute. reflexivity. }
  exists r. split; [apply Hr; vm_compute; lia|]. split; [exact (Hh Hns)|].
  apply (Hcycle "B" (Hh Hns)).
  - exists "SELECT * FROM B". split; [reflexivity|]. vm_compute. left.
  - exists "select * from A". split; [reflexivity|]. vm_compute. left.
Defined.

Lemma diamond_dependency_witness :
  ∃ s, build_full_lineage id diamond_catalog 5 "A" fresh = Some (Returns tt s)
       ∧ length (filter (λ n, n = "D") (fetched_views (log s))) = 1
       ∧ edges (graph s)
         = list_to_set [("D", "B"); ("D", "C"); ("B", "A"); ("C", "A")]
       ∧ size (edges (graph s)) = 4.
Proof.
  destruct (diamond_dependency id diamond_catalog "A" "B" "C" "D"
              "SELECT * FROM B JOIN C ON B.k = C.k"
              "SELECT * FROM D" "SELECT * FROM D")
    as (s & Hs & Hcount & Hedges & _ & Hsize).
  - reflexivity.
  - intros d. change (d ∈ ["B"; "C"] ↔ d = "B" ∨ d = "C").
    rewrite !elem_of_cons, elem_of_nil. tauto.
  - reflexivity.
  - intros d. change (d ∈ ["D"] ↔ d = "D"). apply list_elem_of_singleton.
  - reflexivity.
  - intros d. change (d ∈ ["D"] ↔ d = "D"). apply list_elem_of_singleton.
  - intros d (sql & Hres & _). vm_compute in Hres. discriminate Hres.
  - vm_compute. discriminate.
  - exists s. split; [apply Hs; lia|]. split; [exact Hcount|].
    split; [exact Hedges|]. apply Hsize. discriminate.
Defined.

Lemma dangling_reference_witness :
  view_absent chain_catalog "ghost"
  ∧ table_returns chain_catalog "ghost" None
  ∧ ∃ s, build_full_lineage id chain_catalog 7 "A" fresh = Some (Returns tt s)
         ∧ "ghost" ∈ visited s
         ∧ ("ghost" ∉ dict_keys (ddl_dict s))
         ∧ ("ghost" ∉ dict_keys (table_metadata_dict s))
         ∧ dict_get "sales.orders" (table_metadata_dict s)
           = Some (sample_columns ["id"; "cid"; "total"]).
Proof.
  set (U := list_to_set ["A"; "B"; "C"; "sales.orders"; "customers"; "ghost"]
            : gset string).
  assert (view_absent chain_catalog "ghost") as Hv.
  { intros s. eexists _, _. split; [reflexivity|by left]. }
  assert (table_returns chain_catalog "ghost" None) as Ht.
  { intros s. eexists. reflexivity. }
  assert (closed id chain_catalog U) as Hcl.
  { apply closed_check_correct. vm_compute. reflexivity. }
  assert (no_stops chain_catalog U) as Hns.
  { apply no_stops_check_correct. vm_compute. reflexivity. }
  assert (reachable id chain_catalog "A" "C") as HC.
  { eapply rtc_l; [exists "SELECT * FROM B"; split; [reflexivity|vm_compute; left]|].
    apply rtc_once. exists "SELECT * FROM C". split; [reflexivity|vm_compute; left]. }
  split; [exact Hv|]. split; [exact Ht|].
  destruct (dangling_reference id chain_catalog U "A" "ghost" Hcl) as
    (r & Hr & Hddl & Htab & Hret); [vm_compute; reflexivity|exact Hv|exact Ht|].
  destruct (Hret Hns) as (s & -> & Hvis & _ & Hrest).
  exists s. split; [apply Hr; vm_compute; lia|].
  split; [|split; [exact Hddl|split; [exact Htab|]]].
  - apply Hvis. eapply rtc_r; [exact HC|].
    eexists. split; [reflexivity|]. vm_compute. do 2 right. left.
  - apply Hrest; [|reflexivity]. eapply rtc_r; [exact HC|].
    eexists. split; [reflexivity|]. vm_compute. left.
Defined.

Lemma graph_nodes_are_edge_endpoints_witness :
  closed id chain_catalog {[ "sales.orders" ]}
  ∧ no_stops chain_catalog {[ "sales.orders" ]}
  ∧ ∃ s, build_full_lineage id chain_catalog 2 "sales.orders" fresh
         = Some (Returns tt s)
         ∧ nodes (graph s) = ∅.
Proof.
  assert (closed id chain_catalog {[ "sales.orders" ]}) as Hcl.
  { apply closed_check_correct. vm_compute. reflexivity. }
  assert (no_stops chain_catalog {[ "sales.orders" ]}) as Hns.
  { apply no_stops_check_correct. vm_compute. reflexivity. }
  split; [exact Hcl|]. split; [exact Hns|].
  destruct (graph_nodes_are_edge_endpoints id chain_catalog _ "sales.orders" Hcl)
    as (s & Hs & _ & _ & _ & Hempty); [vm_compute; reflexivity|exact Hns|].
  exists s. split; [apply Hs; vm_compute; lia|].
  apply Hempty. intros d (sql & Hres & _). vm_compute in Hres. discriminate Hres.
Defined.

Lemma query_errors_absorbed_witness :
  closed id failing_catalog (list_to_set ["A"; "B"; "C"; "D"])
  ∧ ∃ r, build_full_lineage id failing_catalog 5 "A" fresh = Some r
         ∧ halted r = false
         ∧ "C" ∈ visited (run_state r)
         ∧ StError "Error fetching view definition: syntax error"
             ∈ log (run_state r)
         ∧ ("B" ∉ dict_keys (ddl_dict (run_state r))).
Proof.
  set (U := list_to_set ["A"; "B"; "C"; "D"] : gset string).
  assert (closed id failing_catalog U) as Hcl.
  { apply closed_check_correct. vm_compute. reflexivity. }
  assert (no_stops failing_catalog U) as Hns.
  { apply no_stops_check_correct. vm_compute. reflexivity. }
  split; [exact Hcl|].
  destruct (query_errors_absorbed id failing_catalog U "A" Hcl)
    as (r & Hr & _ & Hh & Hreach & Hview & _); [vm_compute; reflexivity|].
  exists r. split; [apply Hr; vm_compute; lia|]. split; [exact (Hh Hns)|].
  assert (references id failing_catalog "A" "B") as HAB.
  { eexists. split; [reflexivity|]. vm_compute. left. }
  assert (references id failing_catalog "A" "C") as HAC.
  { eexists. split; [reflexivity|]. vm_compute. right. left. }
  split; [apply (Hreach (Hh Hns)); apply rtc_once; exact HAC|].
  refine (let H := Hview "B" "syntax error" _ eq_refl in
          conj (proj1 H) (proj1 (proj2 H))).
  apply (Hreach (Hh Hns)). apply rtc_once. exact HAB.
Defined.

Lemma report_order_chain_witness :
  ∃ s, build_full_lineage id chain_catalog 7 "A" fresh = Some (Returns tt s)
       ∧ view_section (report s) = ["C"; "B"; "A"]
       ∧ table_section (report s)
         = filter (λ n, is_Some (table_record chain_catalog n)) (discovery s).
Proof.
  destruct (report_order_chain id chain_catalog "A" "B" "C"
              "SELECT * FROM B" "SELECT * FROM C"
              "SELECT o.id FROM sales.orders o JOIN customers c ON o.cid = c.id JOIN ghost g ON 1 = 1")
    as (s & Hs & _ & Hviews & _ & Htables); try reflexivity; try discriminate.
  - intros d Hd. change (d ∈ ["sales.orders"; "customers"; "ghost"]) in Hd.
    rewrite !elem_of_cons, elem_of_nil in Hd.
    destruct Hd as [->|[->|[->|[]]]]; split; (reflexivity || discriminate).
  - exists s. split; [apply Hs; vm_compute; lia|]. split; [exact Hviews|exact Htables].
Defined.

(** The report of the chain lists the views as [C], [B], [A], not
    root first. *)
Lemma report_order_counterexample :
  ∃ s, build_full_lineage id chain_catalog 7 "A" fresh = Some (Returns tt s)
       ∧ view_section (report s) = ["C"; "B"; "A"]
       ∧ view_section (report s) ≠ ["A"; "B"; "C"].
Proof.
  eexists. split; [vm_compute; reflexivity|]. split; [reflexivity|discriminate].
Qed.

(** A root that resolves as a base table is recorded in
    [table_metadata_dict] but is not a node of the graph. *)
Lemma root_table_not_a_node_counterexample :
  ∃ s, build_full_lineage id chain_catalog 2 "sales.orders" fresh
       = Some (Returns tt s)
       ∧ dict_keys (table_metadata_dict s) = ["sales.orders"]
       ∧ ("sales.orders" ∉ nodes (graph s)).
Proof.
  eexists. split; [vm_compute; reflexivity|]. split; [reflexivity|].
  apply not_elem_of_empty.
Qed.

(** When the connection cannot be opened at [B], the script is stopped:
    the sibling [C], next in this iteration order, is never visited and
    the caller gets no report. *)
Lemma connection_loss_halts_counterexample :
  ∃ s, build_full_lineage id offline_catalog 5 "A" fresh = Some (Halts s)
       ∧ ("C" ∉ visited s)
       ∧ generate_lineage id offline_catalog 5 true "A" = Some (Halts s)
       ∧ ¬ ∃ s', build_full_lineage id offline_catalog 5 "A" fresh
                 = Some (Returns tt s').
Proof.
  eexists. split; [vm_compute; reflexivity|]. split; [|split].
  - vm_compute. discriminate.
  - vm_compute. reflexivity.
  - intros [s' Hs']. vm_compute in Hs'. discriminate Hs'.
Qed.

(** ** The first clause of a text is always found *)

Lemma match_pattern_initial prev c r m :
  Re.match_pattern prev (String c r) = Some m →
  Re.lower c = "f"%char ∨ Re.lower c = "j"%char.
Proof.
  unfold Re.match_pattern, Re.match_clause.
  destruct (Re.word_boundary prev (String c r)); [|done].
  destruct (Re.match_literal "FROM" (String c r)) as [r1|] eqn:H1.
  { apply match_literal_initial in H1. left. by rewrite <-H1. }
  destruct (Re.match_literal "JOIN" (String c r)) as [r2|] eqn:H2; [|done].
  apply match_literal_initial in H2. right. by rewrite <-H2.
Qed.

Lemma findall_from_skip_prefix prev pre s :
  string_forall
    (λ c, negb (bool_decide (Re.lower c = "f"%char ∨ Re.lower c = "j"%char)))
    pre = true →
  Re.findall_from prev 0 (pre +:+ s) = Re.findall_from (string_last prev pre) 0 s.
Proof.
  revert prev. induction pre as [|c pre IH]; intros prev H; [done|].
  cbn in H. apply andb_true_iff in H as [Hc H].
  apply negb_true_iff, bool_decide_eq_false in Hc.
  rewrite append_cons. cbn [Re.findall_from string_last].
  destruct (Re.match_pattern prev (String c (pre +:+ s))) as [m|] eqn:Hm.
  { by apply match_pattern_initial in Hm. }
  by apply IH.
Qed.

(** X6: on ASCII text the extractor never misses the first clause:
    when the text before an occurrence of FROM or JOIN (in any letter
    case, not continuing a word, followed by whitespace and a maximal
    run [d] of word characters and dots) contains no letter F or J,
    then [d] is among the extracted dependencies. *)
Theorem first_clause_is_extracted (order : list string → list string)
    (pre kw ws d post : string) :
  ascii_text (pre +:+ kw +:+ ws +:+ d +:+ post) →
  (∀ l, order l ≡ₚ l) →
  lower_string kw = "from" ∨ lower_string kw = "join" →
  string_forall
    (λ c, negb (bool_decide (Re.lower c = "f"%char ∨ Re.lower c = "j"%char)))
    pre = true →
  match string_last None pre with
  | Some c => Re.is_word_char c = false
  | None => True
  end →
  ws ≠ "" → string_forall Re.is_space_char ws = true →
  d ≠ "" → string_forall Re.is_ident_char d = true →
  match post with String c _ => Re.is_ident_char c = false | EmptyString => True end →
  d ∈ extract_dependencies order (pre +:+ kw +:+ ws +:+ d +:+ post).
Proof.
  intros _ Hord Hkw Hpre Hlast Hws Hsp Hd Hid Hpost.
  set (s := kw +:+ ws +:+ d +:+ post).
  assert (Re.word_boundary (string_last None pre) s = true) as Hb.
  { pose proof (keyword_starts_word kw _ (ws +:+ d +:+ post) Hkw eq_refl) as Hw.
    unfold Re.word_boundary. fold s in Hw. destruct s as [|c0 s0]; [done|].
    rewrite Hw. by destruct (string_last None pre) as [c|]; [rewrite Hlast|]. }
  assert (∃ g1 g2, (g1, g2) ∈ Re.findall (pre +:+ s)
                   ∧ ((g1 ≠ "" ∧ d = strip g1) ∨ (g2 ≠ "" ∧ d = strip g2)))
    as (g1 & g2 & Hg & Hgd).
  { unfold Re.findall. rewrite findall_from_skip_prefix by done.
    assert (∃ g1 g2, Re.match_pattern (string_last None pre) s = Some (g1, g2, post)
                     ∧ ((g1 ≠ "" ∧ d = strip g1) ∨ (g2 ≠ "" ∧ d = strip g2)))
      as (g1 & g2 & Hm & Hgd).
    { unfold Re.match_pattern. destruct Hkw as [Hkw|Hkw].
      - exists d, "". unfold s.
        rewrite (match_clause_complete "FROM" _ kw ws d post) by done.
        split; [done|]. left. split; [done|]. symmetry. by apply strip_ident.
      - exists "", d.
        assert (Re.match_clause "FROM" (string_last None pre) s = None) as ->.
        { unfold Re.match_clause. destruct (Re.word_boundary _ s); [|done].
          destruct (Re.match_literal "FROM" s) as [r1|] eqn:H1; [|done].
          exfalso. unfold s in H1. destruct kw as [|c kw]; [done|].
          rewrite append_cons in H1. apply match_literal_initial in H1.
          cbn in Hkw. injection Hkw as Hc _. rewrite Hc in H1. done. }
        unfold s. rewrite (match_clause_complete "JOIN" _ kw ws d post) by done.
        split; [done|]. right. split; [done|]. symmetry. by apply strip_ident. }
    exists g1, g2. split; [|done].
    assert (s ≠ "") as Hs.
    { unfold s. destruct kw as [|c kw]; [by destruct Hkw|done]. }
    destruct s as [|c0 s0]; [done|]. cbn [Re.findall_from]. rewrite Hm. left. }
  unfold extract_dependencies. rewrite Hord.
  apply (collected_spec (Re.findall (pre +:+ s)) []).
  right. by exists g1, g2.
Qed.

Lemma first_clause_is_extracted_witness :
  "sales.orders" ∈ extract_dependencies id "SELECT * From  sales.orders o".
Proof.
  apply (first_clause_is_extracted id "SELECT * " "From" "  " "sales.orders" " o");
    try reflexivity; try discriminate.
  by left.
Defined.

(** ** The further properties on the sample catalogs *)

Lemma records_are_catalog_answers_witness :
  ∃ r, build_full_lineage id chain_catalog 7 "A" fresh = Some r
       ∧ ∀ k sql, dict_get k (ddl_dict (run_state r)) = Some sql →
           reachable id chain_catalog "A" k ∧ sql ≠ ""
           ∧ view_query chain_catalog k = QueryRows (Some sql).
Proof.
  destruct (build_full_lineage id chain_catalog 7 "A" fresh) as [r|] eqn:Hr;
    [|vm_compute in Hr; discriminate Hr].
  exists r. split; [reflexivity|].
  exact (proj1 (records_are_catalog_answers id chain_catalog 7 "A" r Hr)).
Defined.

Lemma edges_point_to_views_witness :
  ∃ r, build_full_lineage id chain_catalog 7 "A" fresh = Some r
       ∧ ("sales.orders", "C") ∈ edges (graph (run_state r))
       ∧ ("C" ∉ dict_keys (table_metadata_dict (run_state r)))
       ∧ ∃ sql, dict_get "C" (ddl_dict (run_state r)) = Some sql
                ∧ "sales.orders" ∈ extract_dependencies id sql.
Proof.
  eexists. split; [vm_compute; reflexivity|].
  match goal with |- ?e ∈ edges (graph (run_state ?r)) ∧ _ =>
    assert (e ∈ edges (graph (run_state r))) as Hedge by (vm_compute; reflexivity);
    destruct (edges_point_to_views id chain_catalog 7 "A" r "sales.orders" "C")
      as (Hsql & Htab & _); [vm_compute; reflexivity|exact Hedge|]
  end.
  split; [exact Hedge|]. split; [exact Htab|exact Hsql].
Defined.

Lemma one_lookup_per_name_witness :
  ∃ r, build_full_lineage id chain_catalog 7 "A" fresh = Some r
       ∧ NoDup (fetched_views (log (run_state r)))
       ∧ length (fetched_views (log (run_state r))) = size (visited (run_state r)).
Proof.
  destruct (build_full_lineage id chain_catalog 7 "A" fresh) as [r|] eqn:Hr;
    [|vm_compute in Hr; discriminate Hr].
  exists r. split; [reflexivity|].
  destruct (one_lookup_per_name id chain_catalog 7 "A" r Hr) as (H1 & _ & H2 & _).
  split; [exact H1|exact H2].
Defined.

Lemma advisories_come_from_failures_witness :
  ∃ r, build_full_lineage id failing_catalog 5 "A" fresh = Some r
       ∧ StError "Error fetching view definition: syntax error" ∈ log (run_state r)
       ∧ ∃ n, n ∈ visited (run_state r)
              ∧ view_query failing_catalog n = QueryRaises "syntax error".
Proof.
  eexists. split; [vm_compute; reflexivity|].
  match goal with |- ?e ∈ log (run_state ?r) ∧ _ =>
    assert (e ∈ log (run_state r)) as Hin
      by (apply list_elem_of_In; vm_compute; tauto);
    destruct (advisories_come_from_failures id failing_catalog 5 "A" r _
                ltac:(vm_compute; reflexivity) Hin) as (n & Hn & Hcase)
  end.
  split; [exact Hin|]. exists n. split; [exact Hn|].
  destruct Hcase as [(e & _ & He)|[(e & Hq & He)|[(e & _ & He)|(e & _ & He)]]];
    vm_compute in He; try discriminate He.
  injection He as <-. exact Hq.
Defined.

Lemma no_definitions_warning_witness :
  closed id chain_catalog {[ "ghost" ]}
  ∧ no_stops chain_catalog {[ "ghost" ]}
  ∧ ∃ s, generate_lineage id chain_catalog 2 true "ghost"
         = Some (Returns (Some NoDefinitionsWarning) s).
Proof.
  assert (closed id chain_catalog {[ "ghost" ]}) as Hcl.
  { apply closed_check_correct. vm_compute. reflexivity. }
  assert (no_stops chain_catalog {[ "ghost" ]}) as Hns.
  { apply no_stops_check_correct. vm_compute. reflexivity. }
  split; [exact Hcl|]. split; [exact Hns|].
  destruct (no_definitions_warning id chain_catalog _ "ghost" true Hcl)
    as (rep & s & Hs & _ & _ & Hrep & _); [vm_compute; reflexivity|exact Hns|].
  exists s. rewrite (Hs 2) by (vm_compute; lia).
  assert (rep = Some NoDefinitionsWarning) as ->; [|reflexivity].
  apply Hrep. split; [reflexivity|]. split; [discriminate|reflexivity].
Defined.

Lemma root_view_listed_last_witness :
  ∃ r, build_full_lineage id diamond_catalog 5 "A" fresh = Some r
       ∧ last (view_section (report (run_state r))) = Some "A".
Proof.
  destruct (build_full_lineage id diamond_catalog 5 "A" fresh) as [r|] eqn:Hr;
    [|vm_compute in Hr; discriminate Hr].
  exists r. split; [reflexivity|].
  exact (proj2 (proj2 (root_view_listed_last id diamond_catalog 5 "A" r
                         "SELECT * FROM B JOIN C ON B.k = C.k" Hr eq_refl))).
Defined.

Lemma bare_and_qualified_names_alias_witness :
  ∃ r, build_full_lineage id alias_catalog 3 "A" fresh = Some r
       ∧ fetched_tables (log (run_state r))
         = [("dbc", "customers"); ("dbc", "customers")]
       ∧ length (filter (λ p, p = ("dbc", "customers"))
                   (fetched_tables (log (run_state r)))) = 2.
Proof.
  eexists. split; [vm_compute; reflexivity|].
  split; [reflexivity|].
  match goal with |- length (filter _ (fetched_tables (log (run_state ?r)))) = _ =>
    refine (proj2 (proj2 (bare_and_qualified_names_alias id alias_catalog 3 "A" r
                            "customers" _ eq_refl _ _ _ _)))
  end.
  - vm_compute. reflexivity.
  - intros s. eexists _, _. split; [reflexivity|by left].
  - intros s. eexists _, _. split; [reflexivity|by left].
  - vm_compute. reflexivity.
  - vm_compute. reflexivity.
Defined.

(** ** Strings: append, reversal and stripping *)

Lemma rev_app_spec s acc : String.rev_app s acc = String.rev s +:+ acc.
Proof.
  unfold String.rev. revert acc. induction s as [|c s IH]; intros acc; [done|].
  cbn. rewrite (IH (String c acc)), (IH (String c "")).
  by rewrite append_assoc.
Qed.

Lemma rev_append a b : String.rev (a +:+ b) = String.rev b +:+ String.rev a.
Proof.
  induction a as [|c a IH].
  - change ("" +:+ b) with b. by rewrite append_nil_r.
  - rewrite append_cons. unfold String.rev in *. cbn.
    rewrite (rev_app_spec (a +:+ b)), (rev_app_spec a). unfold String.rev.
    by rewrite IH, append_assoc.
Qed.

Lemma lstrip_spaces ws x :
  string_forall Re.is_space_char ws = true → lstrip (ws +:+ x) = lstrip x.
Proof.
  induction ws as [|c ws IH]; [done|]. cbn. intros [Hc Hws]%andb_true_iff.
  rewrite append_cons. cbn. rewrite Hc. by apply IH.
Qed.

Lemma lstrip_before_spaces t ws :
  string_forall Re.is_space_char ws = true →
  lstrip (t +:+ ws) = if decide (lstrip t = "") then "" else lstrip t +:+ ws.
Proof.
  intros Hws. induction t as [|c t IH].
  - change ("" +:+ ws) with ws. cbn.
    rewrite <-(append_nil_r ws). by rewrite lstrip_spaces.
  - rewrite append_cons. cbn. destruct (Re.is_space_char c); [done|].
    by rewrite decide_False.
Qed.

(** [strip] ignores whitespace added at either end. *)
Lemma strip_pad ws1 t ws2 :
  string_forall Re.is_space_char ws1 = true →
  string_forall Re.is_space_char ws2 = true →
  strip (ws1 +:+ t +:+ ws2) = strip t.
Proof.
  intros H1 H2. unfold strip. rewrite lstrip_spaces by done.
  rewrite lstrip_before_spaces by done.
  destruct (decide (lstrip t = "")) as [->|Hne]; [done|].
  rewrite rev_append, lstrip_spaces; [done|].
  unfold String.rev. by rewrite string_forall_rev_app, H2.
Qed.

(** ** Type mappings of the script generator *)

Lemma dict_get_set_ne {V} k k' (v : V) d :
  k ≠ k' → dict_get k' (dict_set k v d) = dict_get k' d.
Proof.
  intros Hne. induction d as [|[k0 v0] d IH]; cbn.
  - by rewrite decide_False.
  - destruct (decide (k0 = k)) as [->|Hk0]; cbn.
    + by rewrite !decide_False.
    + destruct (decide (k0 = k')); [done|]. exact IH.
Qed.

Lemma invert_from acc d v :
  dict_get v (foldl (λ acc '(k, v), dict_set v k acc) acc d)
  = match ScriptGenerator.last_key_of v d with
    | Some k => Some k
    | None => dict_get v acc
    end.
Proof.
  unfold ScriptGenerator.last_key_of.
  revert acc. induction d as [|[k w] d IH]; intros acc; [done|].
  cbn [foldl]. rewrite IH, filter_cons. cbn [snd].
  destruct (decide (w = v)) as [->|Hne].
  - rewrite last_cons. destruct (last (filter _ d)) as [[k' w']|]; [done|].
    cbn. apply dict_get_set.
  - destruct (last (filter _ d)) as [[k' w']|]; [done|].
    cbn. by apply dict_get_set_ne.
Qed.

(** X9: the inverted dictionary built by the comprehension
    [{v: k for k, v in d.items()}] maps a value to the last key of [d]
    that carries it, and has no entry for a value that [d] does not
    carry: where two keys share a value, the earlier key is lost. *)
Theorem invert_keeps_last_key (d : dict string) (v : string) :
  dict_get v (ScriptGenerator.invert d) = ScriptGenerator.last_key_of v d.
Proof.
  unfold ScriptGenerator.invert. rewrite invert_from.
  by destruct (ScriptGenerator.last_key_of v d).
Qed.

Ltac mapping_cases H :=
  match type of H with
  | _ ∈ dict_keys ?d =>
      let d' := eval vm_compute in d in
      change d with d' in H; unfold dict_keys in H; cbn in H;
      repeat (apply elem_of_cons in H as [->|H]);
      [..|by apply elem_of_nil in H]
  end.

(** X10: mapping a column type to a target platform and back gives
    the type again for every type of the mapping tables, in all six
    directions, with one exception: Teradata ["CF"] comes back as
    ["CV"], because both map to the same target type. *)
Theorem type_mapping_round_trip (source target t : string) :
  t ∈ dict_keys (ScriptGenerator.get_mapping source target) →
  ScriptGenerator.map_column_type
    (ScriptGenerator.map_column_type t (ScriptGenerator.get_mapping source target))
    (ScriptGenerator.get_mapping target source)
  = if decide (t = "CF") then "CV" else t.
Proof.
  unfold ScriptGenerator.get_mapping at 1 2.
  repeat (destruct (decide (source = _ ∧ target = _)) as [[-> ->]|_];
          [intros Ht; mapping_cases Ht; vm_compute; reflexivity|]).
  intros Ht. by apply elem_of_nil in Ht.
Qed.

Lemma type_mapping_round_trip_witness :
  "CF" ∈ dict_keys (ScriptGenerator.get_mapping "Teradata" "Databricks")
  ∧ ScriptGenerator.map_column_type
      (ScriptGenerator.map_column_type "CF"
         (ScriptGenerator.get_mapping "Teradata" "Databricks"))
      (ScriptGenerator.get_mapping "Databricks" "Teradata")
    = "CV".
Proof.
  assert ("CF" ∈ dict_keys (ScriptGenerator.get_mapping "Teradata" "Databricks"))
    as H by (vm_compute; left).
  split; [exact H|].
  exact (type_mapping_round_trip "Teradata" "Databricks" "CF" H).
Defined.

(** X11: for a Teradata column type of the table, padded or not, going
    to Azure SQL and from there to Databricks gives the same type as
    going to Databricks directly. *)
Theorem type_mappings_compose (t : string) :
  strip t ∈ dict_keys ScriptGenerator.teradata_to_azure →
  ScriptGenerator.map_column_type
    (ScriptGenerator.map_column_type t
       (ScriptGenerator.get_mapping "Teradata" "Azure SQL DB"))
    (ScriptGenerator.get_mapping "Azure SQL DB" "Databricks")
  = ScriptGenerator.map_column_type t
      (ScriptGenerator.get_mapping "Teradata" "Databricks").
Proof.
  intros Ht. unfold ScriptGenerator.map_column_type at 2 3.
  remember (strip t) as k eqn:Hk. clear Hk.
  mapping_cases Ht; vm_compute; reflexivity.
Qed.

Lemma type_mappings_compose_witness :
  strip "TS " ∈ dict_keys ScriptGenerator.teradata_to_azure
  ∧ ScriptGenerator.map_column_type "TS "
      (ScriptGenerator.get_mapping "Teradata" "Databricks")
    = "TIMESTAMP"
  ∧ ScriptGenerator.map_column_type
      (ScriptGenerator.map_column_type "TS "
         (ScriptGenerator.get_mapping "Teradata" "Azure SQL DB"))
      (ScriptGenerator.get_mapping "Azure SQL DB" "Databricks")
    = "TIMESTAMP".
Proof.
  assert (strip "TS " ∈ dict_keys ScriptGenerator.teradata_to_azure) as H.
  { vm_compute. do 5 right. left. }
  split; [exact H|]. split; [reflexivity|].
  rewrite (type_mappings_compose "TS " H). reflexivity.
Defined.

(** X12: when source and target are the same platform, or one of them
    is not one of the three known platforms, the mapping is empty and
    every column type is returned as it is. *)
Theorem same_platform_keeps_types (source target column_type : string) :
  source = target
  ∨ source ∉ ["Teradata"; "Azure SQL DB"; "Databricks"]
  ∨ target ∉ ["Teradata"; "Azure SQL DB"; "Databricks"] →
  ScriptGenerator.get_mapping source target = []
  ∧ ScriptGenerator.map_column_type column_type
      (ScriptGenerator.get_mapping source target) = column_type.
Proof.
  intros H.
  assert (ScriptGenerator.get_mapping source target = []) as ->; [|done].
  unfold ScriptGenerator.get_mapping.
  repeat (destruct (decide (source = _ ∧ target = _)) as [[-> ->]|_];
          [exfalso; destruct H as [H|[H|H]];
           [discriminate H|apply H; set_solver..]|]).
  done.
Qed.

Lemma same_platform_keeps_types_witness :
  ScriptGenerator.map_column_type "CV "
    (ScriptGenerator.get_mapping "Teradata" "Teradata") = "CV ".
Proof.
  exact (proj2 (same_platform_keeps_types "Teradata" "Teradata" "CV "
                  (or_introl eq_refl))).
Defined.

(** X13: the lookup of an ASCII column type ignores whitespace around
    it: a padded type that is in the mapping gets the same mapped type
    as the bare one, and a type that is not in the mapping is returned
    with its padding. *)
Theorem mapping_ignores_padding (mapping_dict : dict string) (ws1 t ws2 : string) :
  ascii_text t →
  string_forall Re.is_space_char ws1 = true →
  string_forall Re.is_space_char ws2 = true →
  (strip t ∈ dict_keys mapping_dict →
     ScriptGenerator.map_column_type (ws1 +:+ t +:+ ws2) mapping_dict
     = ScriptGenerator.map_column_type t mapping_dict)
  ∧ (strip t ∉ dict_keys mapping_dict →
       ScriptGenerator.map_column_type (ws1 +:+ t +:+ ws2) mapping_dict
       = ws1 +:+ t +:+ ws2).
Proof.
  intros _ H1 H2. unfold ScriptGenerator.map_column_type.
  rewrite strip_pad by done. split; intros Hk.
  - destruct (dict_get (strip t) mapping_dict) as [v|] eqn:Hget; [done|].
    exfalso. unfold dict_keys in Hk. clear -Hk Hget.
    induction mapping_dict as [|[k v] d IH]; [by apply elem_of_nil in Hk|].
    cbn in *. destruct (decide (k = strip t)); [done|].
    apply elem_of_cons in Hk as [|Hk]; [done|]. by apply IH.
  - destruct (dict_get (strip t) mapping_dict) as [v|] eqn:Hget; [|done].
    exfalso. apply Hk. apply dict_get_Some_elem in Hget.
    apply list_elem_of_fmap. by exists (strip t, v).
Qed.

Lemma mapping_ignores_padding_witness :
  ScriptGenerator.map_column_type (" " +:+ "I" +:+ "  ")
    ScriptGenerator.teradata_to_azure = "INT"
  ∧ ScriptGenerator.map_column_type (" " +:+ "F" +:+ "  ")
      ScriptGenerator.teradata_to_azure = " F  ".
Proof.
  destruct (mapping_ignores_padding ScriptGenerator.teradata_to_azure " " "I" "  "
              eq_refl eq_refl eq_refl) as [Hin _].
  destruct (mapping_ignores_padding ScriptGenerator.teradata_to_azure " " "F" "  "
              eq_refl eq_refl eq_refl) as [_ Hout].
  split.
  - rewrite Hin; [reflexivity|]. vm_compute. do 3 right. left.
  - rewrite Hout; [reflexivity|]. intros H. apply list_elem_of_In in H.
    vm_compute in H. intuition discriminate.
Defined.

(** ** The DDL script *)

Lemma concat_cons_ne sep x xs :
  xs ≠ [] → String.concat sep (x :: xs) = x +:+ sep +:+ String.concat sep xs.
Proof. by destruct xs. Qed.

Lemma string_forall_rev p s :
  string_forall p (String.rev s) = string_forall p s.
Proof.
  unfold String.rev. rewrite string_forall_rev_app. cbn.
  by destruct (string_forall p s).
Qed.

Lemma lstrip_of_prefix p z x :
  string_forall p z = true →
  ScriptGenerator.lstrip_of p (z +:+ x) = ScriptGenerator.lstrip_of p x.
Proof.
  induction z as [|c z IH]; [done|]. cbn. intros [Hc Hz]%andb_true_iff.
  rewrite append_cons. cbn. rewrite Hc. by apply IH.
Qed.

(** [rstrip] removes exactly the trailing characters of the set. *)
Lemma rstrip_of_spec p y c z :
  p c = false → string_forall p z = true →
  ScriptGenerator.rstrip_of p (y +:+ String c z) = y +:+ String c "".
Proof.
  intros Hc Hz. unfold ScriptGenerator.rstrip_of.
  rewrite rev_append. change (String c z) with (String c "" +:+ z).
  rewrite rev_append, append_assoc.
  rewrite lstrip_of_prefix by (by rewrite string_forall_rev).
  change (String.rev (String c "")) with (String c "").
  rewrite append_cons. change ("" +:+ String.rev y) with (String.rev y).
  cbn [ScriptGenerator.lstrip_of]. rewrite Hc.
  change (String c (String.rev y)) with (String c "" +:+ String.rev y).
  by rewrite rev_append, rev_involutive.
Qed.

Lemma column_line_text row :
  ∃ y, ScriptGenerator.column_text row = y +:+ "L"
       ∧ ScriptGenerator.column_line row = y +:+ "L,"
       ∧ ScriptGenerator.column_line row = ScriptGenerator.column_text row +:+ ",".
Proof.
  unfold ScriptGenerator.column_line, ScriptGenerator.column_text,
    ScriptGenerator.nullable_clause.
  destruct (decide (ScriptGenerator.Nullable row = "Y")).
  - exists ("  " +:+ ScriptGenerator.ColumnName row +:+ " "
            +:+ ScriptGenerator.MappedDataType row +:+ " " +:+ "NUL").
    by rewrite !append_assoc.
  - exists ("  " +:+ ScriptGenerator.ColumnName row +:+ " "
            +:+ ScriptGenerator.MappedDataType row +:+ " " +:+ "NOT NUL").
    by rewrite !append_assoc.
Qed.

Lemma ddl_body rows row :
  String.concat ScriptGenerator.newline
    ((ScriptGenerator.column_line <$> rows)
       ++ [ScriptGenerator.column_text row; ");"])
  = String.concat ("," +:+ ScriptGenerator.newline)
      (ScriptGenerator.column_text <$> (rows ++ [row]))
    +:+ ScriptGenerator.newline +:+ ");".
Proof.
  induction rows as [|r rows IH]; [done|].
  cbn [fmap list_fmap app]. rewrite !concat_cons_ne.
  - rewrite IH. destruct (column_line_text r) as (_ & _ & _ & ->).
    by rewrite !append_assoc.
  - rewrite fmap_app. by destruct (ScriptGenerator.column_text <$> rows).
  - by destruct (ScriptGenerator.column_line <$> rows).
Qed.

(** X14: for a non-empty metadata frame the DDL script is the header,
    then one line per column in the order of the frame, these lines
    separated by a comma and a line break with no comma after the last
    one, then the closing line.  For an empty frame it is the header
    directly followed by the closing line. *)
Theorem ddl_script_layout (metadata_df : list ScriptGenerator.MetadataRow)
    (target_schema target_table : string) :
  (metadata_df ≠ [] →
     ScriptGenerator.generate_ddl_script metadata_df target_schema target_table
     = ScriptGenerator.ddl_layout metadata_df target_schema target_table)
  ∧ ScriptGenerator.generate_ddl_script [] target_schema target_table
    = "CREATE TABLE " +:+ target_schema +:+ "." +:+ target_table +:+ " ("
      +:+ ScriptGenerator.newline +:+ ");".
Proof.
  split.
  - intros Hne. destruct (exists_last Hne) as (rows & row & ->).
    unfold ScriptGenerator.generate_ddl_script, ScriptGenerator.ddl_layout.
    set (header := "CREATE TABLE " +:+ target_schema +:+ "." +:+ target_table
                   +:+ " (").
    rewrite fmap_app. cbn [fmap list_fmap].
    set (pre := header :: (ScriptGenerator.column_line <$> rows)).
    change (header :: (ScriptGenerator.column_line <$> rows)
              ++ [ScriptGenerator.column_line row])
      with (pre ++ [ScriptGenerator.column_line row]).
    assert (length (pre ++ [ScriptGenerator.column_line row]) - 1
            = length pre + 0) as ->.
    { rewrite length_app. cbn. lia. }
    rewrite insert_app_r, (list_lookup_middle pre [] _ (length pre + 0)) by lia.
    cbn [default list_insert insert]. 
    destruct (column_line_text row) as (y & Htext & Hline & _). unfold id.
    rewrite Hline, (rstrip_of_spec ScriptGenerator.is_comma y "L" ",") by done.
    rewrite <-Htext, <-app_assoc. unfold pre. cbn [app].
    rewrite concat_cons_ne by (by destruct (ScriptGenerator.column_line <$> rows)).
    rewrite ddl_body. unfold header. by rewrite !append_assoc.
  - unfold ScriptGenerator.generate_ddl_script. cbn [fmap list_fmap length].
    cbn [Nat.sub lookup list_lookup default from_option insert list_insert app].
    unfold id.
    set (y := "CREATE TABLE " +:+ target_schema +:+ "." +:+ target_table +:+ " ").
    assert ("CREATE TABLE " +:+ target_schema +:+ "." +:+ target_table +:+ " ("
            = y +:+ "(") as ->.
    { unfold y. by rewrite !append_assoc. }
    rewrite (rstrip_of_spec ScriptGenerator.is_comma y "(" "") by done.
    cbn [String.concat]. unfold y. by rewrite !append_assoc.
Qed.

Lemma ddl_script_layout_witness :
  ScriptGenerator.generate_ddl_script
    [ScriptGenerator.add_mapped_type ScriptGenerator.teradata_to_azure
       ("id", "I ", 4%Z, "N");
     ScriptGenerator.add_mapped_type ScriptGenerator.teradata_to_azure
       ("name", "CV", 50%Z, "Y")]
    "dw" "customers"
  = "CREATE TABLE dw.customers (" +:+ ScriptGenerator.newline
    +:+ "  id INT NOT NULL," +:+ ScriptGenerator.newline
    +:+ "  name VARCHAR NULL" +:+ ScriptGenerator.newline +:+ ");".
Proof.
  rewrite (proj1 (ddl_script_layout _ "dw" "customers")); [reflexivity|discriminate].
Defined.

(** ** The credential store *)

Lemma string_forall_app p a b :
  string_forall p (a +:+ b) = string_forall p a && string_forall p b.
Proof.
  induction a as [|c a IH]; [done|]. rewrite append_cons. cbn.
  rewrite IH. by destruct (p c).
Qed.

Lemma append_nil_l s : "" +:+ s = s.
Proof. done. Qed.

Ltac norm_append H := repeat (rewrite append_cons in H || rewrite append_nil_l in H).

Lemma underscore_inside a b : ¬ Connector.no_underscore (a +:+ "_" +:+ b).
Proof.
  unfold Connector.no_underscore. rewrite string_forall_app, append_cons. cbn.
  by destruct (string_forall _ a).
Qed.

Lemma first_underscore_split a1 b1 a2 b2 :
  Connector.no_underscore a1 → Connector.no_underscore a2 →
  a1 +:+ "_" +:+ b1 = a2 +:+ "_" +:+ b2 → a1 = a2 ∧ b1 = b2.
Proof.
  unfold Connector.no_underscore. revert a2.
  induction a1 as [|c a1 IH]; intros [|c' a2] H1 H2 H; cbn in H1, H2;
    norm_append H.
  - by injection H as ->.
  - injection H as <- _. done.
  - injection H as -> _. done.
  - injection H as -> H.
    apply andb_true_iff in H1 as [_ H1]. apply andb_true_iff in H2 as [_ H2].
    by destruct (IH a2 H1 H2 H) as [-> ->].
Qed.

Lemma last_underscore_split c1 k1 c2 k2 :
  Connector.no_underscore k1 → Connector.no_underscore k2 →
  c1 +:+ "_" +:+ k1 = c2 +:+ "_" +:+ k2 → c1 = c2 ∧ k1 = k2.
Proof.
  intros H1 H2. revert c2. induction c1 as [|c c1 IH]; intros [|c' c2] H.
  - norm_append H. by injection H as ->.
  - norm_append H. injection H as <- H.
    rewrite H in H1. by apply underscore_inside in H1.
  - norm_append H. injection H as -> H.
    rewrite <-H in H2. by apply underscore_inside in H2.
  - rewrite !append_cons in H. injection H as -> H.
    by destruct (IH c2 H) as [-> ->].
Qed.

(** The session keys of credentials are unambiguous. *)
Lemma credential_key_inj s1 c1 k1 s2 c2 k2 :
  Connector.no_underscore s1 → Connector.no_underscore s2 →
  Connector.no_underscore k1 → Connector.no_underscore k2 →
  Connector.credential_key s1 c1 k1 = Connector.credential_key s2 c2 k2 →
  s1 = s2 ∧ c1 = c2 ∧ k1 = k2.
Proof.
  intros Hs1 Hs2 Hk1 Hk2 H. unfold Connector.credential_key in H.
  apply first_underscore_split in H as [-> H]; [|done..].
  by apply last_underscore_split in H as [-> ->].
Qed.

Lemma credential_key_not_list_key s c k :
  Connector.credential_key s c k ≠ Connector.conn_list_key s.
Proof.
  unfold Connector.credential_key, Connector.conn_list_key. intros H.
  apply (inj (String.app s)) in H. norm_append H. injection H as H.
  apply (underscore_inside c k).
  change (Connector.no_underscore (c +:+ String "_" k)). by rewrite H.
Qed.

Lemma credential_key_not_list_key' s1 c k s2 :
  Connector.no_underscore s1 → Connector.no_underscore s2 →
  Connector.credential_key s1 c k ≠ Connector.conn_list_key s2.
Proof.
  intros H1 H2 H. unfold Connector.credential_key, Connector.conn_list_key in H.
  change (s2 +:+ "_connections") with (s2 +:+ "_" +:+ "connections") in H.
  apply first_underscore_split in H as [_ H]; [|done..].
  by apply (underscore_inside c k); rewrite H.
Qed.

Lemma credential_key_same s c k1 k2 :
  Connector.credential_key s c k1 = Connector.credential_key s c k2 → k1 = k2.
Proof.
  unfold Connector.credential_key. intros H.
  apply (inj (String.app s)) in H. norm_append H. injection H as H.
  apply (inj (String.app c)) in H. norm_append H. by injection H.
Qed.

(** The state after the credential assignments of [store_credentials]. *)
Lemma stored_lookup fernet s c kwargs (st : gmap string Connector.SessionValue) key :
  foldl (λ st '(k, v),
           <[Connector.credential_key s c k
             := Connector.Token (Connector.encrypt_credential fernet v)]> st)
        st kwargs !! key
  = match last (filter (λ kv, Connector.credential_key s c kv.1 = key) kwargs) with
    | Some (_, v) => Some (Connector.Token (Connector.encrypt_credential fernet v))
    | None => st !! key
    end.
Proof.
  revert st. induction kwargs as [|[k v] kwargs IH]; intros st; [done|].
  cbn [foldl]. rewrite IH, filter_cons. cbn [fst].
  destruct (decide (Connector.credential_key s c k = key)) as [<-|Hne].
  - rewrite last_cons. destruct (last (filter _ kwargs)) as [[k' v']|]; [done|].
    by rewrite lookup_insert_eq.
  - destruct (last (filter _ kwargs)) as [[k' v']|]; [done|].
    by rewrite lookup_insert_ne.
Qed.

(** What [store_credentials] leaves under a key other than the list
    key of its source type. *)
Lemma store_lookup fernet s c kwargs st st' key :
  Connector.store_credentials fernet s c kwargs st = Some st' →
  key ≠ Connector.conn_list_key s →
  st' !! key
  = match last (filter (λ kv, Connector.credential_key s c kv.1 = key) kwargs) with
    | Some (_, v) => Some (Connector.Token (Connector.encrypt_credential fernet v))
    | None => st !! key
    end.
Proof.
  intros H Hkey. rewrite <-(stored_lookup fernet s c kwargs st key).
  unfold Connector.store_credentials in H.
  set (st1 := foldl _ st kwargs) in *.
  destruct (st1 !! Connector.conn_list_key s) as [[t|l]|] eqn:Hl.
  - rewrite Hl in H. destruct (Connector.contains c t); [|done].
    by injection H as <-.
  - rewrite Hl in H. destruct (decide (c ∈ l)); injection H as <-; [done|].
    by rewrite lookup_insert_ne.
  - rewrite lookup_insert_eq in H. destruct (decide (c ∈ [])) as [Hin|_].
    { by apply elem_of_nil in Hin. }
    injection H as <-. by rewrite !lookup_insert_ne.
Qed.

Lemma last_filter_key (kwargs : list (string * string)) (P : string * string → Prop)
    `{∀ kv, Decision (P kv)} k v :
  NoDup kwargs.*1 → (k, v) ∈ kwargs → P (k, v) →
  (∀ kv, kv ∈ kwargs → P kv → kv.1 = k) →
  last (filter P kwargs) = Some (k, v).
Proof.
  intros Hnd Hin HP Huniq.
  assert (filter P kwargs = [(k, v)]) as ->; [|done].
  induction kwargs as [|[k0 v0] kwargs IH]; [by apply elem_of_nil in Hin|].
  cbn in Hnd. apply NoDup_cons in Hnd as [Hk0 Hnd]. rewrite filter_cons.
  apply elem_of_cons in Hin as [[= <- <-]|Hin].
  - rewrite decide_True by done. f_equal. apply filter_none.
    intros [k1 v1] H1 HP1. apply Hk0.
    assert ((k1, v1).1 = k) as Hk by (apply Huniq; [by right|done]).
    cbn in Hk. subst k1. apply list_elem_of_fmap. by exists (k, v1).
  - destruct (decide (P (k0, v0))) as [HP0|_].
    + exfalso. apply Hk0.
      assert ((k0, v0).1 = k) as Hk by (apply Huniq; [left|done]).
      cbn in Hk. subst k0. apply list_elem_of_fmap. by exists (k, v).
    + apply IH; [done..|]. intros kv Hkv. apply Huniq. by right.
Qed.

Lemma get_credentials_spec fernet s c keys st :
  NoDup keys →
  Connector.get_credentials fernet s c keys st
  = (λ key, (key, Connector.decrypt_credential fernet
                    (default (Connector.Token "")
                       (st !! Connector.credential_key s c key)))) <$> keys.
Proof.
  intros Hnd. unfold Connector.get_credentials.
  set (g := λ key : string,
              Connector.decrypt_credential fernet
                (default (Connector.Token "")
                   (st !! Connector.credential_key s c key))).
  assert (∀ acc, (∀ k, k ∈ keys → k ∉ dict_keys acc) →
            foldl (λ acc key, dict_set key (g key) acc) acc keys
            = acc ++ ((λ key, (key, g key)) <$> keys)) as Hfold.
  { induction Hnd as [|k keys Hk Hnd IH]; intros acc Hacc; cbn.
    - by rewrite app_nil_r.
    - rewrite dict_set_fresh by (apply Hacc; left). rewrite IH.
      + by rewrite <-app_assoc.
      + intros k' Hk'. unfold dict_keys. rewrite fmap_app. cbn.
        rewrite not_elem_of_app, list_elem_of_singleton. split.
        * apply Hacc. by right.
        * by intros ->. }
  rewrite Hfold; [done|]. intros k _. apply not_elem_of_nil.
Qed.

Lemma store_then_get (fernet : Connector.Cipher)
    (source_type conn_name : string) (kwargs : list (string * string))
    (st st' : gmap string Connector.SessionValue) :
  (∀ m, Connector.decrypt fernet (Connector.encrypt fernet m) = Some m) →
  NoDup kwargs.*1 →
  Connector.store_credentials fernet source_type conn_name kwargs st = Some st' →
  Connector.get_credentials fernet source_type conn_name kwargs.*1 st' = kwargs.
Proof.
  intros Hrt Hnd Hstore. rewrite get_credentials_spec by done.
  assert (∀ k v, (k, v) ∈ kwargs →
            Connector.decrypt_credential fernet
              (default (Connector.Token "")
                 (st' !! Connector.credential_key source_type conn_name k)) = v)
    as Hread.
  { intros k v Hkv.
    rewrite (store_lookup _ _ _ _ _ _ _ Hstore)
      by apply credential_key_not_list_key.
    rewrite (last_filter_key kwargs _ k v); [|done..|].
    - cbn. unfold Connector.encrypt_credential. by rewrite Hrt.
    - intros [k' v'] _ Hk'. cbn in *. by apply credential_key_same in Hk'. }
  clear Hstore Hnd. induction kwargs as [|[k v] kwargs IH]; [done|].
  cbn. rewrite (Hread k v) by left. f_equal. apply IH.
  intros k' v' H. apply Hread. by right.
Qed.

(** X15: what is stored is what is read back.  With a cipher that
    decrypts its own tokens, after [store_credentials] has stored the
    keyword arguments for a connection, [get_credentials] for their
    keys returns exactly these arguments, whatever the session held
    before and whatever the source type, connection name and keys. *)
Theorem credentials_round_trip (fernet : Connector.Cipher)
    (source_type conn_name : string) (kwargs : list (string * string))
    (st st' : gmap string Connector.SessionValue) :
  (∀ m, Connector.decrypt fernet (Connector.encrypt fernet m) = Some m) →
  NoDup kwargs.*1 →
  Connector.store_credentials fernet source_type conn_name kwargs st = Some st' →
  Connector.get_credentials fernet source_type conn_name kwargs.*1 st' = kwargs.
Proof. apply store_then_get. Qed.

Lemma credentials_round_trip_witness :
  ∃ st',
    Connector.store_credentials Connector.sample_cipher "teradata" "prod_dw"
      [("host", "td.example.com"); ("user", "etl"); ("password", "s3cret")] ∅
    = Some st'
    ∧ Connector.get_credentials Connector.sample_cipher "teradata" "prod_dw"
        ["host"; "user"; "password"] st'
      = [("host", "td.example.com"); ("user", "etl"); ("password", "s3cret")].
Proof.
  eexists. split; [vm_compute; reflexivity|].
  apply (credentials_round_trip Connector.sample_cipher "teradata" "prod_dw"
           [("host", "td.example.com"); ("user", "etl"); ("password", "s3cret")] ∅).
  - intros m. reflexivity.
  - cbn. repeat (apply NoDup_cons; split);
      [rewrite !not_elem_of_cons; repeat split; (discriminate || apply not_elem_of_nil)
      |rewrite !not_elem_of_cons; repeat split; (discriminate || apply not_elem_of_nil)
      |apply not_elem_of_nil|apply NoDup_nil_2].
  - vm_compute. reflexivity.
Defined.

Lemma store_keeps_list fernet s c kwargs (st : gmap string Connector.SessionValue) :
  Connector.well_formed s st →
  ∃ st' l,
    Connector.store_credentials fernet s c kwargs st = Some st'
    ∧ Connector.get_saved_connections s st = Connector.Names l
    ∧ Connector.get_saved_connections s st'
      = Connector.Names (if decide (c ∈ l) then l else l ++ [c])
    ∧ Connector.well_formed s st'.
Proof.
  unfold Connector.well_formed, Connector.get_saved_connections,
    Connector.store_credentials. intros Hwf.
  set (st1 := foldl _ st kwargs).
  assert (st1 !! Connector.conn_list_key s = st !! Connector.conn_list_key s) as Hl.
  { unfold st1. rewrite stored_lookup, filter_none; [done|].
    intros [k v] _ Hk. by apply credential_key_not_list_key in Hk. }
  rewrite Hl. destruct (st !! Connector.conn_list_key s) as [[t|l]|] eqn:Hst;
    [done| |].
  - rewrite Hl. exists (if decide (c ∈ l) then st1
                        else <[Connector.conn_list_key s
                               := Connector.Names (l ++ [c])]> st1), l.
    destruct (decide (c ∈ l)) as [Hin|Hin].
    + rewrite Hl. by repeat split.
    + rewrite lookup_insert_eq. repeat split; try done. cbn.
      apply NoDup_app. split; [done|]. split; [|apply NoDup_singleton].
      by intros x Hx ->%list_elem_of_singleton.
  - rewrite lookup_insert_eq.
    exists (<[Connector.conn_list_key s := Connector.Names ([] ++ [c])]>
              (<[Connector.conn_list_key s := Connector.Names []]> st1)), [].
    rewrite decide_False by apply not_elem_of_nil.
    rewrite lookup_insert_eq. repeat split; try done. cbn. apply NoDup_singleton.
Qed.

(** X16: on a session whose list of saved connections for the source
    type is a list of distinct names (or is not there yet),
    [store_credentials] does not raise; the list stays one of distinct
    names and becomes the old list when the connection name is already
    in it, and the old list followed by the name otherwise.  Storing
    credentials never disturbs the list. *)
Theorem saved_connections_stay_distinct (fernet : Connector.Cipher)
    (source_type conn_name : string) (kwargs : list (string * string))
    (st : gmap string Connector.SessionValue) :
  Connector.well_formed source_type st →
  ∃ st' l,
    Connector.store_credentials fernet source_type conn_name kwargs st = Some st'
    ∧ Connector.get_saved_connections source_type st = Connector.Names l
    ∧ Connector.get_saved_connections source_type st'
      = Connector.Names (if decide (conn_name ∈ l) then l else l ++ [conn_name])
    ∧ Connector.well_formed source_type st'.
Proof. apply store_keeps_list. Qed.

Lemma saved_connections_stay_distinct_witness :
  Connector.well_formed "teradata"
    (<["teradata_connections" := Connector.Names ["dev"]]> ∅)
  ∧ ∃ st',
      Connector.store_credentials Connector.sample_cipher "teradata" "prod"
        [("host", "h")] (<["teradata_connections" := Connector.Names ["dev"]]> ∅)
      = Some st'
      ∧ Connector.get_saved_connections "teradata" st'
        = Connector.Names ["dev"; "prod"].
Proof.
  assert (Connector.well_formed "teradata"
            (<["teradata_connections" := Connector.Names ["dev"]]> ∅)) as Hwf.
  { vm_compute. apply NoDup_singleton. }
  split; [exact Hwf|].
  destruct (saved_connections_stay_distinct Connector.sample_cipher "teradata"
              "prod" [("host", "h")] _ Hwf) as (st' & l & Hs & Hl & Hl' & _).
  exists st'. split; [exact Hs|]. rewrite Hl'.
  vm_compute in Hl. injection Hl as <-. reflexivity.
Defined.

Lemma get_credentials_ext fernet s c keys
    (st st' : gmap string Connector.SessionValue) :
  (∀ k, k ∈ keys →
        st' !! Connector.credential_key s c k = st !! Connector.credential_key s c k) →
  Connector.get_credentials fernet s c keys st'
  = Connector.get_credentials fernet s c keys st.
Proof.
  unfold Connector.get_credentials. generalize (@nil (string * string)).
  induction keys as [|k keys IH]; intros acc H; [done|].
  cbn [foldl]. rewrite (H k) by left. apply IH. intros k' Hk'. apply H. by right.
Qed.

Lemma store_leaves_others fernet s1 c1 keys s2 c2 kwargs
    (st st' : gmap string Connector.SessionValue) :
  Connector.no_underscore s1 → Connector.no_underscore s2 →
  Forall Connector.no_underscore keys →
  Forall Connector.no_underscore kwargs.*1 →
  (s1, c1) ≠ (s2, c2) →
  Connector.store_credentials fernet s2 c2 kwargs st = Some st' →
  Connector.get_credentials fernet s1 c1 keys st'
  = Connector.get_credentials fernet s1 c1 keys st
  ∧ (s1 ≠ s2 →
     Connector.get_saved_connections s1 st' = Connector.get_saved_connections s1 st).
Proof.
  intros Hs1 Hs2 Hkeys Hkw Hne Hstore. split.
  - apply get_credentials_ext. intros k Hk.
    rewrite (store_lookup _ _ _ _ _ _ _ Hstore)
      by (by apply credential_key_not_list_key').
    rewrite filter_none; [done|]. intros [k' v'] Hin Heq. cbn in Heq.
    apply credential_key_inj in Heq as (-> & -> & _); try done.
    + rewrite Forall_forall in Hkw. apply Hkw, list_elem_of_fmap. by exists (k', v').
    + rewrite Forall_forall in Hkeys. by apply Hkeys.
  - intros Hs. unfold Connector.get_saved_connections.
    rewrite (store_lookup _ _ _ _ _ _ _ Hstore).
    + rewrite filter_none; [done|]. intros [k' v'] _ Heq. cbn in Heq.
      by apply credential_key_not_list_key' in Heq.
    + unfold Connector.conn_list_key. intros Heq.
      change (s1 +:+ "_" +:+ "connections" = s2 +:+ "_" +:+ "connections") in Heq.
      by apply first_underscore_split in Heq as [-> _].
Qed.

(** X18: connections do not interfere.  When source types and
    credential keys contain no underscore (connection names may),
    storing credentials for one connection changes neither what
    [get_credentials] returns for a different connection nor the list
    of saved connections of a different source type. *)
Theorem connections_do_not_interfere (fernet : Connector.Cipher)
    (source1 conn1 : string) (keys : list string)
    (source2 conn2 : string) (kwargs : list (string * string))
    (st st' : gmap string Connector.SessionValue) :
  Connector.no_underscore source1 → Connector.no_underscore source2 →
  Forall Connector.no_underscore keys →
  Forall Connector.no_underscore kwargs.*1 →
  (source1, conn1) ≠ (source2, conn2) →
  Connector.store_credentials fernet source2 conn2 kwargs st = Some st' →
  Connector.get_credentials fernet source1 conn1 keys st'
  = Connector.get_credentials fernet source1 conn1 keys st
  ∧ (source1 ≠ source2 →
     Connector.get_saved_connections source1 st'
     = Connector.get_saved_connections source1 st).
Proof. apply store_leaves_others. Qed.

Lemma connections_do_not_interfere_witness :
  ∃ st',
    Connector.store_credentials Connector.sample_cipher "teradata" "prod"
      [("host", "p.example.com")]
      (<["teradata_dev_host" := Connector.Token "gAAAAd.example.com"]> ∅)
    = Some st'
    ∧ Connector.get_credentials Connector.sample_cipher "teradata" "dev" ["host"] st'
      = [("host", "d.example.com")].
Proof.
  eexists. split; [vm_compute; reflexivity|].
  refine (eq_trans
            (proj1 (connections_do_not_interfere Connector.sample_cipher
                      "teradata" "dev" ["host"] "teradata" "prod"
                      [("host", "p.example.com")]
                      (<["teradata_dev_host"
                         := Connector.Token "gAAAAd.example.com"]> ∅)
                      _ _ _ _ _ _ _)) _).
  - reflexivity.
  - reflexivity.
  - by repeat constructor.
  - by repeat constructor.
  - discriminate.
  - vm_compute. reflexivity.
  - vm_compute. reflexivity.
Defined.

(** X17: a credential that was never stored, or whose stored value is
    not a token the cipher accepts, reads as the empty string; nothing
    is raised.  It is assumed, as for Fernet, that the empty string is
    not a valid token. *)
Theorem missing_credentials_read_empty (fernet : Connector.Cipher)
    (source_type conn_name : string) (keys : list string)
    (st : gmap string Connector.SessionValue) :
  Connector.decrypt fernet "" = None →
  NoDup keys →
  (∀ k, k ∈ keys →
     match st !! Connector.credential_key source_type conn_name k with
     | Some (Connector.Token t) => Connector.decrypt fernet t = None
     | _ => True
     end) →
  Connector.get_credentials fernet source_type conn_name keys st
  = (λ k, (k, "")) <$> keys.
Proof.
  intros Hempty Hnd Hkeys. rewrite get_credentials_spec by done.
  apply list_fmap_ext. intros i k Hk. f_equal.
  specialize (Hkeys k (list_elem_of_lookup_2 _ _ _ Hk)).
  destruct (st !! Connector.credential_key source_type conn_name k) as [[t|l]|];
    cbn; [by rewrite Hkeys|done|by rewrite Hempty].
Qed.

Lemma missing_credentials_read_empty_witness :
  Connector.get_credentials Connector.sample_cipher "teradata" "nowhere"
    ["host"; "user"; "password"] ∅
  = [("host", ""); ("user", ""); ("password", "")].
Proof.
  apply (missing_credentials_read_empty Connector.sample_cipher "teradata"
           "nowhere" ["host"; "user"; "password"] ∅).
  - reflexivity.
  - repeat (apply NoDup_cons; split);
      [rewrite !not_elem_of_cons; repeat split; (discriminate || apply not_elem_of_nil)
      |rewrite !not_elem_of_cons; repeat split; (discriminate || apply not_elem_of_nil)
      |apply not_elem_of_nil|apply NoDup_nil_2].
  - intros k _. rewrite lookup_empty. exact I.
Defined.

(** X19: keys are joined with underscores and nothing is escaped, so
    a credential key that contains an underscore is shared between
    connections: what was stored for connection [c] under the key
    [k1_k2] is what [get_credentials] returns for the connection
    [c_k1] under the key [k2]. *)
Theorem underscore_keys_alias (fernet : Connector.Cipher)
    (source_type conn_name k1 k2 value : string)
    (st st' : gmap string Connector.SessionValue) :
  (∀ m, Connector.decrypt fernet (Connector.encrypt fernet m) = Some m) →
  Connector.store_credentials fernet source_type conn_name
    [(k1 +:+ "_" +:+ k2, value)] st = Some st' →
  Connector.get_credentials fernet source_type (conn_name +:+ "_" +:+ k1) [k2] st'
  = [(k2, value)].
Proof.
  intros Hcipher Hstore. unfold Connector.get_credentials. cbn [foldl].
  assert (Connector.credential_key source_type (conn_name +:+ "_" +:+ k1) k2
          = Connector.credential_key source_type conn_name (k1 +:+ "_" +:+ k2))
    as ->.
  { unfold Connector.credential_key. by rewrite !append_assoc. }
  rewrite (store_lookup _ _ _ _ _ _ _ Hstore)
    by apply credential_key_not_list_key.
  rewrite filter_cons, decide_True by done. cbn.
  unfold Connector.encrypt_credential. by rewrite Hcipher.
Qed.

Lemma underscore_keys_alias_witness :
  ∃ st',
    Connector.store_credentials Connector.sample_cipher "databricks" "lake"
      [("workspace_url", "https://adb.example.net")] ∅ = Some st'
    ∧ Connector.get_credentials Connector.sample_cipher "databricks"
        "lake_workspace" ["url"] st'
      = [("url", "https://adb.example.net")].
Proof.
  eexists. split; [vm_compute; reflexivity|].
  apply (underscore_keys_alias Connector.sample_cipher "databricks" "lake"
           "workspace" "url" "https://adb.example.net" ∅).
  - intros m. reflexivity.
  - vm_compute. reflexivity.
Defined.

(** X20: the save button for Teradata.  With a cipher that decrypts
    its own tokens and a session whose list of Teradata connections is
    a list of distinct names (or not there yet), saving four non-empty
    fields succeeds with the message naming the connection; afterwards
    [get_credentials] gives back host, user and password as entered and
    the connection name is in the list of saved connections, which
    still has no duplicates. *)
Theorem teradata_save_then_read (fernet : Connector.Cipher)
    (conn_name host user password : string)
    (st : gmap string Connector.SessionValue) :
  (∀ m, Connector.decrypt fernet (Connector.encrypt fernet m) = Some m) →
  Connector.well_formed "teradata" st →
  host ≠ "" → user ≠ "" → password ≠ "" → conn_name ≠ "" →
  ∃ st' l,
    Connector.save_teradata fernet conn_name host user password st
    = Some (st', "Teradata credentials saved/updated as '" +:+ conn_name +:+ "'.")
    ∧ Connector.get_credentials fernet "teradata" conn_name
        ["host"; "user"; "password"] st'
      = [("host", host); ("user", user); ("password", password)]
    ∧ Connector.get_saved_connections "teradata" st' = Connector.Names l
    ∧ conn_name ∈ l ∧ NoDup l.
Proof.
  intros Hcipher Hwf Hh Hu Hp Hc.
  destruct (store_keeps_list fernet "teradata" conn_name
              [("host", host); ("user", user); ("password", password)] st Hwf)
    as (st' & l & Hstore & Hl & Hl' & Hwf').
  exists st', (if decide (conn_name ∈ l) then l else l ++ [conn_name]).
  unfold Connector.save_teradata. rewrite decide_True by done. rewrite Hstore.
  split; [done|]. split.
  - apply (store_then_get fernet "teradata" conn_name
             [("host", host); ("user", user); ("password", password)] st st');
      [done| |done].
    cbn. repeat (apply NoDup_cons; split);
      [rewrite !not_elem_of_cons; repeat split; (discriminate || apply not_elem_of_nil)
      |rewrite !not_elem_of_cons; repeat split; (discriminate || apply not_elem_of_nil)
      |apply not_elem_of_nil|apply NoDup_nil_2].
  - split; [done|]. split.
    + destruct (decide (conn_name ∈ l)); [done|].
      apply elem_of_app. right. by left.
    + unfold Connector.well_formed in Hwf'.
      unfold Connector.get_saved_connections in Hl'.
      destruct (st' !! Connector.conn_list_key "teradata") as [[t|l']|];
        cbn in Hl'; [done| |].
      * by injection Hl' as <-.
      * injection Hl' as Hl'. destruct (decide (conn_name ∈ l)); [|by destruct l].
        subst l. apply NoDup_nil_2.
Qed.

Lemma teradata_save_then_read_witness :
  ∃ st',
    Connector.save_teradata Connector.sample_cipher "prod" "td.example.com"
      "etl" "s3cret" ∅
    = Some (st', "Teradata credentials saved/updated as 'prod'.")
    ∧ Connector.get_credentials Connector.sample_cipher "teradata" "prod"
        ["host"; "user"; "password"] st'
      = [("host", "td.example.com"); ("user", "etl"); ("password", "s3cret")].
Proof.
  destruct (teradata_save_then_read Connector.sample_cipher "prod"
              "td.example.com" "etl" "s3cret" ∅)
    as (st' & l & Hsave & Hget & _); try done.
  exists st'. split; [exact Hsave|exact Hget].
Defined.
